(** * Feature-count annotation of torch.fx graphs (flexnas)

    A shallow embedding of
      - [flexnas/utils/model_graph.py]  (graph adapter and node classifier),
      - [flexnas/graph/utils.py]        ([try_get_args]),
      - [flexnas/graph/annotation.py]   (the three annotation passes),
    followed by the properties of the passes. *)

From stdpp Require Import base numbers list gmap strings.

Set Warnings "-register-all".
Open Scope Z_scope.

(** ** Data model *)

(** [fx.Node.op] *)
Inductive Op :=
  | placeholder | get_attr | call_function | call_method | call_module | output.

(** The callables that the classifier compares [n.target] with; every other
    callable is [other_func]. *)
Inductive Func :=
  | torch_add | operator_add | torch_sub | operator_sub
  | F_relu | F_relu6 | F_log_softmax
  | torch_flatten | torch_squeeze | torch_cat
  | other_func (id : nat).

(** The layer classes that the classifier compares [type(submodule)] with. *)
Inductive Layer :=
  | Conv1d | Conv2d | Linear
  | BatchNorm1d | BatchNorm2d | AvgPool1d | AvgPool2d | MaxPool1d
  | Dropout | ReLU | ReLU6 | ConstantPad1d | ConstantPad2d
  | other_layer (id : nat).

(** [fx.Node.target]: a callable for [call_function], a string otherwise. *)
Inductive Target :=
  | TFunc (f : Func)
  | TStr (s : string).

(** An entry of [n.args] or [n.kwargs]: an integer, [None], a node, a list of
    nodes, or [AOther] for a value of another type that is no number (a
    string, a tuple of integers, ...). *)
Inductive Arg :=
  | AInt (z : Z)
  | ANone
  | ANode (i : nat)
  | ANodes (l : list nat)
  | AOther.

#[export] Instance Op_eq_dec : EqDecision Op.
Proof. solve_decision. Defined.
#[export] Instance Func_eq_dec : EqDecision Func.
Proof. solve_decision. Defined.
#[export] Instance Layer_eq_dec : EqDecision Layer.
Proof. solve_decision. Defined.
#[export] Instance Target_eq_dec : EqDecision Target.
Proof. solve_decision. Defined.
#[export] Instance Arg_eq_dec : EqDecision Arg.
Proof. solve_decision. Defined.

(** [fx.Node].  Nodes are objects in Python; [name] is the identity of the
    object and [all_input_nodes] lists the identities of the input nodes, in
    the order of [fx.Node.all_input_nodes]. *)
Record Node := mkNode {
  name : nat;
  op : Op;
  target : Target;
  args : list Arg;
  kwargs : gmap string Arg;
  all_input_nodes : list nat;
}.

(** [fx.Graph.nodes] *)
Definition Graph := list Node.

(** [fx.GraphModule]: the graph, and [type(get_submodule(target))], the class
    of the submodule that a [call_module] target names. *)
Record GraphModule := mkGraphModule {
  graph : Graph;
  get_submodule : string → Layer;
}.

Definition target_str (t : Target) : string :=
  match t with
  | TStr s => s
  | TFunc _ => "<function>"
  end.

(** Modelled from the spec: the calculators of
    [flexnas/graph/features_calculation.py], which is not part of the sources.
    Section 3 gives the variants: a constant count, a flatten calculator
    holding an upstream calculator and an integer multiplier, and a
    concatenation calculator over a list of upstream calculators.  A
    pass-through is the upstream calculator itself, as
    [add_features_calculator] assigns it. *)
Inductive FeaturesCalculator :=
  | ConstFeaturesCalculator (c : Z)
  | FlattenFeaturesCalculator (prev : FeaturesCalculator) (mult : Z)
  | ConcatFeaturesCalculator (inputs : list FeaturesCalculator).

(** Modelled from the spec: the value of a calculator (its [features]
    property), which is not part of the sources.  Section 3: the fixed count,
    the upstream value times the multiplier, the sum of the upstream
    values. *)
Fixpoint features (fc : FeaturesCalculator) : Z :=
  match fc with
  | ConstFeaturesCalculator c => c
  | FlattenFeaturesCalculator prev mult => features prev * mult
  | ConcatFeaturesCalculator inputs =>
      (fix sum (l : list FeaturesCalculator) : Z :=
         match l with
         | [] => 0
         | c :: l' => features c + sum l'
         end) inputs
  end.

(** The value of [n.meta['input_features_set_by']]: a node, or the list
    [n.all_input_nodes] for a concatenation. *)
Inductive SetBy :=
  | ByNode (i : nat)
  | ByList (l : list nat).

#[export] Instance SetBy_eq_dec : EqDecision SetBy.
Proof. solve_decision. Defined.

(** [n.meta]: one optional field per key that the passes read or write.
    [tensor_meta] is the shape that shape propagation stored beforehand. *)
Record Meta := mkMeta {
  features_propagating : option bool;
  features_defining : option bool;
  shared_input_features : option bool;
  flatten : option bool;
  squeeze : option bool;
  features_concatenate : option bool;
  untouchable : option bool;
  zero_or_one_input : option bool;
  features_calculator : option FeaturesCalculator;
  input_features_set_by : option SetBy;
  tensor_meta : option (list Z);
}.

Definition empty_meta : Meta :=
  mkMeta None None None None None None None None None None None.

(** The [meta] dictionaries of all nodes, by node identity. *)
Abbreviation Store := (gmap nat Meta).

Definition meta (st : Store) (i : nat) : Meta := default empty_meta (st !! i).

(** Python exceptions that the passes can raise, with their messages less the
    formatted arguments.  The unsupported-node error of the spec is
    [ValueError "Unsupported node"]; its invalid-reshape errors are the two
    [AssertionError]s on the batch dimension and
    [ValueError "Squeeze without dim not supported"].  [AttributeError] is
    the error of torch's [get_submodule] for a target that names no
    submodule. *)
Inductive Exn :=
  | ValueError (msg : string)
  | AssertionError (msg : string)
  | KeyError (key : string)
  | IndexError
  | TypeError
  | NetworkXError
  | LookupError
  | AttributeError.

Definition Result (A : Type) : Type := Exn + A.

Definition ret {A} (a : A) : Result A := inr a.
Definition raise {A} (e : Exn) : Result A := inl e.
Definition bind {A B} (r : Result A) (k : A → Result B) : Result B :=
  match r with
  | inl e => inl e
  | inr a => k a
  end.

Notation "'let!' x := r 'in' k" := (bind r (fun x => k))
  (at level 10, x name, r at level 100, k at level 200).

(** [d[key]] on a [meta] dictionary *)
Definition getitem {A} (key : string) (o : option A) : Result A :=
  match o with
  | Some a => ret a
  | None => raise (KeyError key)
  end.

(** ** Graph adapter ([flexnas/utils/model_graph.py]) *)

(** The edges that [fx_to_nx_graph] adds, in insertion order: for every node
    of the graph, one edge from each of its input nodes. *)
Definition fx_to_nx_graph (fx_graph : Graph) : list (nat * nat) :=
  n ← fx_graph; i ← all_input_nodes n; [(i, name n)].

(** [n in nx_graph]: networkx adds the two ends of an edge as nodes. *)
Definition nx_has_node (fx_graph : Graph) (i : nat) : bool :=
  existsb (λ e, bool_decide (e.1 = i) || bool_decide (e.2 = i))
          (fx_to_nx_graph fx_graph).

(** The nodes with an edge from [n], in insertion order. *)
Definition succs (fx_graph : Graph) (n : Node) : list Node :=
  filter (λ s, name n ∈ all_input_nodes s) fx_graph.

(** [nx_graph.successors(n)]; networkx raises for a node that is not in the
    graph. *)
Definition successors (fx_graph : Graph) (n : Node) : Result (list Node) :=
  if nx_has_node fx_graph (name n)
  then ret (succs fx_graph n)
  else raise NetworkXError.

Definition get_input_nodes (fx_graph : Graph) : list Node :=
  filter (λ n, op n = placeholder) fx_graph.

Definition get_output_nodes (fx_graph : Graph) : list Node :=
  filter (λ n, op n = output) fx_graph.

(** ** Node classifier ([flexnas/utils/model_graph.py]) *)

Definition submodule_type (n : Node) (parent : GraphModule) : Layer :=
  get_submodule parent (target_str (target n)).

Definition is_layer (n : Node) (parent : GraphModule) (layer : Layer) : bool :=
  if bool_decide (op n ≠ call_module) then false
  else bool_decide (submodule_type n parent = layer).

Definition is_zero_or_one_input_op (n : Node) : bool :=
  bool_decide (length (all_input_nodes n) ≤ 1)%nat.

Definition is_shared_input_features_op (n : Node) (parent : GraphModule) : bool :=
  if is_zero_or_one_input_op n then false
  else if bool_decide (op n = call_function) then
    if bool_decide (target n = TFunc torch_add) then true
    else if bool_decide (target n = TFunc operator_add) then true
    else if bool_decide (target n = TFunc torch_sub) then true
    else if bool_decide (target n = TFunc operator_sub) then true
    else false
  else false.

Definition is_features_defining_op (n : Node) (parent : GraphModule) : bool :=
  if bool_decide (op n = placeholder) && bool_decide (length (all_input_nodes n) = 0%nat)
  then true
  else if bool_decide (op n = call_module) then
    let submodule := submodule_type n parent in
    if bool_decide (submodule = Conv1d) then true
    else if bool_decide (submodule = Conv2d) then true
    else if bool_decide (submodule = Linear) then true
    else false
  else false.

Definition is_features_propagating_op (n : Node) (parent : GraphModule) : bool :=
  if bool_decide (op n = output) then true
  else if bool_decide (op n = call_module) then
    let submodule := submodule_type n parent in
    if bool_decide (submodule = BatchNorm1d) then true
    else if bool_decide (submodule = BatchNorm2d) then true
    else if bool_decide (submodule = AvgPool1d) then true
    else if bool_decide (submodule = AvgPool2d) then true
    else if bool_decide (submodule = MaxPool1d) then true
    else if bool_decide (submodule = BatchNorm2d) then true
    else if bool_decide (submodule = Dropout) then true
    else if bool_decide (submodule = ReLU) then true
    else if bool_decide (submodule = ReLU6) then true
    else if bool_decide (submodule = ConstantPad1d) then true
    else if bool_decide (submodule = ConstantPad2d) then true
    else false
  else if bool_decide (op n = call_function) then
    if bool_decide (target n = TFunc F_relu) then true
    else if bool_decide (target n = TFunc F_relu6) then true
    else if bool_decide (target n = TFunc F_log_softmax) then true
    else false
  else false.

Definition is_flatten (n : Node) (parent : GraphModule) : bool :=
  if bool_decide (op n = call_method) && bool_decide (target n = TStr "flatten")
  then true
  else if bool_decide (op n = call_function) && bool_decide (target n = TFunc torch_flatten)
  then true
  else false.

Definition is_concatenate (n : Node) (parent : GraphModule) : bool :=
  if bool_decide (op n = call_function) && bool_decide (target n = TFunc torch_cat)
  then true
  else false.

(** ** Argument lookup ([flexnas/graph/utils.py]) *)

Definition try_get_args (n : Node) (args_idx : nat) (kwargs_str : string)
    (dflt : Arg) : Arg :=
  match args n !! args_idx with
  | Some arg => arg
  | None =>
      match kwargs n !! kwargs_str with
      | Some arg => if bool_decide (arg ≠ ANone) then arg else dflt
      | None => dflt
      end
  end.

(** ** Classifier predicates of [flexnas/graph/inspection.py] *)

(** Modelled from the spec: [is_squeeze] is not part of the sources.  Section
    4.2 pairs it with [is_flatten] as the second of the two reshape
    operations; it recognises the method and the function in the same way. *)
Definition is_squeeze (n : Node) (parent : GraphModule) : bool :=
  if bool_decide (op n = call_method) && bool_decide (target n = TStr "squeeze")
  then true
  else if bool_decide (op n = call_function) && bool_decide (target n = TFunc torch_squeeze)
  then true
  else false.

(** Modelled from the spec: [is_features_concatenate] is not part of the
    sources.  Section 4.2: true for a concatenation over the channel axis,
    which Section 6 fixes as dimension 1. *)
Definition is_features_concatenate (n : Node) (parent : GraphModule) : bool :=
  is_concatenate n parent && bool_decide (try_get_args n 1 "dim" (AInt 0) = AInt 1).

(** ** The work-queue loop of [flexnas/graph/annotation.py]

    The three passes are the same loop around three bodies:
<<
    queue = get_input_nodes(g)
    while queue:
        n = queue.pop(0)
        ... body, which may `continue` or raise ...
        for succ in nx_graph.successors(n):
            queue.append(succ)
>>
    A body returns [None] when it leaves the iteration with [continue] and
    the new [meta] dictionaries when it reaches the loop over the successors.
    The loop need not terminate on a cyclic graph, so it takes fuel: [None]
    means that the fuel ran out before the queue was empty. *)
Definition Body := Node → Store → Result (option Store).

Fixpoint while_queue (g : Graph) (body : Body) (fuel : nat)
    (queue : list Node) (st : Store) : option (Result Store) :=
  match queue with
  | [] => Some (ret st)
  | n :: queue =>
      match fuel with
      | O => None
      | S fuel =>
          match body n st with
          | inl e => Some (raise e)
          | inr None => while_queue g body fuel queue st
          | inr (Some st) =>
              match successors g n with
              | inl e => Some (raise e)
              | inr succs => while_queue g body fuel (queue ++ succs) st
              end
          end
      end
  end.

(** [n.meta[...] = ...] *)
Definition set_meta (st : Store) (n : Node) (m : Meta) : Store :=
  <[name n := m]> st.

Definition with_features_calculator (m : Meta) (fc : FeaturesCalculator) : Meta :=
  mkMeta (features_propagating m) (features_defining m) (shared_input_features m)
         (flatten m) (squeeze m) (features_concatenate m) (untouchable m)
         (zero_or_one_input m) (Some fc) (input_features_set_by m) (tensor_meta m).

Definition with_input_features_set_by (m : Meta) (by_ : SetBy) : Meta :=
  mkMeta (features_propagating m) (features_defining m) (shared_input_features m)
         (flatten m) (squeeze m) (features_concatenate m) (untouchable m)
         (zero_or_one_input m) (features_calculator m) (Some by_) (tensor_meta m).

(** [l[i]] on a list or tuple, for a non-negative [i] *)
Definition index {A} (l : list A) (i : nat) : Result A :=
  match l !! i with
  | Some a => ret a
  | None => raise IndexError
  end.

(** [len(input_shape) - d], defined for an integer [d] *)
Definition len_minus (input_shape : list Z) (d : Arg) : Result Z :=
  match d with
  | AInt z => ret (Z.of_nat (length input_shape) - z)
  | _ => raise TypeError
  end.

(** [assert d != 0 and len(input_shape) - d != 0, msg] *)
Definition assert_not_batch (msg : string) (input_shape : list Z) (d : Arg)
    : Result unit :=
  if bool_decide (d ≠ AInt 0) then
    let! r := len_minus input_shape d in
    if bool_decide (r ≠ 0) then ret () else raise (AssertionError msg)
  else raise (AssertionError msg).

(** [d == 1 or len(input_shape) - d == 1] *)
Definition includes_channels (input_shape : list Z) (d : Arg) : Result bool :=
  if bool_decide (d = AInt 1) then ret true
  else
    let! r := len_minus input_shape d in
    ret (bool_decide (r = 1)).

(** [input_shape[2:stop]], with Python's clipping of the bounds *)
Definition slice_from_2 (input_shape : list Z) (stop : option Z) : list Z :=
  let len := Z.of_nat (length input_shape) in
  let stop :=
    match stop with
    | None => len
    | Some e => if bool_decide (e < 0) then Z.max (e + len) 0 else Z.min e len
    end in
  take (Z.to_nat (stop - 2)) (drop 2 input_shape).

(** [math.prod] *)
Definition prod (l : list Z) : Z := foldr Z.mul 1 l.

(** [math.prod(input_shape[2:end_dim if end_dim != -1 else None])] *)
Definition flattened_size (input_shape : list Z) (end_dim : Arg) : Result Z :=
  match end_dim with
  | AInt e =>
      ret (prod (slice_from_2 input_shape (if bool_decide (e ≠ -1) then Some e else None)))
  | ANone => ret (prod (slice_from_2 input_shape None))
  | _ => raise TypeError
  end.

(** The first calculator that a rule of [extra_rules] produces. *)
Fixpoint first_rule (extra_rules : list (Node → GraphModule → option FeaturesCalculator))
    (n : Node) (mod_ : GraphModule) : option FeaturesCalculator :=
  match extra_rules with
  | [] => None
  | rule :: extra_rules =>
      match rule n mod_ with
      | Some fc => Some fc
      | None => first_rule extra_rules n mod_
      end
  end.

(** The node object with identity [i].  In Python the inputs of a node are
    node objects of the same graph; [LookupError] stands for an identity that
    names no node of the graph, which fx graphs exclude. *)
Definition get_node (g : Graph) (i : nat) : Result Node :=
  match list_find (λ n, name n = i) g with
  | Some (_, n) => ret n
  | None => raise LookupError
  end.

Section Passes.

(** [is_untouchable_op] of [flexnas/graph/inspection.py] is not part of the
    sources and Section 4.2 does not say what it computes: the passes take
    it as a parameter. *)
Variable is_untouchable_op : Node → bool.

Definition with_node_properties (mod_ : GraphModule) (n : Node) (m : Meta) : Meta :=
  mkMeta (Some (is_features_propagating_op n mod_))
         (Some (is_features_defining_op n mod_))
         (Some (is_shared_input_features_op n mod_))
         (Some (is_flatten n mod_))
         (Some (is_squeeze n mod_))
         (Some (is_features_concatenate n mod_))
         (Some (is_untouchable_op n))
         (Some (is_zero_or_one_input_op n))
         (features_calculator m) (input_features_set_by m) (tensor_meta m).

(** annotation.py, lines 41-48 *)
Definition add_node_properties_body (mod_ : GraphModule)
    (n : Node) (st : Store) : Result (option Store) :=
  ret (Some (set_meta st n (with_node_properties mod_ n (meta st (name n))))).

(** annotation.py, lines 28-51 *)
Definition add_node_properties (mod_ : GraphModule) (fuel : nat) (st : Store)
    : option (Result Store) :=
  let g := graph mod_ in
  while_queue g (add_node_properties_body mod_) fuel (get_input_nodes g) st.

(** annotation.py, lines 80-143: the calculator that the pass attaches to
    [n], by the first branch that applies. *)
Definition new_features_calculator (mod_ : GraphModule)
    (extra_rules : list (Node → GraphModule → option FeaturesCalculator))
    (n : Node) (st : Store) : Result FeaturesCalculator :=
  let m := meta st (name n) in
  match first_rule extra_rules n mod_ with
  | Some fc => ret fc
  | None =>
      let! is_flatten := getitem "flatten" (flatten m) in
      if is_flatten then
        let! i0 := index (all_input_nodes n) 0 in
        let! ifc := getitem "features_calculator" (features_calculator (meta st i0)) in
        let! input_shape := getitem "tensor_meta" (tensor_meta (meta st i0)) in
        let start_dim := try_get_args n 1 "start_dim" (AInt 0) in
        let end_dim := try_get_args n 2 "end_dim" (AInt (-1)) in
        let! _ := assert_not_batch "Flattening the batch not supported"
                                   input_shape start_dim in
        let! channels := includes_channels input_shape start_dim in
        if channels then
          let! size := flattened_size input_shape end_dim in
          ret (FlattenFeaturesCalculator ifc size)
        else ret ifc
      else
      let! is_squeeze := getitem "squeeze" (squeeze m) in
      if is_squeeze then
        let! i0 := index (all_input_nodes n) 0 in
        let! ifc := getitem "features_calculator" (features_calculator (meta st i0)) in
        let! input_shape := getitem "tensor_meta" (tensor_meta (meta st i0)) in
        let dim := try_get_args n 1 "dim" ANone in
        if bool_decide (dim = ANone)
        then raise (ValueError "Squeeze without dim not supported")
        else
          let! _ := assert_not_batch "Squeezing the batch is not supported"
                                     input_shape dim in
          let! channels := includes_channels input_shape dim in
          if channels then
            let! size := index input_shape 2 in
            ret (FlattenFeaturesCalculator ifc size)
          else ret ifc
      else
      let! is_concat := getitem "features_concatenate" (features_concatenate m) in
      if is_concat then
        let! ifcs :=
          foldr (λ prev acc,
                   let! fc := getitem "features_calculator"
                                      (features_calculator (meta st prev)) in
                   let! fcs := acc in
                   ret (fc :: fcs))
                (ret []) (all_input_nodes n) in
        ret (ConcatFeaturesCalculator ifcs)
      else
      let! is_shared := getitem "shared_input_features" (shared_input_features m) in
      if is_shared then
        let! i0 := index (all_input_nodes n) 0 in
        getitem "features_calculator" (features_calculator (meta st i0))
      else
      let! is_defining := getitem "features_defining" (features_defining m) in
      if is_defining then
        let! shape := getitem "tensor_meta" (tensor_meta m) in
        let! c := index shape 1 in
        ret (ConstFeaturesCalculator c)
      else
      let! is_propagating := getitem "features_propagating" (features_propagating m) in
      if is_propagating then
        let! i0 := index (all_input_nodes n) 0 in
        getitem "features_calculator" (features_calculator (meta st i0))
      else raise (ValueError "Unsupported node")
  end.

(** annotation.py, lines 72-78: [skip_flag] *)
Definition skip_flag (n : Node) (st : Store) : bool :=
  existsb (λ i, bool_decide (features_calculator (meta st i) = None))
          (all_input_nodes n).

(** annotation.py, lines 69-143 *)
Definition add_features_calculator_body (mod_ : GraphModule)
    (extra_rules : list (Node → GraphModule → option FeaturesCalculator))
    (n : Node) (st : Store) : Result (option Store) :=
  if skip_flag n st then ret None
  else
    let! fc := new_features_calculator mod_ extra_rules n st in
    ret (Some (set_meta st n (with_features_calculator (meta st (name n)) fc))).

(** annotation.py, lines 54-146 *)
Definition add_features_calculator (mod_ : GraphModule)
    (extra_rules : list (Node → GraphModule → option FeaturesCalculator))
    (fuel : nat) (st : Store) : option (Result Store) :=
  let g := graph mod_ in
  while_queue g (add_features_calculator_body mod_ extra_rules) fuel
              (get_input_nodes g) st.

(** annotation.py, lines 163-212: the value that the pass stores in
    [n.meta['input_features_set_by']], or [None] where it stores nothing. *)
Definition new_input_features_set_by (mod_ : GraphModule)
    (n : Node) (st : Store) : Result (option SetBy) :=
  let m := meta st (name n) in
  let input_nodes := all_input_nodes n in
  if bool_decide (0 < length input_nodes)%nat then
    let! is_concat := getitem "features_concatenate" (features_concatenate m) in
    if is_concat then
      let skip :=
        existsb (λ inode, bool_decide (input_features_set_by (meta st inode) = None))
                input_nodes in
      if negb skip then ret (Some (ByList input_nodes)) else ret None
    else
      let! prev := index input_nodes 0 in
      let pm := meta st prev in
      match input_features_set_by pm with
      | Some prev_set_by =>
          let! prev_flatten := getitem "flatten" (flatten pm) in
          if prev_flatten then
            let! prev_node := get_node (graph mod_) prev in
            let! p0 := index (all_input_nodes prev_node) 0 in
            let! input_shape := getitem "tensor_meta" (tensor_meta (meta st p0)) in
            let start_dim := try_get_args prev_node 1 "start_dim" (AInt 0) in
            let! _ := assert_not_batch "Flattening the batch not supported"
                                       input_shape start_dim in
            let! channels := includes_channels input_shape start_dim in
            if channels then ret (Some (ByNode prev)) else ret (Some prev_set_by)
          else
          let! prev_squeeze := getitem "squeeze" (squeeze pm) in
          if prev_squeeze then
            let! prev_node := get_node (graph mod_) prev in
            let! p0 := index (all_input_nodes prev_node) 0 in
            let! input_shape := getitem "tensor_meta" (tensor_meta (meta st p0)) in
            let dim := try_get_args prev_node 1 "dim" ANone in
            if bool_decide (dim = ANone)
            then raise (ValueError "Squeeze without dim not supported")
            else
              let! _ := assert_not_batch "Squeezing the batch is not supported"
                                         input_shape dim in
              let! channels := includes_channels input_shape dim in
              if channels then ret (Some (ByNode prev)) else ret (Some prev_set_by)
          else
          let! prev_concat := getitem "features_concatenate" (features_concatenate pm) in
          if prev_concat then ret (Some (ByNode prev))
          else
          let! prev_defining := getitem "features_defining" (features_defining pm) in
          if prev_defining then ret (Some (ByNode prev))
          else
          let! prev_propagating := getitem "features_propagating" (features_propagating pm) in
          if prev_propagating then ret (Some prev_set_by)
          else raise (ValueError "Unsupported node")
      | None => ret None
      end
  else ret (Some (ByNode (name n))).

(** annotation.py, lines 161-212 *)
Definition associate_input_features_body (mod_ : GraphModule)
    (n : Node) (st : Store) : Result (option Store) :=
  let! set_by := new_input_features_set_by mod_ n st in
  match set_by with
  | Some set_by =>
      ret (Some (set_meta st n (with_input_features_set_by (meta st (name n)) set_by)))
  | None => ret (Some st)
  end.

(** annotation.py, lines 149-215 *)
Definition associate_input_features (mod_ : GraphModule) (fuel : nat) (st : Store)
    : option (Result Store) :=
  let g := graph mod_ in
  while_queue g (associate_input_features_body mod_) fuel (get_input_nodes g) st.

(** The three passes in the order that Section 5 prescribes, each with the
    same fuel. *)
Definition annotate_graph (mod_ : GraphModule)
    (extra_rules : list (Node → GraphModule → option FeaturesCalculator))
    (fuel : nat) (st : Store) : option (Result Store) :=
  match add_node_properties mod_ fuel st with
  | Some (inr st) =>
      match add_features_calculator mod_ extra_rules fuel st with
      | Some (inr st) => associate_input_features mod_ fuel st
      | r => r
      end
  | r => r
  end.

End Passes.

(** ** Classification of a node *)

(** The six classifying predicates of Section 3, in the order in which
    [add_node_properties] evaluates them. *)
Definition classifiers (n : Node) (mod_ : GraphModule) : list bool :=
  [ is_features_propagating_op n mod_; is_features_defining_op n mod_;
    is_shared_input_features_op n mod_; is_flatten n mod_;
    is_squeeze n mod_; is_features_concatenate n mod_ ].

(** The six classification flags of a [meta] dictionary. *)
Definition classification_flags (m : Meta) : list (option bool) :=
  [ features_propagating m; features_defining m; shared_input_features m;
    flatten m; squeeze m; features_concatenate m ].

(** The number of flags that are set and true. *)
Definition count_true (flags : list (option bool)) : nat :=
  length (filter (λ f, f = Some true) flags).

(** ** Example graphs *)

Definition node (i : nat) (o : Op) (t : Target) (a : list Arg) (ins : list nat) : Node :=
  mkNode i o t a ∅ ins.

(** A [meta] dictionary that holds only the shape of the node's output. *)
Definition shape_meta (shape : list Z) : Meta :=
  mkMeta None None None None None None None None None None (Some shape).

Definition conv_modules (s : string) : Layer :=
  if bool_decide (s ∈ ["conv1"; "conv2"; "conv3"]) then Conv2d else other_layer 0.

(** [conv3(cat([conv1(x), conv2(x)], 1))] *)
Definition concat_example : GraphModule :=
  mkGraphModule
    [ node 0 placeholder (TStr "x") [] [];
      node 1 call_module (TStr "conv1") [ANode 0] [0%nat];
      node 2 call_module (TStr "conv2") [ANode 0] [0%nat];
      node 3 call_function (TFunc torch_cat) [ANodes [1%nat; 2%nat]; AInt 1] [1%nat; 2%nat];
      node 4 call_module (TStr "conv3") [ANode 3] [3%nat];
      node 5 output (TStr "output") [ANode 4] [4%nat] ]
    conv_modules.

Definition concat_example_shapes (h w : Z) : Store :=
  list_to_map
    [ (0%nat, shape_meta [1; 3; h; w]); (1%nat, shape_meta [1; 16; h; w]);
      (2%nat, shape_meta [1; 24; h; w]); (3%nat, shape_meta [1; 40; h; w]);
      (4%nat, shape_meta [1; 8; h; w]); (5%nat, shape_meta [1; 8; h; w]) ].

(** [act(x)] for a layer class [act] outside the allow-lists *)
Definition unclassified_node : Node :=
  node 1 call_module (TStr "act") [ANode 0] [0%nat].

Definition unclassified_example : GraphModule :=
  mkGraphModule
    [ node 0 placeholder (TStr "x") [] [];
      unclassified_node;
      node 2 output (TStr "output") [ANode 1] [1%nat] ]
    (λ _, other_layer 0).

Definition unclassified_example_shapes : Store :=
  list_to_map
    [ (0%nat, shape_meta [1; 3; 8; 8]); (1%nat, shape_meta [1; 3; 8; 8]);
      (2%nat, shape_meta [1; 3; 8; 8]) ].

(** [cat([x, zeros(...)], 1)]: the call of [zeros] has no input node. *)
Definition no_predecessor_node : Node :=
  node 1 call_function (TFunc (other_func 0)) [AOther] [].

Definition no_predecessor_concat : Node :=
  node 2 call_function (TFunc torch_cat) [ANodes [0%nat; 1%nat]; AInt 1] [0%nat; 1%nat].

Definition no_predecessor_example : GraphModule :=
  mkGraphModule
    [ node 0 placeholder (TStr "x") [] [];
      no_predecessor_node;
      no_predecessor_concat;
      node 3 output (TStr "output") [ANode 2] [2%nat] ]
    (λ _, other_layer 0).

Definition no_predecessor_example_shapes : Store :=
  list_to_map
    [ (0%nat, shape_meta [1; 3; 8; 8]); (1%nat, shape_meta [1; 3; 8; 8]);
      (2%nat, shape_meta [1; 6; 8; 8]); (3%nat, shape_meta [1; 6; 8; 8]) ].

(** [x.flatten(start_dim)], with [end_dim] left out *)
Definition flatten_node (start_dim : Z) : Node :=
  node 1 call_method (TStr "flatten") [ANode 0; AInt start_dim] [0%nat].

Definition flatten_example (start_dim : Z) : GraphModule :=
  mkGraphModule
    [ node 0 placeholder (TStr "x") [] [];
      flatten_node start_dim;
      node 2 output (TStr "output") [ANode 1] [1%nat] ]
    (λ _, other_layer 0).

(** The shapes for a [start_dim] that merges all four dimensions. *)
Definition flatten_example_shapes : Store :=
  list_to_map
    [ (0%nat, shape_meta [1; 32; 5; 3]); (1%nat, shape_meta [480]);
      (2%nat, shape_meta [480]) ].


(** ** Graphs

    What the passes assume of a graph, stated on the model. *)

(** Nodes are objects: no two nodes of a graph have the same identity. *)
Definition distinct_nodes (g : Graph) : Prop := NoDup (name <$> g).

(** The input nodes of every node are nodes of the graph. *)
Definition closed (g : Graph) : Prop :=
  ∀ n i, n ∈ g → i ∈ all_input_nodes n → ∃ p, p ∈ g ∧ name p = i.

(** The nodes without predecessors are the placeholders. *)
Definition rooted (g : Graph) : Prop :=
  ∀ n, n ∈ g → (op n = placeholder ↔ all_input_nodes n = []).

(** Every placeholder is an input of some node, so that networkx knows it. *)
Definition inputs_used (g : Graph) : Prop :=
  ∀ n, n ∈ g → op n = placeholder → ∃ s, s ∈ g ∧ name n ∈ all_input_nodes s.

(** The edges go up along some ranking of the nodes. *)
Definition acyclic (g : Graph) : Prop :=
  ∃ rank : nat → nat,
    ∀ n i, n ∈ g → i ∈ all_input_nodes n → (rank i < rank (name n))%nat.

(** The nodes that a forward walk from the inputs reaches. *)
Inductive reachable (g : Graph) : Node → Prop :=
  | reachable_input n :
      n ∈ get_input_nodes g → reachable g n
  | reachable_succ p n :
      reachable g p → n ∈ g → name p ∈ all_input_nodes n → reachable g n.

(** The walk of the work-queue loop with a body that neither raises nor
    skips: [true] when the queue runs empty within the fuel. *)
Fixpoint walk (g : Graph) (fuel : nat) (queue : list Node) : bool :=
  match queue with
  | [] => true
  | n :: queue =>
      match fuel with
      | O => false
      | S fuel => walk g fuel (queue ++ succs g n)
      end
  end.

(** What the passes leave unchanged once [add_node_properties] has run: the
    flags and the shape. *)
Definition static (m : Meta) : list (option bool) * option (list Z) :=
  ([ features_propagating m; features_defining m; shared_input_features m;
     flatten m; squeeze m; features_concatenate m; untouchable m;
     zero_or_one_input m ], tensor_meta m).

(** ** The nodes that a run of the loop has visited

    [settled] and [visited] describe the state of the loop: the nodes [P] that
    the loop has taken from the queue are back in the queue, or the body
    skips them in the present state, or the body leaves the present state as
    it is and their successors are in the queue or in [P] in their turn. *)
Definition settled (g : Graph) (body : Body) (P : Node → Prop)
    (queue : list Node) (st : Store) (p : Node) : Prop :=
  p ∈ queue
  ∨ body p st = ret None
  ∨ (body p st = ret (Some st)
     ∧ ∃ ss, successors g p = ret ss ∧ ∀ n, n ∈ ss → n ∈ queue ∨ P n).

Definition visited (g : Graph) (body : Body) (queue : list Node) (st : Store) : Prop :=
  ∃ P : Node → Prop,
    (∀ p, P p → p ∈ g ∧ settled g body P queue st p)
    ∧ (∀ n, n ∈ get_input_nodes g → n ∈ queue ∨ P n)
    ∧ (∀ n, n ∈ queue → n ∈ g).

(** A store [st'] that differs from [st] in calculators and back-references
    only. *)
Definition same_static (st st' : Store) : Prop :=
  ∀ i, static (meta st i) = static (meta st' i).

(** A bound on the length of the walk: along a ranking [rank] of an acyclic
    graph, a node weighs more than all its successors together. *)
Definition top_rank (g : Graph) (rank : nat → nat) : nat :=
  S (max_list (rank ∘ name <$> g)).

Definition weight (g : Graph) (rank : nat → nat) (n : Node) : nat :=
  (S (length g) ^ (top_rank g rank - rank (name n)))%nat.

(** ** Nodes on which the passes raise nothing *)

(** The dimensions that the assertion on [start_dim] and [dim] accepts. *)
Definition reshape_dim_ok (input_shape : list Z) (d : Arg) : Prop :=
  ∃ z, d = AInt z ∧ z ≠ 0 ∧ z ≠ Z.of_nat (length input_shape).

Definition end_dim_ok (e : Arg) : Prop := e = ANone ∨ ∃ z, e = AInt z.

(** The shape of the first input node, where it has one. *)
Definition first_input_shape (st : Store) (n : Node) : option (list Z) :=
  match all_input_nodes n with
  | i0 :: _ => tensor_meta (meta st i0)
  | [] => None
  end.

(** A node that one of the six predicates classifies and whose arguments and
    shapes are those that its branches of the passes read: a flatten or a
    squeeze passes the assertion on its dimension and has the shape of its
    first input, a features-defining node has a shape with a channel
    dimension, and a shared-input node is the first input of concatenation
    nodes only. *)
Definition supported (mod_ : GraphModule) (st : Store) (n : Node) : Prop :=
  true ∈ classifiers n mod_
  ∧ (is_flatten n mod_ = true →
     ∃ shape, first_input_shape st n = Some shape
              ∧ reshape_dim_ok shape (try_get_args n 1 "start_dim" (AInt 0))
              ∧ end_dim_ok (try_get_args n 2 "end_dim" (AInt (-1))))
  ∧ (is_squeeze n mod_ = true →
     ∃ shape, first_input_shape st n = Some shape
              ∧ reshape_dim_ok shape (try_get_args n 1 "dim" ANone)
              ∧ (includes_channels shape (try_get_args n 1 "dim" ANone) = ret true
                 → (2 < length shape)%nat))
  ∧ (is_features_defining_op n mod_ = true →
     ∃ shape, tensor_meta (meta st (name n)) = Some shape ∧ (1 < length shape)%nat)
  ∧ (is_shared_input_features_op n mod_ = true →
     ∀ s, s ∈ graph mod_ → head (all_input_nodes s) = Some (name n) →
          is_features_concatenate s mod_ = true).

(** ** The lookup of submodules *)

(** [parent.get_submodule(str(n.target))] of torch raises [AttributeError] for
    a target that names no submodule.  [get_submodule] of [GraphModule] gives
    the class of the submodule for the targets that name one; [named] tells
    which targets do. *)
Definition get_submodule_checked (named : string → bool) (parent : GraphModule)
    (target : string) : Result Layer :=
  if named target then ret (get_submodule parent target) else raise AttributeError.

(** annotation.py, lines 41-48, with the exception of the lookup: for a
    [call_module] node, [is_features_propagating_op] (line 41, model_graph.py
    line 189) looks the submodule up before anything is written, and
    [is_features_defining_op] (model_graph.py line 158) looks it up again. *)
Definition add_node_properties_body_checked (is_untouchable_op : Node → bool)
    (named : string → bool) (mod_ : GraphModule) (n : Node) (st : Store)
    : Result (option Store) :=
  if bool_decide (op n = call_module) then
    let! _ := get_submodule_checked named mod_ (target_str (target n)) in
    add_node_properties_body is_untouchable_op mod_ n st
  else add_node_properties_body is_untouchable_op mod_ n st.

(** annotation.py, lines 28-51, with the exception of the lookup *)
Definition add_node_properties_checked (is_untouchable_op : Node → bool)
    (named : string → bool) (mod_ : GraphModule) (fuel : nat) (st : Store)
    : option (Result Store) :=
  let g := graph mod_ in
  while_queue g (add_node_properties_body_checked is_untouchable_op named mod_) fuel
              (get_input_nodes g) st.

(** A module without submodules: no target names one. *)
Definition no_submodule (target : string) : bool := false.

(** ** Nodes that networkx does not know *)

(** A node that is the end of no edge. *)
Definition isolated (g : Graph) (n : Node) : Prop :=
  ∀ s, s ∈ g → (name n ∉ all_input_nodes s) ∧ (name s = name n → all_input_nodes s = []).

(** ** Kinds of node *)

(** The kinds of node at which a chain of back-references ends. *)
Definition sets_features (n : Node) (mod_ : GraphModule) : bool :=
  is_features_defining_op n mod_ || is_features_concatenate n mod_
  || is_flatten n mod_ || is_squeeze n mod_.

(** The layer classes on the two allow-lists of [model_graph.py]. *)
Definition features_defining_layers : list Layer := [Conv1d; Conv2d; Linear].

Definition features_propagating_layers : list Layer :=
  [BatchNorm1d; BatchNorm2d; AvgPool1d; AvgPool2d; MaxPool1d; Dropout; ReLU; ReLU6;
   ConstantPad1d; ConstantPad2d].

Definition features_propagating_functions : list Func := [F_relu; F_relu6; F_log_softmax].

(** ** Further example graphs *)






(** A [squeeze] with its dimension as second positional argument. *)
Definition squeeze_node (dim : Arg) : Node :=
  node 1 call_method (TStr "squeeze") [ANode 0; dim] [0%nat].

(** [conv1(x)] in a module whose [forward] takes a second argument [y] that
    it does not use *)
Definition unused_input_example : GraphModule :=
  mkGraphModule
    [ node 0 placeholder (TStr "x") [] [];
      node 1 placeholder (TStr "y") [] [];
      node 2 call_module (TStr "conv1") [ANode 0] [0%nat];
      node 3 output (TStr "output") [ANode 2] [2%nat] ]
    conv_modules.

(** [relu(conv1(x) + x)] *)
Definition residual_example : GraphModule :=
  mkGraphModule
    [ node 0 placeholder (TStr "x") [] [];
      node 1 call_module (TStr "conv1") [ANode 0] [0%nat];
      node 2 call_function (TFunc operator_add) [ANode 1; ANode 0] [1%nat; 0%nat];
      node 3 call_function (TFunc F_relu) [ANode 2] [2%nat];
      node 4 output (TStr "output") [ANode 3] [3%nat] ]
    conv_modules.

Definition squeeze_example (dim : Arg) : GraphModule :=
  mkGraphModule
    [ node 0 placeholder (TStr "x") [] [];
      squeeze_node dim;
      node 2 output (TStr "output") [ANode 1] [1%nat] ]
    (λ _, other_layer 0).

(** The [meta] dictionaries of [x.squeeze(dim)] for an input of 16 channels
    and length 1, when the propagation comes to the squeeze. *)
Definition squeeze_example_store (dim : Arg) : Store :=
  list_to_map
    [ (0%nat, with_features_calculator (shape_meta [1; 16; 1]) (ConstFeaturesCalculator 16));
      (1%nat, with_node_properties (λ _, false) (squeeze_example dim) (squeeze_node dim)
                (shape_meta [1; 16])) ].

(** ** Collecting the modules of the search ([flexnas/methods/supernet/supernet.py]) *)

(** [nn.Module]: the name of the class and the registered submodules
    [_modules], in their order.  A value is a tree of modules: no module
    object is registered twice. *)
Inductive nn_Module :=
  mkModule (class_name : string) (_modules : list (string * nn_Module)).

Definition class_name (m : nn_Module) : string := let 'mkModule c _ := m in c.
Definition _modules (m : nn_Module) : list (string * nn_Module) :=
  let 'mkModule _ ms := m in ms.

(** [nn.Module.children] *)
Definition children (m : nn_Module) : list nn_Module := snd <$> _modules m.

(** [prefix + ('.' if prefix else '') + name] *)
Definition submodule_prefix (prefix name : string) : string :=
  prefix +:+ (if bool_decide (prefix ≠ "") then "." else "") +:+ name.

(** [nn.Module.named_modules] of torch: the module itself under [prefix], then
    the modules below each of its submodules, under the names that
    [submodule_prefix] joins. *)
Fixpoint named_modules (m : nn_Module) (prefix : string) : list (string * nn_Module) :=
  (prefix, m) ::
  (fix below (ms : list (string * nn_Module)) : list (string * nn_Module) :=
     match ms with
     | [] => []
     | (name, child) :: ms => named_modules child (submodule_prefix prefix name) ++ below ms
     end) (let 'mkModule _ ms := m in ms).

(** A [for] loop whose body may run out of fuel *)
Fixpoint for_each {A S} (body : A → S → option S) (l : list A) (s : S) : option S :=
  match l with
  | [] => Some s
  | a :: l =>
      match body a s with
      | Some s => for_each body l s
      | None => None
      end
  end.

(** supernet.py, lines 65-91.  The recursion is on the children of the
    modules below [model]; it takes fuel, and [None] means that the fuel ran
    out. *)
Fixpoint get_supernetModules (fuel : nat) (target_modules : list (string * nn_Module))
    (model : nn_Module) (exclude_names : list string) : option (list (string * nn_Module)) :=
  match fuel with
  | O => None
  | S fuel =>
      for_each
        (λ named_module target_modules,
           if bool_decide (named_module.1 ≠ "") then
             let submodules := children named_module.2 in
             if bool_decide (class_name named_module.2 = "SuperNetModule") then
               if bool_decide (named_module.1 ∉ exclude_names)
               then Some (target_modules ++ [named_module])
               else Some target_modules
             else if bool_decide (submodules ≠ []) then
               for_each
                 (λ child target_modules,
                    get_supernetModules fuel target_modules child exclude_names)
                 submodules target_modules
             else Some target_modules
           else Some target_modules)
        (named_modules model "") target_modules
  end.

(** The height of the tree of modules *)
Fixpoint height (m : nn_Module) : nat :=
  S ((fix max_height (ms : list (string * nn_Module)) : nat :=
        match ms with
        | [] => O
        | (_, child) :: ms => Nat.max (height child) (max_height ms)
        end) (let 'mkModule _ ms := m in ms)).

(** A module of the search with two alternatives, and a network that holds it
    inside two nested [Sequential] containers, under the name [a.b.s]. *)
Definition nested_supernet_module : nn_Module :=
  mkModule "SuperNetModule"
    [ ("input_layers",
       mkModule "ModuleList" [ ("0", mkModule "Conv2d" []); ("1", mkModule "Conv2d" []) ]) ].

Definition nested_example : nn_Module :=
  mkModule "Net"
    [ ("a", mkModule "Sequential"
              [ ("b", mkModule "Sequential" [ ("s", nested_supernet_module) ]) ]) ].

(** ** The regulariser of the search ([flexnas/methods/supernet/supernet.py]) *)

(** The two cost functions that [get_regularization_loss] can be bound to. *)
Inductive Loss := get_size | get_macs.

(** The attributes of a [SuperNet] that the setter of [regularizer] reads or
    writes, and the modules of the search. *)
Record SuperNet := mkSuperNet {
  _regularizer : string;
  get_regularization_loss : option Loss;
  _target_modules : list (string * nn_Module);
}.

(** supernet.py, lines 116-122 *)
Definition supported_regularizers : list string := ["size"; "macs"].

(** supernet.py, lines 146-154: the getter of [regularizer] *)
Definition regularizer (self : SuperNet) : string := _regularizer self.

(** supernet.py, lines 156-164: the setter of [regularizer] *)
Definition set_regularizer (self : SuperNet) (value : string) : Result SuperNet :=
  if bool_decide (value = "size") then
    ret (mkSuperNet value (Some get_size) (_target_modules self))
  else if bool_decide (value = "macs") then
    ret (mkSuperNet value (Some get_macs) (_target_modules self))
  else raise (ValueError ("Invalid regularizer " +:+ value)).

(** * Properties *)

(** ** The work-queue loop *)

Lemma while_queue_fuel_mono g body fuel fuel' queue st r :
  while_queue g body fuel queue st = Some r →
  (fuel ≤ fuel')%nat →
  while_queue g body fuel' queue st = Some r.
Proof.
  revert fuel' queue st. induction fuel as [|fuel IH]; intros fuel' queue st H Hle.
  - destruct queue; simpl in H; [|done]. by destruct fuel'.
  - destruct queue as [|n queue]; [by destruct fuel'|].
    destruct fuel' as [|fuel']; [lia|]. simpl in *.
    destruct (body n st) as [e|[st'|]]; [done| |].
    + destruct (successors g n); [done|]. apply IH; [done|lia].
    + apply IH; [done|lia].
Qed.

Lemma annotate_graph_fuel_mono u mod_ rules fuel fuel' st r :
  annotate_graph u mod_ rules fuel st = Some r →
  (fuel ≤ fuel')%nat →
  annotate_graph u mod_ rules fuel' st = Some r.
Proof.
  unfold annotate_graph, add_node_properties, add_features_calculator,
    associate_input_features. intros H Hle.
  destruct (while_queue _ (add_node_properties_body _ _) fuel _ _) as [r1|] eqn:E1; [|done].
  rewrite (while_queue_fuel_mono _ _ _ _ _ _ _ E1 Hle).
  destruct r1 as [e|st1]; [done|].
  destruct (while_queue _ (add_features_calculator_body _ _) fuel _ _) as [r2|] eqn:E2; [|done].
  rewrite (while_queue_fuel_mono _ _ _ _ _ _ _ E2 Hle).
  destruct r2 as [e|st2]; [done|].
  by apply while_queue_fuel_mono with fuel.
Qed.

(** A result that some amount of fuel gives is the result for every amount of
    fuel that gives one. *)
Lemma annotate_graph_deterministic u mod_ rules fuel fuel' st r r' :
  annotate_graph u mod_ rules fuel st = Some r →
  annotate_graph u mod_ rules fuel' st = Some r' →
  r = r'.
Proof.
  intros H H'.
  apply annotate_graph_fuel_mono with (fuel' := (fuel `max` fuel')%nat) in H; [|lia].
  apply annotate_graph_fuel_mono with (fuel' := (fuel `max` fuel')%nat) in H'; [|lia].
  congruence.
Qed.

Lemma while_queue_deterministic g body fuel fuel' queue st r r' :
  while_queue g body fuel queue st = Some r →
  while_queue g body fuel' queue st = Some r' →
  r = r'.
Proof.
  intros H H'.
  apply while_queue_fuel_mono with (fuel' := (fuel `max` fuel')%nat) in H; [|lia].
  apply while_queue_fuel_mono with (fuel' := (fuel `max` fuel')%nat) in H'; [|lia].
  congruence.
Qed.

(** The result of the loop does not depend on what the body does at a node
    that is neither in the queue nor a successor of any node. *)
Lemma while_queue_ext g body body' n fuel queue st :
  (∀ m st, m ≠ n → body m st = body' m st) →
  (∀ p succs, successors g p = ret succs → n ∉ succs) →
  n ∉ queue →
  while_queue g body fuel queue st = while_queue g body' fuel queue st.
Proof.
  intros Hbody Hsucc. revert queue st.
  induction fuel as [|fuel IH]; intros [|m queue] st Hn; simpl; try done.
  apply not_elem_of_cons in Hn as [Hm Hn]. rewrite <-Hbody by done.
  destruct (body m st) as [e|[st'|]]; [done| |by apply IH].
  destruct (successors g m) as [e|succs] eqn:E; [done|].
  apply IH. rewrite elem_of_app. intros [?|?]; [done|]. by eapply Hsucc.
Qed.

Lemma meta_set_meta st n m : meta (set_meta st n m) (name n) = m.
Proof. unfold meta, set_meta. by rewrite lookup_insert_eq. Qed.

Lemma meta_set_meta_ne st n m i : i ≠ name n → meta (set_meta st n m) i = meta st i.
Proof. intros. unfold meta, set_meta. by rewrite lookup_insert_ne. Qed.

(** ** Checking the assumptions on a given graph *)

Lemma closed_Forall g :
  Forall (λ n, Forall (λ i, Exists (λ p, name p = i) g) (all_input_nodes n)) g → closed g.
Proof.
  intros H n i Hn Hi. rewrite Forall_forall in H. specialize (H n Hn).
  rewrite Forall_forall in H. specialize (H i Hi).
  apply Exists_exists in H as (p & Hp & Hname). by exists p.
Qed.

Lemma rooted_Forall g :
  Forall (λ n, op n = placeholder ↔ all_input_nodes n = []) g → rooted g.
Proof. intros H n Hn. rewrite Forall_forall in H. by apply H. Qed.

Lemma inputs_used_Forall g :
  Forall (λ n, op n = placeholder → Exists (λ s, name n ∈ all_input_nodes s) g) g →
  inputs_used g.
Proof.
  intros H n Hn Hop. rewrite Forall_forall in H.
  pose proof (H n Hn Hop) as Hex.
  apply Exists_exists in Hex as (s & Hs & Hedge). by exists s.
Qed.

Lemma acyclic_Forall g (rank : nat → nat) :
  Forall (λ n, Forall (λ i, rank i < rank (name n))%nat (all_input_nodes n)) g → acyclic g.
Proof.
  intros H. exists rank. intros n i Hn Hi. rewrite Forall_forall in H.
  specialize (H n Hn). rewrite Forall_forall in H. by apply H.
Qed.

(** ** The concatenation example (C1) *)

Lemma concat_example_run u h w :
  ∃ st, annotate_graph u concat_example [] 9 (concat_example_shapes h w) = Some (ret st)
    ∧ features <$> features_calculator (meta st 3) = Some 40
    ∧ input_features_set_by (meta st 4) = Some (ByNode 3)
    ∧ input_features_set_by (meta st 3) = Some (ByList [1; 2]%nat).
Proof.
  eexists. split; [vm_compute; reflexivity|].
  vm_compute. done.
Qed.

(** C1, as amended: on the graph [conv3(cat([conv1(x), conv2(x)], 1))] with 16
    and 24 output channels, the three passes succeed with any fuel from 9 on;
    the calculator of the concatenation, the predecessor of [conv3], has the
    value 40; the back-reference of [conv3] is the concatenation node, and it
    is the back-reference of the concatenation node that lists [conv1] and
    [conv2] in input order. *)
Theorem concat_example_annotated (is_untouchable_op : Node → bool) (h w : Z) (fuel : nat) :
  (9 ≤ fuel)%nat →
  ∃ st, annotate_graph is_untouchable_op concat_example [] fuel (concat_example_shapes h w)
        = Some (ret st)
    ∧ features <$> features_calculator (meta st 3) = Some 40
    ∧ input_features_set_by (meta st 4) = Some (ByNode 3)
    ∧ input_features_set_by (meta st 3) = Some (ByList [1; 2]%nat).
Proof.
  intros Hfuel. destruct (concat_example_run is_untouchable_op h w) as (st & Hrun & H).
  exists st. split; [|done]. by apply annotate_graph_fuel_mono with 9%nat.
Qed.

Lemma concat_example_annotated_witness :
  ∃ st, annotate_graph (λ _, false) concat_example [] 12 (concat_example_shapes 8 8)
        = Some (ret st)
    ∧ features <$> features_calculator (meta st 3) = Some 40
    ∧ input_features_set_by (meta st 4) = Some (ByNode 3)
    ∧ input_features_set_by (meta st 3) = Some (ByList [1; 2]%nat).
Proof. apply (concat_example_annotated (λ _, false) 8 8 12). lia. Defined.

(** C1, as stated, fails: no run of the three passes on the example leaves the
    list of the two upstream convolutions as the back-reference of [conv3]. *)
Lemma concat_example_back_reference_not_list :
  ¬ ∃ fuel st,
      annotate_graph (λ _, false) concat_example [] fuel (concat_example_shapes 8 8)
      = Some (ret st)
      ∧ features <$> features_calculator (meta st 3) = Some 40
      ∧ input_features_set_by (meta st 4) = Some (ByList [1; 2]%nat).
Proof.
  intros (fuel & st & Hrun & _ & Hby).
  destruct (concat_example_run (λ _, false) 8 8) as (st' & Hrun' & _ & Hby' & _).
  pose proof (annotate_graph_deterministic _ _ _ _ _ _ _ _ Hrun Hrun') as [= ->].
  congruence.
Qed.

(** ** Nodes that no predicate classifies (C3, C10) *)








(** ** Nodes without predecessors (C4) *)

Lemma no_predecessor_example_run :
  ∃ st, annotate_graph (λ _, false) no_predecessor_example [] 4 no_predecessor_example_shapes
        = Some (ret st).
Proof. eexists. vm_compute. reflexivity. Qed.

(** C4, as stated, fails: the three passes, and with them [get_input_nodes]
    and [fx_to_nx_graph], raise nothing on a graph with a node that is not an
    input and has no predecessor. *)
Lemma graph_with_no_predecessor_node_accepted :
  no_predecessor_node ∈ graph no_predecessor_example
  ∧ op no_predecessor_node ≠ placeholder
  ∧ all_input_nodes no_predecessor_node = []
  ∧ ∀ fuel e,
      annotate_graph (λ _, false) no_predecessor_example [] fuel no_predecessor_example_shapes
      ≠ Some (raise e).
Proof.
  split; [apply list_elem_of_further, list_elem_of_here|]. split; [done|]. split; [done|].
  intros fuel e H. destruct no_predecessor_example_run as [st Hst].
  by pose proof (annotate_graph_deterministic _ _ _ _ _ _ _ _ H Hst).
Qed.

(** C4, as amended: the graph adapter has no error of its own.
    [get_input_nodes] returns the placeholder nodes of the graph; a node that
    is not a placeholder and has no predecessor is not among them and is a
    successor of no node, so that it never enters the work-queue: the result
    of the loop does not depend on what the body would do with it. *)
Theorem node_without_predecessors_never_visited (g : Graph) (n : Node) :
  n ∈ g → op n ≠ placeholder → all_input_nodes n = [] →
  (∀ i, i ∈ get_input_nodes g ↔ i ∈ g ∧ op i = placeholder)
  ∧ (n ∉ get_input_nodes g)
  ∧ (∀ p succs, successors g p = ret succs → n ∉ succs)
  ∧ ∀ body body' fuel st,
      (∀ m st, m ≠ n → body m st = body' m st) →
      while_queue g body fuel (get_input_nodes g) st
      = while_queue g body' fuel (get_input_nodes g) st.
Proof.
  intros Hin Hop Hnil.
  assert (∀ i, i ∈ get_input_nodes g ↔ i ∈ g ∧ op i = placeholder) as Hinputs.
  { intros i. unfold get_input_nodes. rewrite list_elem_of_filter. tauto. }
  assert (n ∉ get_input_nodes g) as Hnot by (rewrite Hinputs; tauto).
  assert (∀ p succs, successors g p = ret succs → n ∉ succs) as Hsucc.
  { intros p succs. unfold successors. destruct (nx_has_node g (name p)); [|done].
    intros [= <-]. unfold succs. rewrite list_elem_of_filter, Hnil.
    intros [Hp _]. by apply elem_of_nil in Hp. }
  split; [done|]. split; [done|]. split; [done|].
  intros body body' fuel st Hbody. by apply while_queue_ext with n.
Qed.

Lemma node_without_predecessors_never_visited_witness :
  (∀ i, i ∈ get_input_nodes (graph no_predecessor_example)
        ↔ i ∈ graph no_predecessor_example ∧ op i = placeholder)
  ∧ (no_predecessor_node ∉ get_input_nodes (graph no_predecessor_example))
  ∧ (∀ p succs, successors (graph no_predecessor_example) p = ret succs →
                no_predecessor_node ∉ succs)
  ∧ ∀ body body' fuel st,
      (∀ m st, m ≠ no_predecessor_node → body m st = body' m st) →
      while_queue (graph no_predecessor_example) body fuel
                  (get_input_nodes (graph no_predecessor_example)) st
      = while_queue (graph no_predecessor_example) body' fuel
                    (get_input_nodes (graph no_predecessor_example)) st.
Proof.
  apply (node_without_predecessors_never_visited (graph no_predecessor_example)
           no_predecessor_node).
  - simpl. apply list_elem_of_further, list_elem_of_here.
  - simpl. discriminate.
  - reflexivity.
Defined.

(** ** Flatten (C5, C6) *)

(** C5: for flatten nodes whose single predecessor has the shape
    [(1, 32, 5, 3)] and a calculator of value 32, the pass attaches the
    calculator of the predecessor itself when [start_dim] is 2, and a
    calculator of value [32 * 5 * 3 = 480] when [start_dim] is 1 and [end_dim]
    is left at its default. *)
Theorem flatten_calculators mod_ rules st p ifc (n2 n1 : Node) :
  (∀ n, n ∈ [n2; n1] →
        first_rule rules n mod_ = None
        ∧ flatten (meta st (name n)) = Some true
        ∧ all_input_nodes n = [p]) →
  tensor_meta (meta st p) = Some [1; 32; 5; 3] →
  features_calculator (meta st p) = Some ifc →
  features ifc = 32 →
  try_get_args n2 1 "start_dim" (AInt 0) = AInt 2 →
  try_get_args n1 1 "start_dim" (AInt 0) = AInt 1 →
  try_get_args n1 2 "end_dim" (AInt (-1)) = AInt (-1) →
  (∃ st', add_features_calculator_body mod_ rules n2 st = ret (Some st')
          ∧ features_calculator (meta st' (name n2)) = Some ifc)
  ∧ (∃ st' fc, add_features_calculator_body mod_ rules n1 st = ret (Some st')
               ∧ features_calculator (meta st' (name n1)) = Some fc
               ∧ features fc = 480).
Proof.
  intros Hn Hshape Hifc Hval Hs2 Hs1 He1. split.
  - destruct (Hn n2) as (Hrule & Hfl & Hin); [apply list_elem_of_here|].
    eexists. unfold add_features_calculator_body, skip_flag, new_features_calculator.
    rewrite Hin, Hrule, Hfl. simpl. rewrite Hifc, Hshape, Hs2. simpl.
    split; [reflexivity|]. by rewrite meta_set_meta.
  - destruct (Hn n1) as (Hrule & Hfl & Hin); [apply list_elem_of_further, list_elem_of_here|].
    eexists _, _. unfold add_features_calculator_body, skip_flag, new_features_calculator.
    rewrite Hin, Hrule, Hfl. simpl. rewrite Hifc, Hshape, Hs1, He1. simpl.
    split; [reflexivity|]. rewrite meta_set_meta. split; [reflexivity|]. simpl. lia.
Qed.

Lemma flatten_calculators_witness :
  let mod_ := flatten_example 2 in
  let st : Store :=
    <[1%nat := with_node_properties (λ _, false) mod_ (flatten_node 2) (shape_meta [1; 32; 15])]>
      (<[0%nat := with_features_calculator (shape_meta [1; 32; 5; 3])
                                          (ConstFeaturesCalculator 32)]> ∅) in
  (∃ st', add_features_calculator_body mod_ [] (flatten_node 2) st = ret (Some st')
          ∧ features_calculator (meta st' (name (flatten_node 2)))
            = Some (ConstFeaturesCalculator 32))
  ∧ (∃ st' fc, add_features_calculator_body mod_ [] (flatten_node 1) st = ret (Some st')
               ∧ features_calculator (meta st' (name (flatten_node 1))) = Some fc
               ∧ features fc = 480).
Proof.
  intros mod_ st.
  apply (flatten_calculators mod_ [] st 0%nat (ConstFeaturesCalculator 32)
           (flatten_node 2) (flatten_node 1)); try reflexivity.
  intros n Hn. apply elem_of_cons in Hn as [->|Hn]; [done|].
  apply elem_of_cons in Hn as [->|Hn]; [done|]. by apply elem_of_nil in Hn.
Defined.

(** [assert_not_batch] on an integer: what the two comparisons of the
    assertion reject. *)
Lemma assert_not_batch_int msg input_shape d :
  assert_not_batch msg input_shape (AInt d)
  = if bool_decide (d = 0 ∨ d = Z.of_nat (length input_shape))
    then raise (AssertionError msg) else ret ().
Proof.
  unfold assert_not_batch. simpl.
  destruct (decide (d = 0)) as [->|Hd].
  - by rewrite bool_decide_eq_false_2, bool_decide_eq_true_2 by tauto.
  - rewrite (bool_decide_eq_true_2 (AInt d ≠ AInt 0)) by congruence.
    destruct (decide (d = Z.of_nat (length input_shape))) as [->|Hlen].
    + by rewrite bool_decide_eq_false_2, bool_decide_eq_true_2 by (tauto || lia).
    + by rewrite bool_decide_eq_true_2, bool_decide_eq_false_2 by (tauto || lia).
Qed.

(** C6, the code at the failing input: [x.flatten(-4)] on an input of shape
    [(1, 32, 5, 3)] merges all four dimensions, the batch dimension among
    them, and the three passes accept it and hand the calculator of the input
    through. *)
Theorem flatten_negative_start_dim_accepted :
  ∃ st, annotate_graph (λ _, false) (flatten_example (-4)) [] 3 flatten_example_shapes
        = Some (ret st)
    ∧ features_calculator (meta st 1) = Some (ConstFeaturesCalculator 32).
Proof. eexists. split; [vm_compute; reflexivity|]. vm_compute. done. Qed.

(** ** Termination of the work-queue loop *)

Lemma successors_succs g n ss : successors g n = ret ss → ss = succs g n.
Proof. unfold successors. destruct (nx_has_node g (name n)); by intros [= <-]. Qed.

Lemma elem_of_succs g p n : n ∈ succs g p ↔ n ∈ g ∧ name p ∈ all_input_nodes n.
Proof. unfold succs. rewrite list_elem_of_filter. tauto. Qed.

(** A loop that takes its nodes from a sublist of the queue of a terminating
    walk, and at every node either adds the successors or does not, ends
    within the fuel of the walk. *)
Lemma walk_terminates g body fuel queue queue' st :
  walk g fuel queue = true →
  queue' `sublist_of` queue →
  is_Some (while_queue g body fuel queue' st).
Proof.
  revert queue queue' st.
  induction fuel as [|fuel IH]; intros queue queue' st Hwalk Hsub.
  - destruct queue; [|done]. apply sublist_nil_r in Hsub as ->. by eexists.
  - destruct queue' as [|n queue']; [by eexists|].
    destruct queue as [|a queue]; [by apply sublist_nil_r in Hsub|].
    simpl in Hwalk. apply sublist_cons_r in Hsub as [Hsub|(l' & [= <- <-] & Hsub)].
    + destruct (IH _ _ st Hwalk (sublist_inserts_r _ _ _ Hsub)) as [r Hr].
      exists r. apply while_queue_fuel_mono with fuel; [done|lia].
    + simpl. destruct (body n st) as [e|[st'|]]; [by eexists| |].
      * destruct (successors g n) as [e|ss] eqn:Hss; [by eexists|].
        apply successors_succs in Hss as ->.
        apply (IH _ _ _ Hwalk). by apply sublist_app.
      * apply (IH _ _ _ Hwalk). by apply sublist_inserts_r.
Qed.

Lemma sum_list_app_nat (l k : list nat) : sum_list (l ++ k) = (sum_list l + sum_list k)%nat.
Proof. induction l; simpl; lia. Qed.

Lemma sum_list_le_bound (l : list nat) b :
  Forall (λ x, x ≤ b)%nat l → (sum_list l ≤ length l * b)%nat.
Proof. induction 1; simpl; lia. Qed.

Section Weights.
Context (g : Graph) (rank : nat → nat).
Hypothesis rank_edges :
  ∀ n i, n ∈ g → i ∈ all_input_nodes n → (rank i < rank (name n))%nat.

Lemma rank_lt_top n : n ∈ g → (rank (name n) < top_rank g rank)%nat.
Proof.
  intros Hn. unfold top_rank. apply Nat.lt_succ_r, max_list_elem_of_le.
  apply list_elem_of_fmap. by exists n.
Qed.

Lemma weight_pos n : (0 < weight g rank n)%nat.
Proof. unfold weight. apply Nat.neq_0_lt_0, Nat.pow_nonzero. lia. Qed.

Lemma weight_succs n :
  (sum_list (weight g rank <$> succs g n) < weight g rank n)%nat.
Proof.
  destruct (succs g n) as [|s ss] eqn:Hss; [apply weight_pos|]. rewrite <-Hss.
  assert (s ∈ succs g n) as Hs by (rewrite Hss; left).
  apply elem_of_succs in Hs as [Hs Hedge].
  pose proof (rank_edges _ _ Hs Hedge). pose proof (rank_lt_top _ Hs).
  set (b := (S (length g) ^ (top_rank g rank - rank (name n) - 1))%nat).
  assert (sum_list (weight g rank <$> succs g n) ≤ length (succs g n) * b)%nat as Hsum.
  { etrans; [apply sum_list_le_bound with (b := b)|by rewrite length_fmap].
    apply Forall_fmap, Forall_forall. intros s' [Hs' Hedge']%elem_of_succs.
    simpl. unfold weight, b. apply Nat.pow_le_mono_r; [lia|].
    pose proof (rank_edges _ _ Hs' Hedge'). lia. }
  assert (length (succs g n) ≤ length g)%nat by apply length_filter.
  assert (weight g rank n = S (length g) * b)%nat as ->.
  { unfold weight, b. rewrite <-Nat.pow_succ_r'. f_equal. lia. }
  assert (0 < b)%nat by (apply Nat.neq_0_lt_0, Nat.pow_nonzero; lia).
  nia.
Qed.

Lemma walk_enough_fuel fuel queue :
  (sum_list (weight g rank <$> queue) ≤ fuel)%nat → walk g fuel queue = true.
Proof.
  revert queue. induction fuel as [|fuel IH]; intros [|n queue] Hfuel; try done.
  - rewrite fmap_cons in Hfuel. simpl in Hfuel. pose proof (weight_pos n). lia.
  - simpl. apply IH. rewrite fmap_app, sum_list_app_nat.
    rewrite fmap_cons in Hfuel. simpl in Hfuel.
    pose proof (weight_succs n). lia.
Qed.

End Weights.

Lemma acyclic_walk g queue : acyclic g → ∃ fuel, walk g fuel queue = true.
Proof.
  intros [rank Hrank]. eexists. by eapply walk_enough_fuel.
Qed.
(** ** An invariant rule for the work-queue loop *)

Lemma while_queue_invariant g body (Inv : list Node → Store → Prop) (Bad : Exn → Prop) :
  (∀ n queue st,
     Inv (n :: queue) st →
     match body n st with
     | inl e => Bad e
     | inr None => Inv queue st
     | inr (Some st') =>
         match successors g n with
         | inl e => Bad e
         | inr ss => Inv (queue ++ ss) st'
         end
     end) →
  ∀ fuel queue st r,
    Inv queue st →
    while_queue g body fuel queue st = Some r →
    match r with inl e => Bad e | inr st' => Inv [] st' end.
Proof.
  intros Hstep fuel. induction fuel as [|fuel IH]; intros [|n queue] st r HInv; simpl;
    try done; try (by intros [= <-]).
  specialize (Hstep _ _ _ HInv).
  destruct (body n st) as [e|[st'|]]; [by intros [= <-]| |by apply IH].
  destruct (successors g n) as [e|ss]; [by intros [= <-]|by apply IH].
Qed.

Lemma distinct_nodes_eq g p m :
  distinct_nodes g → p ∈ g → m ∈ g → name p = name m → p = m.
Proof.
  unfold distinct_nodes. induction g as [|a g IH]; [by intros _ ?%elem_of_nil|].
  rewrite fmap_cons, NoDup_cons.
  intros [Ha Hg] [->|Hp]%elem_of_cons [->|Hm]%elem_of_cons Heq; try done.
  - destruct Ha. rewrite Heq. by apply list_elem_of_fmap_2.
  - destruct Ha. rewrite <-Heq. by apply list_elem_of_fmap_2.
  - by apply IH.
Qed.

Section Visited.
Context (g : Graph) (body : Body).
Hypothesis distinct : distinct_nodes g.
Hypothesis frame :
  ∀ m p st st',
    body m st = ret (Some st') → name p ≠ name m → name m ∉ all_input_nodes p →
    (body p st = ret None → body p st' = ret None)
    ∧ (body p st = ret (Some st) → body p st' = ret (Some st')).
Hypothesis idem :
  ∀ m st st',
    body m st = ret (Some st') → name m ∉ all_input_nodes m → body m st' = ret (Some st').

Lemma visited_init st : visited g body (get_input_nodes g) st.
Proof.
  exists (λ _, False). split; [done|]. split; [by left|].
  intros n. unfold get_input_nodes. rewrite list_elem_of_filter. tauto.
Qed.

Lemma visited_step n queue st :
  visited g body (n :: queue) st →
  match body n st with
  | inl e => True
  | inr None => visited g body queue st
  | inr (Some st') =>
      match successors g n with
      | inl e => True
      | inr ss => visited g body (queue ++ ss) st'
      end
  end.
Proof.
  intros (P & HP & Hin & Hq).
  assert (n ∈ g) as Hn by (apply Hq; left).
  destruct (body n st) as [e|[st'|]] eqn:Hbody; [done| |].
  - destruct (successors g n) as [e|ss] eqn:Hss; [done|].
    pose proof (successors_succs _ _ _ Hss) as Hsuccs.
    exists (λ p, P p ∨ p = n). split; [|split].
    + intros p Hp. assert (p ∈ g) as Hpg by (destruct Hp as [Hp| ->]; [by apply HP|done]).
      split; [done|].
      destruct (decide (name n ∈ all_input_nodes p)) as [Hedge|Hedge].
      { left. apply elem_of_app. right. rewrite Hsuccs. by apply elem_of_succs. }
      destruct (decide (name p = name n)) as [Heq|Hne].
      { apply (distinct_nodes_eq g) in Heq as ->; [|done..].
        right. right. split; [by eapply idem|].
        exists ss. split; [done|]. intros s Hs. left. apply elem_of_app. by right. }
      destruct Hp as [Hp| ->]; [|done].
      destruct (HP _ Hp) as [_ [Hpq|[Hnone|(Hsome & ss' & Hss' & Hsub)]]].
      * apply elem_of_cons in Hpq as [->|Hpq]; [done|]. left. apply elem_of_app. by left.
      * right. left. by eapply frame.
      * right. right. split; [by eapply frame|]. exists ss'. split; [done|].
        intros s Hs. destruct (Hsub _ Hs) as [[->|Hsq]%elem_of_cons|HPs].
        -- right. by right.
        -- left. apply elem_of_app. by left.
        -- right. by left.
    + intros i Hi. destruct (Hin _ Hi) as [[->|Hiq]%elem_of_cons|HPi].
      * right. by right.
      * left. apply elem_of_app. by left.
      * right. by left.
    + intros i [Hi|Hi]%elem_of_app; [apply Hq; by right|].
      rewrite Hsuccs in Hi. by apply elem_of_succs in Hi as [? _].
  - exists (λ p, P p ∨ p = n). split; [|split].
    + intros p [Hp| ->].
      * destruct (HP _ Hp) as [Hpg [Hpq|[Hnone|(Hsome & ss' & Hss' & Hsub)]]]; split; try done.
        -- apply elem_of_cons in Hpq as [->|Hpq]; [right; by left|by left].
        -- right. by left.
        -- right. right. split; [done|]. exists ss'. split; [done|].
           intros s Hs. destruct (Hsub _ Hs) as [[->|Hsq]%elem_of_cons|HPs].
           ++ right. by right.
           ++ by left.
           ++ right. by left.
      * split; [done|]. right. by left.
    + intros i Hi. destruct (Hin _ Hi) as [[->|Hiq]%elem_of_cons|HPi].
      * right. by right.
      * by left.
      * right. by left.
    + intros i Hi. apply Hq. by right.
Qed.

Lemma visited_final fuel st st' :
  while_queue g body fuel (get_input_nodes g) st = Some (ret st') →
  visited g body [] st'.
Proof.
  intros Hrun.
  apply (while_queue_invariant g body (visited g body) (λ _, True) visited_step
           _ _ _ _ (visited_init st) Hrun).
Qed.

End Visited.

(** ** The [meta] dictionaries *)

Lemma meta_lookup (st : Store) i m : st !! i = Some m → meta st i = m.
Proof. unfold meta. by intros ->. Qed.

Lemma set_meta_id (st : Store) n m : st !! name n = Some m → set_meta st n m = st.
Proof. apply insert_id. Qed.

Lemma set_meta_id_inv (st : Store) n m : set_meta st n m = st → st !! name n = Some m.
Proof. intros <-. apply lookup_insert_eq. Qed.

Lemma set_meta_commute (st : Store) n m x y :
  name n ≠ name m → set_meta (set_meta st m x) n y = set_meta (set_meta st n y) m x.
Proof. intros. by apply insert_insert_ne. Qed.

Lemma set_meta_set_meta (st : Store) n x y :
  set_meta (set_meta st n x) n y = set_meta st n y.
Proof. apply insert_insert_eq. Qed.

Lemma lookup_set_meta (st : Store) n m i :
  set_meta st n m !! i = if decide (name n = i) then Some m else st !! i.
Proof. apply lookup_insert. Qed.

Lemma static_fields m m' :
  static m = static m' →
  features_propagating m = features_propagating m'
  ∧ features_defining m = features_defining m'
  ∧ shared_input_features m = shared_input_features m'
  ∧ flatten m = flatten m'
  ∧ squeeze m = squeeze m'
  ∧ features_concatenate m = features_concatenate m'
  ∧ tensor_meta m = tensor_meta m'.
Proof. by intros [= -> -> -> -> -> -> _ _ ->]. Qed.

Lemma same_static_set_calculator st n fc :
  same_static st (set_meta st n (with_features_calculator (meta st (name n)) fc)).
Proof.
  intros i. destruct (decide (i = name n)) as [->|Hne].
  - by rewrite meta_set_meta.
  - by rewrite meta_set_meta_ne.
Qed.

Lemma same_static_set_by st n set_by :
  same_static st (set_meta st n (with_input_features_set_by (meta st (name n)) set_by)).
Proof.
  intros i. destruct (decide (i = name n)) as [->|Hne].
  - by rewrite meta_set_meta.
  - by rewrite meta_set_meta_ne.
Qed.

Lemma bind_ret_l {A B} (a : A) (k : A → Result B) : bind (ret a) k = k a.
Proof. done. Qed.

(** ** What the bodies read *)

Lemma skip_flag_ext n st st' :
  (∀ i, i ∈ all_input_nodes n →
        features_calculator (meta st i) = features_calculator (meta st' i)) →
  skip_flag n st = skip_flag n st'.
Proof.
  unfold skip_flag. induction (all_input_nodes n) as [|i l IH]; intros H; [done|].
  simpl. rewrite (H i) by left. f_equal. apply IH. intros j Hj. apply H. by right.
Qed.

Lemma new_features_calculator_ext mod_ rules n st st' :
  same_static st st' →
  (∀ i, i ∈ all_input_nodes n →
        features_calculator (meta st i) = features_calculator (meta st' i)) →
  new_features_calculator mod_ rules n st = new_features_calculator mod_ rules n st'.
Proof.
  intros Hstatic Hcalc.
  destruct (static_fields _ _ (Hstatic (name n))) as (Hp & Hd & Hs & Hf & Hq & Hc & Ht).
  unfold new_features_calculator. cbv zeta. rewrite Hp, Hd, Hs, Hf, Hq, Hc, Ht.
  assert (foldr (λ prev acc,
                   let! fc := getitem "features_calculator"
                                      (features_calculator (meta st prev)) in
                   let! fcs := acc in ret (fc :: fcs))
                (ret []) (all_input_nodes n)
          = foldr (λ prev acc,
                     let! fc := getitem "features_calculator"
                                        (features_calculator (meta st' prev)) in
                     let! fcs := acc in ret (fc :: fcs))
                  (ret []) (all_input_nodes n)) as ->.
  { revert Hcalc. induction (all_input_nodes n) as [|i l IH]; intros H; [done|].
    simpl. rewrite (H i) by left. rewrite IH; [done|]. intros j Hj. apply H. by right. }
  destruct (all_input_nodes n) as [|i0 rest]; [done|].
  change (index (i0 :: rest) 0) with (ret i0 : Result nat).
  destruct (static_fields _ _ (Hstatic i0)) as (_ & _ & _ & _ & _ & _ & Ht0).
  rewrite !bind_ret_l. cbv beta.
  by rewrite (Hcalc i0), Ht0 by left.
Qed.

Lemma new_input_features_set_by_ext mod_ n st st' :
  same_static st st' →
  (∀ i, i ∈ all_input_nodes n →
        input_features_set_by (meta st i) = input_features_set_by (meta st' i)) →
  new_input_features_set_by mod_ n st = new_input_features_set_by mod_ n st'.
Proof.
  intros Hstatic Hby.
  destruct (static_fields _ _ (Hstatic (name n))) as (_ & _ & _ & _ & _ & Hc & _).
  unfold new_input_features_set_by. cbv zeta. rewrite Hc.
  assert (existsb (λ inode, bool_decide (input_features_set_by (meta st inode) = None))
                  (all_input_nodes n)
          = existsb (λ inode, bool_decide (input_features_set_by (meta st' inode) = None))
                    (all_input_nodes n)) as ->.
  { revert Hby. induction (all_input_nodes n) as [|i l IH]; intros H; [done|].
    simpl. rewrite (H i) by left. f_equal. apply IH. intros j Hj. apply H. by right. }
  destruct (all_input_nodes n) as [|prev rest]; [done|].
  change (index (prev :: rest) 0) with (ret prev : Result nat).
  rewrite !bind_ret_l. cbv beta.
  destruct (static_fields _ _ (Hstatic prev)) as (Hpp & Hpd & _ & Hpf & Hpq & Hpc & _).
  rewrite (Hby prev), Hpp, Hpd, Hpf, Hpq, Hpc by left.
  destruct (input_features_set_by (meta st' prev)) as [prev_set_by|]; [|done].
  destruct (get_node (graph mod_) prev) as [e|prev_node]; [done|].
  rewrite !bind_ret_l.
  destruct (index (all_input_nodes prev_node) 0) as [e|p0]; [done|].
  rewrite !bind_ret_l.
  destruct (static_fields _ _ (Hstatic p0)) as (_ & _ & _ & _ & _ & _ & Ht0).
  by rewrite Ht0.
Qed.

(** ** The bodies, step by step *)

Lemma add_node_properties_body_settled u mod_ p st :
  add_node_properties_body u mod_ p st = ret (Some st)
  ↔ st !! name p = Some (with_node_properties u mod_ p (meta st (name p))).
Proof.
  unfold add_node_properties_body. split.
  - intros [= H]. by apply set_meta_id_inv.
  - intros H. by rewrite set_meta_id.
Qed.

Lemma add_features_calculator_body_None mod_ rules p st :
  add_features_calculator_body mod_ rules p st = ret None ↔ skip_flag p st = true.
Proof.
  unfold add_features_calculator_body. destruct (skip_flag p st); [done|].
  by destruct (new_features_calculator mod_ rules p st).
Qed.

Lemma add_features_calculator_body_Some mod_ rules p st st' :
  add_features_calculator_body mod_ rules p st = ret (Some st')
  ↔ skip_flag p st = false
    ∧ ∃ fc, new_features_calculator mod_ rules p st = ret fc
            ∧ st' = set_meta st p (with_features_calculator (meta st (name p)) fc).
Proof.
  unfold add_features_calculator_body.
  destruct (skip_flag p st); [split; [done|by intros [? _]]|].
  destruct (new_features_calculator mod_ rules p st) as [e|fc]; simpl;
    [split; [done|by intros (_ & fc & ? & _)]|].
  split.
  - intros [= <-]. eauto.
  - by intros (_ & fc' & [= <-] & ->).
Qed.

Lemma associate_input_features_body_Some mod_ p st st' :
  associate_input_features_body mod_ p st = ret (Some st')
  ↔ ∃ o, new_input_features_set_by mod_ p st = ret o
         ∧ st' = match o with
                 | Some set_by =>
                     set_meta st p (with_input_features_set_by (meta st (name p)) set_by)
                 | None => st
                 end.
Proof.
  unfold associate_input_features_body.
  destruct (new_input_features_set_by mod_ p st) as [e|[set_by|]]; simpl.
  - split; [done|by intros (o & ? & _)].
  - split; [intros [= <-]; eauto|]. by intros (o & [= <-] & ->).
  - split; [intros [= <-]; eauto|]. by intros (o & [= <-] & ->).
Qed.

Lemma associate_input_features_body_not_None mod_ p st :
  associate_input_features_body mod_ p st ≠ ret None.
Proof.
  unfold associate_input_features_body.
  by destruct (new_input_features_set_by mod_ p st) as [e|[set_by|]].
Qed.

(** ** Frame and idempotence of the bodies *)

Lemma add_node_properties_body_frame u mod_ m p st st' :
  add_node_properties_body u mod_ m st = ret (Some st') →
  name p ≠ name m → name m ∉ all_input_nodes p →
  (add_node_properties_body u mod_ p st = ret None
   → add_node_properties_body u mod_ p st' = ret None)
  ∧ (add_node_properties_body u mod_ p st = ret (Some st)
     → add_node_properties_body u mod_ p st' = ret (Some st')).
Proof.
  intros [= <-] Hne _. split; [done|].
  rewrite !add_node_properties_body_settled. intros H.
  rewrite lookup_set_meta, decide_False by done. by rewrite meta_set_meta_ne.
Qed.

Lemma add_node_properties_body_idem u mod_ m st st' :
  add_node_properties_body u mod_ m st = ret (Some st') →
  name m ∉ all_input_nodes m →
  add_node_properties_body u mod_ m st' = ret (Some st').
Proof.
  intros [= <-] _. apply add_node_properties_body_settled.
  rewrite lookup_set_meta, decide_True by done. by rewrite meta_set_meta.
Qed.

Lemma add_features_calculator_body_frame mod_ rules m p st st' :
  add_features_calculator_body mod_ rules m st = ret (Some st') →
  name p ≠ name m → name m ∉ all_input_nodes p →
  (add_features_calculator_body mod_ rules p st = ret None
   → add_features_calculator_body mod_ rules p st' = ret None)
  ∧ (add_features_calculator_body mod_ rules p st = ret (Some st)
     → add_features_calculator_body mod_ rules p st' = ret (Some st')).
Proof.
  intros (_ & fc & _ & ->)%add_features_calculator_body_Some Hne Hedge.
  set (st' := set_meta st m _).
  assert (∀ i, i ∈ all_input_nodes p →
               features_calculator (meta st i) = features_calculator (meta st' i)) as Hcalc.
  { intros i Hi. unfold st'. rewrite meta_set_meta_ne; [done|]. by intros ->. }
  assert (same_static st st') as Hstatic by apply same_static_set_calculator.
  split.
  - rewrite !add_features_calculator_body_None. by rewrite (skip_flag_ext _ _ _ Hcalc).
  - rewrite !add_features_calculator_body_Some.
    rewrite (skip_flag_ext _ _ _ Hcalc),
      (new_features_calculator_ext _ _ _ _ _ Hstatic Hcalc).
    intros (Hskip & fc' & Hnew & Hst). split; [done|]. exists fc'. split; [done|].
    unfold st' at 2 3. rewrite meta_set_meta_ne by done.
    by rewrite set_meta_commute, <-Hst.
Qed.

Lemma add_features_calculator_body_idem mod_ rules m st st' :
  add_features_calculator_body mod_ rules m st = ret (Some st') →
  name m ∉ all_input_nodes m →
  add_features_calculator_body mod_ rules m st' = ret (Some st').
Proof.
  intros (Hskip & fc & Hnew & ->)%add_features_calculator_body_Some Hedge.
  set (st' := set_meta st m _).
  assert (∀ i, i ∈ all_input_nodes m →
               features_calculator (meta st i) = features_calculator (meta st' i)) as Hcalc.
  { intros i Hi. unfold st'. rewrite meta_set_meta_ne; [done|]. by intros ->. }
  assert (same_static st st') as Hstatic by apply same_static_set_calculator.
  apply add_features_calculator_body_Some.
  rewrite <-(skip_flag_ext _ _ _ Hcalc),
    <-(new_features_calculator_ext _ _ _ _ _ Hstatic Hcalc).
  split; [done|]. exists fc. split; [done|].
  unfold st'. by rewrite meta_set_meta, set_meta_set_meta.
Qed.

Lemma associate_input_features_body_frame mod_ m p st st' :
  associate_input_features_body mod_ m st = ret (Some st') →
  name p ≠ name m → name m ∉ all_input_nodes p →
  (associate_input_features_body mod_ p st = ret None
   → associate_input_features_body mod_ p st' = ret None)
  ∧ (associate_input_features_body mod_ p st = ret (Some st)
     → associate_input_features_body mod_ p st' = ret (Some st')).
Proof.
  intros (o & _ & ->)%associate_input_features_body_Some Hne Hedge.
  split; [by intros ?%associate_input_features_body_not_None|].
  destruct o as [set_by|]; [|done].
  set (st' := set_meta st m _).
  assert (∀ i, i ∈ all_input_nodes p →
               input_features_set_by (meta st i) = input_features_set_by (meta st' i)) as Hby.
  { intros i Hi. unfold st'. rewrite meta_set_meta_ne; [done|]. by intros ->. }
  assert (same_static st st') as Hstatic by apply same_static_set_by.
  rewrite !associate_input_features_body_Some.
  rewrite (new_input_features_set_by_ext _ _ _ _ Hstatic Hby).
  intros (o & Hnew & Hst). exists o. split; [done|].
  destruct o as [set_by'|]; [|done].
  unfold st' at 2 3. rewrite meta_set_meta_ne by done.
  by rewrite set_meta_commute, <-Hst.
Qed.

Lemma associate_input_features_body_idem mod_ m st st' :
  associate_input_features_body mod_ m st = ret (Some st') →
  name m ∉ all_input_nodes m →
  associate_input_features_body mod_ m st' = ret (Some st').
Proof.
  intros (o & Hnew & ->)%associate_input_features_body_Some Hedge.
  destruct o as [set_by|].
  - set (st' := set_meta st m _).
    assert (∀ i, i ∈ all_input_nodes m →
                 input_features_set_by (meta st i) = input_features_set_by (meta st' i)) as Hby.
    { intros i Hi. unfold st'. rewrite meta_set_meta_ne; [done|]. by intros ->. }
    assert (same_static st st') as Hstatic by apply same_static_set_by.
    apply associate_input_features_body_Some. exists (Some set_by).
    rewrite <-(new_input_features_set_by_ext _ _ _ _ Hstatic Hby). split; [done|].
    unfold st'. by rewrite meta_set_meta, set_meta_set_meta.
  - apply associate_input_features_body_Some. by exists None.
Qed.

(** ** One pass after another *)










(** ** The classification flags after [add_node_properties] (C9) *)

Lemma reachable_elem_of g n : reachable g n → n ∈ g.
Proof.
  destruct 1 as [n Hn|]; [|done].
  unfold get_input_nodes in Hn. by apply list_elem_of_filter in Hn as [_ ?].
Qed.

(** After a run of a body that never skips, every reachable node is
    settled. *)
Lemma visited_reachable g body st n :
  (∀ p st, body p st ≠ ret None) →
  visited g body [] st →
  reachable g n →
  body n st = ret (Some st).
Proof.
  intros Hbody (P & HP & Hin & _) Hreach.
  assert (P n) as Hn.
  { induction Hreach as [n Hn|p n _ IH Hng Hedge].
    - by destruct (Hin _ Hn) as [?%elem_of_nil|?].
    - destruct (HP _ IH) as [_ [?%elem_of_nil|[Hnone|(_ & ss & Hss & Hsub)]]]; [done|..].
      + by apply Hbody in Hnone.
      + apply successors_succs in Hss as ->.
        destruct (Hsub n) as [?%elem_of_nil|?]; [|done..]. by apply elem_of_succs. }
  destruct (HP _ Hn) as [_ [?%elem_of_nil|[Hnone|(Hsome & _)]]]; [done| |done].
  by apply Hbody in Hnone.
Qed.

Lemma count_true_classifiers n mod_ :
  (count_true (Some <$> classifiers n mod_) ≤ 1)%nat.
Proof.
  unfold classifiers, is_features_propagating_op, is_features_defining_op,
    is_shared_input_features_op, is_flatten, is_squeeze, is_features_concatenate,
    is_concatenate.
  generalize (bool_decide (try_get_args n 1 "dim" (AInt 0) = AInt 1)). intros dim1.
  generalize (bool_decide (length (all_input_nodes n) = 0%nat)). intros no_inputs.
  generalize (is_zero_or_one_input_op n). intros one_input.
  destruct (op n); simpl.
  - destruct no_inputs, one_input; vm_compute; lia.
  - destruct one_input; vm_compute; lia.
  - destruct one_input, (target n) as [[]|], dim1; vm_compute; lia.
  - destruct (target n) as [f|s]; [destruct one_input; vm_compute; lia|].
    destruct (bool_decide_reflect (TStr s = TStr "flatten")) as [[= ->]|];
      [destruct one_input; vm_compute; lia|].
    destruct (bool_decide (TStr s = TStr "squeeze")), one_input; vm_compute; lia.
  - destruct (submodule_type n mod_), one_input; vm_compute; lia.
  - destruct one_input; vm_compute; lia.
Qed.

Lemma add_node_properties_body_not_None u mod_ p st :
  add_node_properties_body u mod_ p st ≠ ret None.
Proof. done. Qed.

(** C9, as amended: after [add_node_properties] on a graph of distinct nodes,
    every node that the walk from the inputs reaches carries the values of
    the six predicates as its flags; at most one of the six flags is true
    (none of them for a node outside the allow-lists), and the
    features-defining flag of a node without predecessors is true. *)
Theorem classification_after_annotation is_untouchable_op mod_ fuel st st' n :
  distinct_nodes (graph mod_) →
  add_node_properties is_untouchable_op mod_ fuel st = Some (ret st') →
  reachable (graph mod_) n →
  classification_flags (meta st' (name n)) = Some <$> classifiers n mod_
  ∧ (count_true (classification_flags (meta st' (name n))) ≤ 1)%nat
  ∧ (all_input_nodes n = [] → features_defining (meta st' (name n)) = Some true).
Proof.
  intros Hdistinct Hrun Hreach.
  assert (visited (graph mod_) (add_node_properties_body is_untouchable_op mod_) [] st')
    as Hvisited.
  { eapply (visited_final _ _ Hdistinct); [| |exact Hrun].
    - apply add_node_properties_body_frame.
    - apply add_node_properties_body_idem. }
  pose proof (visited_reachable _ _ _ _ (add_node_properties_body_not_None _ _)
                Hvisited Hreach) as Hn.
  apply add_node_properties_body_settled, meta_lookup in Hn.
  assert (classification_flags (meta st' (name n)) = Some <$> classifiers n mod_) as Hflags
    by (by rewrite Hn).
  split; [done|]. split; [rewrite Hflags; apply count_true_classifiers|].
  intros Hnil. rewrite Hn. simpl. f_equal.
  destruct Hreach as [n Hin|p n _ _ Hedge].
  - unfold get_input_nodes in Hin. apply list_elem_of_filter in Hin as [Hop _].
    unfold is_features_defining_op. by rewrite Hop, Hnil.
  - rewrite Hnil in Hedge. by apply elem_of_nil in Hedge.
Qed.

Lemma classification_after_annotation_witness :
  ∃ st',
    add_node_properties (λ _, false) concat_example 9 (concat_example_shapes 8 8)
    = Some (ret st')
    ∧ classification_flags (meta st' 0) = Some <$> classifiers (node 0 placeholder (TStr "x") [] []) concat_example
    ∧ (count_true (classification_flags (meta st' 0)) ≤ 1)%nat
    ∧ (all_input_nodes (node 0 placeholder (TStr "x") [] []) = []
       → features_defining (meta st' 0) = Some true).
Proof.
  eexists. split; [vm_compute; reflexivity|].
  apply (classification_after_annotation (λ _, false) concat_example 9
           (concat_example_shapes 8 8) _ (node 0 placeholder (TStr "x") [] [])).
  - apply (bool_decide_unpack _). vm_compute. exact I.
  - vm_compute. reflexivity.
  - apply reachable_input. simpl. apply list_elem_of_here.
Defined.

(** C9, as stated, fails: after [add_node_properties] on [act(x)], for a layer
    class [act] outside the allow-lists, the node of [act] is reached, is not
    an input and has none of the six flags true. *)
Lemma unclassified_node_has_no_flag :
  ∃ st',
    add_node_properties (λ _, false) unclassified_example 3 unclassified_example_shapes
    = Some (ret st')
    ∧ reachable (graph unclassified_example) unclassified_node
    ∧ all_input_nodes unclassified_node ≠ []
    ∧ count_true (classification_flags (meta st' (name unclassified_node))) ≠ 1%nat.
Proof.
  eexists. split; [vm_compute; reflexivity|]. split; [|split; [done|by vm_compute]].
  apply reachable_succ with (node 0 placeholder (TStr "x") [] []).
  - apply reachable_input. apply list_elem_of_here.
  - apply list_elem_of_further, list_elem_of_here.
  - apply list_elem_of_here.
Qed.

(** ** Deferred nodes of [add_features_calculator] (C7) *)

Lemma skip_flag_true n st :
  skip_flag n st = true
  ↔ ∃ i, i ∈ all_input_nodes n ∧ features_calculator (meta st i) = None.
Proof.
  unfold skip_flag. rewrite existsb_exists. split.
  - intros (i & Hi & Hnone). exists i. split; [by apply list_elem_of_In|].
    by apply bool_decide_eq_true in Hnone.
  - intros (i & Hi & Hnone). exists i. split; [by apply list_elem_of_In|].
    by apply bool_decide_eq_true.
Qed.

Lemma add_features_calculator_body_settled mod_ rules p st :
  add_features_calculator_body mod_ rules p st = ret (Some st) →
  is_Some (features_calculator (meta st (name p))).
Proof.
  intros (_ & fc & _ & Hst)%add_features_calculator_body_Some.
  rewrite Hst, meta_set_meta. by eexists.
Qed.

(** On an acyclic graph whose inputs are its placeholders, a finished run of
    the pass has settled every node with a calculator. *)
Lemma add_features_calculator_complete mod_ rules st n :
  closed (graph mod_) → rooted (graph mod_) → acyclic (graph mod_) →
  visited (graph mod_) (add_features_calculator_body mod_ rules) [] st →
  n ∈ graph mod_ →
  add_features_calculator_body mod_ rules n st = ret (Some st).
Proof.
  intros Hclosed Hrooted [rank Hrank] (P & HP & Hin & _).
  assert (∀ n, P n → add_features_calculator_body mod_ rules n st = ret (Some st) →
               ∀ s, s ∈ graph mod_ → name n ∈ all_input_nodes s → P s) as Hsucc.
  { intros p Hp Hsome s Hs Hedge.
    destruct (HP _ Hp) as [_ [?%elem_of_nil|[Hnone|(_ & ss & Hss & Hsub)]]]; [done|..].
    - by rewrite Hsome in Hnone.
    - apply successors_succs in Hss as ->.
      destruct (Hsub s) as [?%elem_of_nil|?]; [|done..]. by apply elem_of_succs. }
  cut (∀ k n, (rank (name n) < k)%nat → n ∈ graph mod_ →
              P n ∧ add_features_calculator_body mod_ rules n st = ret (Some st)).
  { intros H Hn. by apply (H (S (rank (name n))) n (Nat.lt_succ_diag_r _)). }
  clear n. intros k. induction k as [|k IH]; intros n Hk Hn; [lia|].
  assert (∀ i, i ∈ all_input_nodes n →
               ∃ p, p ∈ graph mod_ ∧ name p = i ∧ P p
                    ∧ add_features_calculator_body mod_ rules p st = ret (Some st))
    as Hpreds.
  { intros i Hi. destruct (Hclosed _ _ Hn Hi) as (p & Hp & <-).
    pose proof (Hrank _ _ Hn Hi). destruct (IH p) as [? ?]; [lia|done|]. by exists p. }
  assert (P n) as HPn.
  { destruct (all_input_nodes n) as [|i0 rest] eqn:Hinputs.
    - destruct (Hin n) as [?%elem_of_nil|?]; [|done..].
      unfold get_input_nodes. apply list_elem_of_filter. split; [|done].
      by apply Hrooted.
    - destruct (Hpreds i0) as (p & Hp & <- & HPp & Hsome); [left|].
      apply (Hsucc p); [done..|]. rewrite Hinputs. left. }
  split; [done|].
  destruct (HP _ HPn) as [_ [?%elem_of_nil|[Hnone|(Hsome & _)]]]; [done| |done].
  apply add_features_calculator_body_None, skip_flag_true in Hnone as (i & Hi & Hnone).
  destruct (Hpreds i Hi) as (p & _ & <- & _ & Hsome).
  apply add_features_calculator_body_settled in Hsome as [fc Hfc]. congruence.
Qed.

(** C7, as amended: when a node taken from the queue has a predecessor
    without a calculator, [add_features_calculator] drops it: the loop goes
    on with the rest of the queue, the node is not put back and its
    successors are not added.  The node comes back into the queue as a
    successor, every time one of its predecessors is processed.  On an acyclic
    graph of distinct nodes whose predecessors are nodes of the graph and
    whose nodes without predecessors are the placeholders, the pass ends
    within some fuel whatever the [meta] dictionaries it starts from, and
    when it ends without an exception every node has a calculator. *)
Theorem deferred_nodes_processed mod_ rules :
  distinct_nodes (graph mod_) → closed (graph mod_) → rooted (graph mod_) →
  acyclic (graph mod_) →
  (∀ n st fuel queue,
     (∃ i, i ∈ all_input_nodes n ∧ features_calculator (meta st i) = None) →
     while_queue (graph mod_) (add_features_calculator_body mod_ rules) (S fuel)
                 (n :: queue) st
     = while_queue (graph mod_) (add_features_calculator_body mod_ rules) fuel queue st)
  ∧ (∀ p n succs,
       successors (graph mod_) p = ret succs →
       n ∈ graph mod_ → name p ∈ all_input_nodes n → n ∈ succs)
  ∧ ∃ fuel, ∀ st,
      ∃ r, add_features_calculator mod_ rules fuel st = Some r
           ∧ ∀ st', r = ret st' →
                    ∀ n, n ∈ graph mod_ → is_Some (features_calculator (meta st' (name n))).
Proof.
  intros Hdistinct Hclosed Hrooted Hacyclic. split; [|split].
  - intros n st fuel queue Hskip. apply skip_flag_true in Hskip. simpl.
    unfold add_features_calculator_body at 1. by rewrite Hskip.
  - intros p n succs ->%successors_succs Hn Hedge. by apply elem_of_succs.
  - destruct (acyclic_walk _ (get_input_nodes (graph mod_)) Hacyclic) as [fuel Hwalk].
    exists fuel. intros st.
    destruct (walk_terminates _ (add_features_calculator_body mod_ rules) _ _ _ st Hwalk
                (reflexivity _)) as [r Hr].
    exists r. split; [done|]. intros st' -> n Hn.
    apply (add_features_calculator_body_settled mod_ rules).
    apply add_features_calculator_complete; try done.
    eapply (visited_final _ _ Hdistinct); [| |exact Hr].
    + apply add_features_calculator_body_frame.
    + apply add_features_calculator_body_idem.
Qed.

Lemma deferred_nodes_processed_witness :
  (∀ n st fuel queue,
     (∃ i, i ∈ all_input_nodes n ∧ features_calculator (meta st i) = None) →
     while_queue (graph concat_example) (add_features_calculator_body concat_example [])
                 (S fuel) (n :: queue) st
     = while_queue (graph concat_example) (add_features_calculator_body concat_example [])
                   fuel queue st)
  ∧ (∀ p n succs,
       successors (graph concat_example) p = ret succs →
       n ∈ graph concat_example → name p ∈ all_input_nodes n → n ∈ succs)
  ∧ ∃ fuel, ∀ st,
      ∃ r, add_features_calculator concat_example [] fuel st = Some r
           ∧ ∀ st', r = ret st' →
                    ∀ n, n ∈ graph concat_example →
                         is_Some (features_calculator (meta st' (name n))).
Proof.
  apply (deferred_nodes_processed concat_example []).
  - apply (bool_decide_unpack _); vm_compute; exact I.
  - apply closed_Forall, (bool_decide_unpack _); vm_compute; exact I.
  - apply rooted_Forall, (bool_decide_unpack _); vm_compute; exact I.
  - apply (acyclic_Forall _ id), (bool_decide_unpack _); vm_compute; exact I.
Defined.

(** C7, as stated, fails: on the acyclic graph [cat([x, zeros(...)], 1)] the
    pass takes the concatenation from the queue while the call of [zeros] has
    no calculator, and it ends without an exception and without a calculator
    on the concatenation; run on a queue that holds just this node, the loop
    ends after one iteration: the node is not put back. *)
Lemma deferred_node_dropped :
  acyclic (graph no_predecessor_example)
  ∧ ∃ st1 st2,
      add_node_properties (λ _, false) no_predecessor_example 4
                          no_predecessor_example_shapes = Some (ret st1)
      ∧ skip_flag no_predecessor_concat st1 = true
      ∧ (∀ fuel r, add_features_calculator no_predecessor_example [] fuel st1 = Some r →
                   r = ret st2)
      ∧ add_features_calculator no_predecessor_example [] 4 st1 = Some (ret st2)
      ∧ features_calculator (meta st2 (name no_predecessor_concat)) = None
      ∧ while_queue (graph no_predecessor_example)
                    (add_features_calculator_body no_predecessor_example []) 1
                    [no_predecessor_concat] st2 = Some (ret st2).
Proof.
  split; [apply (acyclic_Forall _ id), (bool_decide_unpack _); vm_compute; exact I|].
  eexists _, _. split; [vm_compute; reflexivity|]. split; [vm_compute; reflexivity|].
  assert (∀ A B C D : Prop, B → (B → A) → C → D → A ∧ B ∧ C ∧ D) as Hsplit by tauto.
  apply Hsplit.
  - vm_compute. reflexivity.
  - intros Hrun fuel r Hr. symmetry. by eapply while_queue_deterministic.
  - vm_compute. reflexivity.
  - vm_compute. reflexivity.
Qed.

(** ** Graphs on which the three passes succeed (C2) *)

Lemma assert_not_batch_ok msg input_shape d :
  reshape_dim_ok input_shape d → assert_not_batch msg input_shape d = ret ().
Proof.
  intros (z & -> & Hz & Hlen). rewrite assert_not_batch_int.
  rewrite bool_decide_eq_false_2; [done|]. intros [?|?]; done.
Qed.

Lemma includes_channels_ok input_shape d :
  reshape_dim_ok input_shape d → ∃ b, includes_channels input_shape d = ret b.
Proof.
  intros (z & -> & _). unfold includes_channels. destruct (bool_decide _); by eexists.
Qed.

Lemma flattened_size_ok input_shape e :
  end_dim_ok e → ∃ z, flattened_size input_shape e = ret z.
Proof. intros [->|[z ->]]; by eexists. Qed.

Lemma skip_flag_false n st i :
  skip_flag n st = false → i ∈ all_input_nodes n →
  ∃ fc, features_calculator (meta st i) = Some fc.
Proof.
  intros Hskip Hi. destruct (features_calculator (meta st i)) as [fc|] eqn:Hfc; [by eexists|].
  assert (skip_flag n st = true) by (apply skip_flag_true; eauto). congruence.
Qed.

Lemma concat_calculators_ok st (l : list nat) :
  (∀ i, i ∈ l → ∃ fc, features_calculator (meta st i) = Some fc) →
  ∃ fcs, foldr (λ prev acc,
                  let! fc := getitem "features_calculator"
                                     (features_calculator (meta st prev)) in
                  let! fcs := acc in ret (fc :: fcs))
               (ret []) l = ret fcs.
Proof.
  induction l as [|i l IH]; intros H; [by eexists|].
  destruct (H i) as [fc Hfc]; [left|]. destruct IH as [fcs Hfcs].
  { intros j Hj. apply H. by right. }
  exists (fc :: fcs). simpl. by rewrite Hfc, Hfcs.
Qed.

Lemma new_features_calculator_supported mod_ rules n st0 st :
  supported mod_ st0 n →
  (op n ≠ placeholder → all_input_nodes n ≠ []) →
  classification_flags (meta st (name n)) = Some <$> classifiers n mod_ →
  (∀ i, tensor_meta (meta st i) = tensor_meta (meta st0 i)) →
  skip_flag n st = false →
  ∃ fc, new_features_calculator mod_ rules n st = ret fc.
Proof.
  intros (Hcls & Hflat & Hsq & Hdef & _) Hinputs [= Hp Hd Hs Hf Hq Hc] Hshape Hskip.
  unfold new_features_calculator. cbv zeta.
  destruct (first_rule rules n mod_) as [fc|]; [by eexists|].
  rewrite Hf, Hq, Hc, Hs, Hd, Hp. simpl.
  destruct (is_flatten n mod_) eqn:Eflat.
  { destruct Hflat as (shape & Hfirst & Hdim & Hend); [done|].
    unfold first_input_shape in Hfirst.
    destruct (all_input_nodes n) as [|i0 rest] eqn:Hin; [done|].
    destruct (skip_flag_false n st i0 Hskip) as [ifc Hifc]; [rewrite Hin; left|].
    change (index (i0 :: rest) 0) with (ret i0 : Result nat). rewrite bind_ret_l.
    rewrite Hifc, Hshape, Hfirst. simpl. rewrite assert_not_batch_ok by done. simpl.
    destruct (includes_channels_ok _ _ Hdim) as [[] ->]; simpl; [|by eexists].
    destruct (flattened_size_ok shape _ Hend) as [z ->]. by eexists. }
  destruct (is_squeeze n mod_) eqn:Esq.
  { destruct Hsq as (shape & Hfirst & Hdim & Hlen); [done|].
    unfold first_input_shape in Hfirst.
    destruct (all_input_nodes n) as [|i0 rest] eqn:Hin; [done|].
    destruct (skip_flag_false n st i0 Hskip) as [ifc Hifc]; [rewrite Hin; left|].
    change (index (i0 :: rest) 0) with (ret i0 : Result nat). rewrite bind_ret_l.
    rewrite Hifc, Hshape, Hfirst. simpl.
    rewrite bool_decide_eq_false_2 by (destruct Hdim as (z & -> & _); done).
    rewrite assert_not_batch_ok by done. simpl.
    destruct (includes_channels_ok _ _ Hdim) as [[] Hch]; rewrite Hch; simpl; [|by eexists].
    specialize (Hlen Hch). unfold index.
    destruct (lookup_lt_is_Some_2 shape 2 Hlen) as [z ->]. by eexists. }
  destruct (is_features_concatenate n mod_) eqn:Ecat.
  { destruct (concat_calculators_ok st (all_input_nodes n)) as [fcs ->]; [|by eexists].
    intros i Hi. by eapply skip_flag_false. }
  destruct (is_shared_input_features_op n mod_) eqn:Eshared.
  { destruct (all_input_nodes n) as [|i0 rest] eqn:Hin.
    - unfold is_shared_input_features_op, is_zero_or_one_input_op in Eshared.
      by rewrite Hin in Eshared.
    - destruct (skip_flag_false n st i0 Hskip) as [ifc Hifc]; [rewrite Hin; left|].
      change (index (i0 :: rest) 0) with (ret i0 : Result nat). rewrite bind_ret_l, Hifc.
      by eexists. }
  destruct (is_features_defining_op n mod_) eqn:Edef.
  { destruct Hdef as (shape & Htm & Hlen); [done|]. rewrite Hshape, Htm. simpl.
    unfold index. destruct (lookup_lt_is_Some_2 shape 1 Hlen) as [z ->]. by eexists. }
  destruct (is_features_propagating_op n mod_) eqn:Eprop.
  { destruct (all_input_nodes n) as [|i0 rest] eqn:Hin.
    - destruct Hinputs; [|done]. unfold is_features_propagating_op in Eprop.
      intros Hop. by rewrite Hop in Eprop.
    - destruct (skip_flag_false n st i0 Hskip) as [ifc Hifc]; [rewrite Hin; left|].
      change (index (i0 :: rest) 0) with (ret i0 : Result nat). rewrite bind_ret_l, Hifc.
      by eexists. }
  unfold classifiers in Hcls. rewrite Eflat, Esq, Ecat, Eshared, Edef, Eprop in Hcls.
  exfalso. repeat (apply elem_of_cons in Hcls as [?|Hcls]; [done|]).
  by apply elem_of_nil in Hcls.
Qed.

Lemma get_node_elem_of g p :
  distinct_nodes g → p ∈ g → get_node g (name p) = ret p.
Proof.
  intros Hdistinct Hp. unfold get_node.
  destruct (list_find_elem_of (λ n, name n = name p) g p Hp eq_refl) as [[i n] Hfind].
  rewrite Hfind. apply list_find_Some in Hfind as (Hi & Hname & _).
  f_equal. apply (distinct_nodes_eq g); [done| |done..].
  by eapply list_elem_of_lookup_2.
Qed.

Lemma new_input_features_set_by_supported mod_ n st0 st :
  distinct_nodes (graph mod_) → closed (graph mod_) →
  (∀ p, p ∈ graph mod_ → supported mod_ st0 p) →
  (∀ p, p ∈ graph mod_ →
        classification_flags (meta st (name p)) = Some <$> classifiers p mod_) →
  (∀ i, tensor_meta (meta st i) = tensor_meta (meta st0 i)) →
  n ∈ graph mod_ →
  ∃ o, new_input_features_set_by mod_ n st = ret o.
Proof.
  intros Hdistinct Hclosed Hsupp Hflags Hshape Hn.
  unfold new_input_features_set_by. cbv zeta.
  destruct (all_input_nodes n) as [|prev rest] eqn:Hin; [by eexists|].
  rewrite bool_decide_eq_true_2 by (simpl; lia).
  pose proof (Hflags n Hn) as [= _ _ _ _ _ Hc]. rewrite Hc. simpl.
  destruct (is_features_concatenate n mod_) eqn:Ecat.
  { destruct (negb _); by eexists. }
  destruct (input_features_set_by (meta st prev)) as [prev_set_by|]; [|by eexists].
  destruct (Hclosed n prev Hn) as (pn & Hpn & <-); [rewrite Hin; left|].
  pose proof (Hflags pn Hpn) as [= Hpp Hpd Hps Hpf Hpq Hpc].
  destruct (Hsupp pn Hpn) as (Hcls & Hflat & Hsq & _ & Hshared).
  rewrite Hpf, Hpq, Hpc, Hpd, Hpp. simpl.
  destruct (is_flatten pn mod_) eqn:Eflat.
  { destruct Hflat as (shape & Hfirst & Hdim & _); [done|].
    rewrite get_node_elem_of by done. simpl.
    unfold first_input_shape in Hfirst.
    destruct (all_input_nodes pn) as [|p0 rest0]; [done|]. simpl.
    rewrite Hshape, Hfirst. simpl. rewrite assert_not_batch_ok by done. simpl.
    destruct (includes_channels_ok _ _ Hdim) as [[] ->]; by eexists. }
  destruct (is_squeeze pn mod_) eqn:Esq.
  { destruct Hsq as (shape & Hfirst & Hdim & _); [done|].
    rewrite get_node_elem_of by done. simpl.
    unfold first_input_shape in Hfirst.
    destruct (all_input_nodes pn) as [|p0 rest0]; [done|]. simpl.
    rewrite Hshape, Hfirst. simpl.
    rewrite bool_decide_eq_false_2 by (destruct Hdim as (z & -> & _); done).
    rewrite assert_not_batch_ok by done. simpl.
    destruct (includes_channels_ok _ _ Hdim) as [[] ->]; by eexists. }
  destruct (is_features_concatenate pn mod_) eqn:Epcat; [by eexists|].
  destruct (is_features_defining_op pn mod_) eqn:Edef; [by eexists|].
  destruct (is_features_propagating_op pn mod_) eqn:Eprop; [by eexists|].
  exfalso. destruct (is_shared_input_features_op pn mod_) eqn:Eshared.
  - rewrite (Hshared eq_refl n Hn) in Ecat; [done|]. by rewrite Hin.
  - unfold classifiers in Hcls. rewrite Eflat, Esq, Epcat, Eshared, Edef, Eprop in Hcls.
    repeat (apply elem_of_cons in Hcls as [?|Hcls]; [done|]).
    by apply elem_of_nil in Hcls.
Qed.

Lemma new_input_features_set_by_not_None mod_ n st :
  (∀ i, i ∈ all_input_nodes n → is_Some (input_features_set_by (meta st i))) →
  new_input_features_set_by mod_ n st ≠ ret None.
Proof.
  intros Hpreds.
  assert (existsb (λ inode, bool_decide (input_features_set_by (meta st inode) = None))
                  (all_input_nodes n) = false) as Hskip.
  { apply not_true_is_false. rewrite existsb_exists.
    intros (i & Hi%list_elem_of_In & Hnone%bool_decide_eq_true).
    destruct (Hpreds i Hi) as [? ?]. congruence. }
  unfold new_input_features_set_by. cbv zeta. rewrite Hskip.
  destruct (all_input_nodes n) as [|prev rest] eqn:Hin; [done|].
  rewrite bool_decide_eq_true_2 by (simpl; lia).
  destruct (features_concatenate (meta st (name n))) as [[]|]; simpl; [done| |done].
  destruct (Hpreds prev) as [prev_set_by ->]; [left|].
  repeat (match goal with
          | |- context [getitem ?k ?o] => destruct o as [[]|]; simpl; try done
          | |- context [get_node ?g ?i] => destruct (get_node g i); simpl; try done
          | |- context [index ?l ?i] => destruct (index l i); simpl; try done
          | |- context [assert_not_batch ?m ?s ?d] =>
              destruct (assert_not_batch m s d); simpl; try done
          | |- context [includes_channels ?s ?d] =>
              destruct (includes_channels s d) as [|[]]; simpl; try done
          | |- context [bool_decide ?P] => destruct (bool_decide P); simpl; try done
          end).
Qed.

Lemma elem_of_fx_to_nx_graph g i j :
  (i, j) ∈ fx_to_nx_graph g ↔ ∃ n, n ∈ g ∧ name n = j ∧ i ∈ all_input_nodes n.
Proof.
  unfold fx_to_nx_graph. rewrite list_elem_of_bind. split.
  - intros (n & Hij & Hn). apply list_elem_of_bind in Hij as (i' & Hij & Hi).
    apply list_elem_of_singleton in Hij as [= -> ->]. by exists n.
  - intros (n & Hn & <- & Hi). exists n. split; [|done].
    apply list_elem_of_bind. exists i. split; [|done]. by apply list_elem_of_singleton.
Qed.

Lemma successors_ok g n :
  rooted g → inputs_used g → n ∈ g → successors g n = ret (succs g n).
Proof.
  intros Hrooted Hused Hn. unfold successors.
  assert (nx_has_node g (name n) = true) as ->; [|done].
  unfold nx_has_node. apply existsb_exists.
  destruct (all_input_nodes n) as [|i rest] eqn:Hin.
  - destruct (Hused n Hn) as (s & Hs & Hedge); [by apply Hrooted|].
    exists (name n, name s). split.
    + apply list_elem_of_In, elem_of_fx_to_nx_graph. by exists s.
    + simpl. by rewrite bool_decide_eq_true_2.
  - exists (i, name n). split.
    + apply list_elem_of_In, elem_of_fx_to_nx_graph. exists n. rewrite Hin.
      split; [done|]. split; [done|left].
    + simpl. rewrite (bool_decide_eq_true_2 (name n = name n)) by done.
      apply orb_true_r.
Qed.

(** The loop raises nothing when the body raises nothing on the nodes of the
    graph, in the states that an invariant [J] of the body describes. *)
Lemma while_queue_safe g body (J : Store → Prop) :
  rooted g → inputs_used g →
  (∀ n st, n ∈ g → J st →
           match body n st with
           | inl _ => False
           | inr None => True
           | inr (Some st') => J st'
           end) →
  ∀ fuel queue st r,
    (∀ n, n ∈ queue → n ∈ g) → J st →
    while_queue g body fuel queue st = Some r →
    ∃ st', r = ret st' ∧ J st'.
Proof.
  intros Hrooted Hused Hbody fuel queue st r Hqueue HJ Hrun.
  pose proof (while_queue_invariant g body
                (λ queue st, (∀ n, n ∈ queue → n ∈ g) ∧ J st) (λ _, False)) as Hinv.
  specialize (Hinv) with (fuel := fuel) (queue := queue) (st := st) (r := r).
  destruct r as [e|st'].
  - destruct Hinv; try done.
    clear dependent queue st. intros n queue st [Hqueue HJ].
    assert (n ∈ g) as Hn by (apply Hqueue; left).
    specialize (Hbody n st Hn HJ). destruct (body n st) as [e'|[st'|]]; [done| |].
    + rewrite successors_ok by done. split; [|done].
      intros s [Hs|Hs]%elem_of_app; [apply Hqueue; by right|].
      by apply elem_of_succs in Hs as [? _].
    + split; [|done]. intros s Hs. apply Hqueue. by right.
  - exists st'. split; [done|]. apply Hinv; try done.
    clear dependent queue st. intros n queue st [Hqueue HJ].
    assert (n ∈ g) as Hn by (apply Hqueue; left).
    specialize (Hbody n st Hn HJ). destruct (body n st) as [e'|[st1|]]; [done| |].
    + rewrite successors_ok by done. split; [|done].
      intros s [Hs|Hs]%elem_of_app; [apply Hqueue; by right|].
      by apply elem_of_succs in Hs as [? _].
    + split; [|done]. intros s Hs. apply Hqueue. by right.
Qed.

Lemma get_input_nodes_elem_of g n : n ∈ get_input_nodes g → n ∈ g.
Proof. unfold get_input_nodes. by intros [_ ?]%list_elem_of_filter. Qed.

(** On an acyclic graph whose inputs are its placeholders, the walk from the
    inputs reaches every node. *)
Lemma all_reachable g n :
  closed g → rooted g → acyclic g → n ∈ g → reachable g n.
Proof.
  intros Hclosed Hrooted [rank Hrank].
  cut (∀ k n, (rank (name n) < k)%nat → n ∈ g → reachable g n).
  { intros H Hn. by apply (H (S (rank (name n))) n (Nat.lt_succ_diag_r _)). }
  clear n. intros k. induction k as [|k IH]; intros n Hk Hn; [lia|].
  destruct (all_input_nodes n) as [|i0 rest] eqn:Hin.
  - apply reachable_input. unfold get_input_nodes. apply list_elem_of_filter.
    split; [|done]. by apply Hrooted.
  - destruct (Hclosed n i0 Hn) as (p & Hp & <-); [rewrite Hin; left|].
    apply reachable_succ with p; [|done|rewrite Hin; left].
    apply IH; [|done]. assert (name p ∈ all_input_nodes n) as Hedge by (rewrite Hin; left).
    pose proof (Hrank _ _ Hn Hedge). lia.
Qed.

Lemma associate_input_features_complete mod_ st n :
  closed (graph mod_) → rooted (graph mod_) → acyclic (graph mod_) →
  visited (graph mod_) (associate_input_features_body mod_) [] st →
  n ∈ graph mod_ →
  is_Some (input_features_set_by (meta st (name n))).
Proof.
  intros Hclosed Hrooted Hacyclic Hvisited.
  pose proof Hacyclic as [rank Hrank].
  cut (∀ k n, (rank (name n) < k)%nat → n ∈ graph mod_ →
              is_Some (input_features_set_by (meta st (name n)))).
  { intros H Hn. by apply (H (S (rank (name n))) n (Nat.lt_succ_diag_r _)). }
  clear n. intros k. induction k as [|k IH]; intros n Hk Hn; [lia|].
  pose proof (visited_reachable _ _ _ n (associate_input_features_body_not_None mod_)
                Hvisited (all_reachable _ _ Hclosed Hrooted Hacyclic Hn)) as Hsettled.
  apply associate_input_features_body_Some in Hsettled as ([set_by|] & Hnew & Hst).
  - rewrite Hst, meta_set_meta. by eexists.
  - exfalso. revert Hnew. apply new_input_features_set_by_not_None.
    intros i Hi. destruct (Hclosed _ _ Hn Hi) as (p & Hp & <-).
    apply IH; [|done]. pose proof (Hrank _ _ Hn Hi). lia.
Qed.

Lemma static_classification_flags m m' :
  static m = static m' → classification_flags m = classification_flags m'.
Proof. intros [= ? ? ? ? ? ? _ _ _]. unfold classification_flags. congruence. Qed.

Lemma same_static_trans st1 st2 st3 :
  same_static st1 st2 → same_static st2 st3 → same_static st1 st3.
Proof. intros H12 H23 i. by rewrite H12. Qed.

(** C2, as amended: on an acyclic graph of distinct nodes whose predecessors
    are nodes of the graph, whose nodes without predecessors are the
    placeholders and whose placeholders are all used, and where every node is
    [supported], the three passes end without an exception within some fuel,
    and every node that the walk from the inputs reaches has a calculator and
    a back-reference. *)
Theorem annotate_graph_total is_untouchable_op mod_ rules st :
  distinct_nodes (graph mod_) → closed (graph mod_) → rooted (graph mod_) →
  inputs_used (graph mod_) → acyclic (graph mod_) →
  (∀ n, n ∈ graph mod_ → supported mod_ st n) →
  ∃ fuel st',
    annotate_graph is_untouchable_op mod_ rules fuel st = Some (ret st')
    ∧ ∀ n, reachable (graph mod_) n →
           is_Some (features_calculator (meta st' (name n)))
           ∧ is_Some (input_features_set_by (meta st' (name n))).
Proof.
  intros Hdistinct Hclosed Hrooted Hused Hacyclic Hsupp.
  destruct (acyclic_walk _ (get_input_nodes (graph mod_)) Hacyclic) as [fuel Hwalk].
  exists fuel. unfold annotate_graph, add_node_properties, add_features_calculator,
    associate_input_features. cbv zeta.
  (* the annotation pass *)
  destruct (walk_terminates _ (add_node_properties_body is_untouchable_op mod_) _ _ _ st
              Hwalk (reflexivity _)) as [r1 H1].
  assert (∃ st1, r1 = ret st1
                 ∧ ∀ i, tensor_meta (meta st1 i) = tensor_meta (meta st i))
    as (st1 & -> & Hshape1).
  { refine (while_queue_safe _ _
              (λ st1, ∀ i, tensor_meta (meta st1 i) = tensor_meta (meta st i))
              Hrooted Hused _ _ _ _ _ (get_input_nodes_elem_of _) _ H1); [|done].
    intros n st0 _ Hst0 i. unfold add_node_properties_body. simpl.
    destruct (decide (i = name n)) as [->|Hne].
    - rewrite meta_set_meta. simpl. apply Hst0.
    - rewrite meta_set_meta_ne by done. apply Hst0. }
  rewrite H1. unfold ret at 1. cbv beta iota.
  assert (∀ n, n ∈ graph mod_ →
               classification_flags (meta st1 (name n)) = Some <$> classifiers n mod_)
    as Hflags1.
  { intros n Hn.
    assert (visited (graph mod_) (add_node_properties_body is_untouchable_op mod_) [] st1)
      as Hvisited.
    { eapply (visited_final _ _ Hdistinct); [| |exact H1].
      - apply add_node_properties_body_frame.
      - apply add_node_properties_body_idem. }
    pose proof (visited_reachable _ _ _ n (add_node_properties_body_not_None _ _)
                  Hvisited (all_reachable _ _ Hclosed Hrooted Hacyclic Hn)) as Hsettled.
    apply add_node_properties_body_settled, meta_lookup in Hsettled. by rewrite Hsettled. }
  (* the propagation of the calculators *)
  destruct (walk_terminates _ (add_features_calculator_body mod_ rules) _ _ _ st1
              Hwalk (reflexivity _)) as [r2 H2].
  assert (∃ st2, r2 = ret st2 ∧ same_static st1 st2) as (st2 & -> & Hstatic2).
  { refine (while_queue_safe _ _ (same_static st1) Hrooted Hused _ _ _ _ _
              (get_input_nodes_elem_of _) _ H2); [|done].
    intros n st0 Hn Hst0.
    destruct (add_features_calculator_body mod_ rules n st0) as [e|[st0'|]] eqn:Hbody;
      [|apply add_features_calculator_body_Some in Hbody as (_ & fc & _ & ->);
        eapply same_static_trans; [done|apply same_static_set_calculator]|done].
    unfold add_features_calculator_body in Hbody.
    destruct (skip_flag n st0) eqn:Hskip; [done|].
    destruct (new_features_calculator_supported mod_ rules n st st0) as [fc Hfc]; try done.
    - by apply Hsupp.
    - intros Hop Hnil. by apply Hrooted in Hnil.
    - rewrite <-(static_classification_flags _ _ (Hst0 (name n))). by apply Hflags1.
    - intros i. destruct (static_fields _ _ (Hst0 i)) as (_ & _ & _ & _ & _ & _ & <-).
      apply Hshape1.
    - by rewrite Hfc in Hbody. }
  rewrite H2. unfold ret at 1. cbv beta iota.
  assert (∀ n, n ∈ graph mod_ → is_Some (features_calculator (meta st2 (name n))))
    as Hcalc2.
  { intros n Hn. apply (add_features_calculator_body_settled mod_ rules).
    apply add_features_calculator_complete; try done.
    eapply (visited_final _ _ Hdistinct); [| |exact H2].
    - apply add_features_calculator_body_frame.
    - apply add_features_calculator_body_idem. }
  (* the association of the back-references *)
  destruct (walk_terminates _ (associate_input_features_body mod_) _ _ _ st2
              Hwalk (reflexivity _)) as [r3 H3].
  assert (∃ st3, r3 = ret st3
                 ∧ same_static st1 st3
                 ∧ ∀ i, features_calculator (meta st3 i)
                        = features_calculator (meta st2 i))
    as (st3 & -> & Hstatic3 & Hcalc3).
  { refine (while_queue_safe _ _
              (λ st3, same_static st1 st3
                      ∧ ∀ i, features_calculator (meta st3 i)
                             = features_calculator (meta st2 i))
              Hrooted Hused _ _ _ _ _ (get_input_nodes_elem_of _) _ H3); [|done].
    intros n st0 Hn [Hst0 Hcalc0].
    destruct (associate_input_features_body mod_ n st0) as [e|[st0'|]] eqn:Hbody; [| |done].
    - unfold associate_input_features_body in Hbody.
      destruct (new_input_features_set_by_supported mod_ n st st0) as [o Ho]; try done.
      + intros p Hp.
        rewrite <-(static_classification_flags _ _ (Hst0 (name p))). by apply Hflags1.
      + intros i. destruct (static_fields _ _ (Hst0 i)) as (_ & _ & _ & _ & _ & _ & <-).
        apply Hshape1.
      + rewrite Ho in Hbody. by destruct o.
    - apply associate_input_features_body_Some in Hbody as ([set_by|] & _ & ->); [|done].
      split; [eapply same_static_trans; [done|apply same_static_set_by]|].
      intros i. rewrite <-Hcalc0. destruct (decide (i = name n)) as [->|Hne].
      + by rewrite meta_set_meta.
      + by rewrite meta_set_meta_ne. }
  exists st3. split; [done|]. intros n Hn%reachable_elem_of. split.
  - rewrite Hcalc3. by apply Hcalc2.
  - apply (associate_input_features_complete mod_); try done.
    eapply (visited_final _ _ Hdistinct); [| |exact H3].
    + apply associate_input_features_body_frame.
    + apply associate_input_features_body_idem.
Qed.

Lemma concat_example_supported h w n :
  n ∈ graph concat_example → supported concat_example (concat_example_shapes h w) n.
Proof.
  intros Hn. simpl in Hn.
  repeat (apply elem_of_cons in Hn as [->|Hn]); [..|by apply elem_of_nil in Hn];
    (split; [apply (bool_decide_unpack _); vm_compute; exact I|]);
    (split; [by intros [=]|]); (split; [by intros [=]|]);
    (split; [|by intros [=]]); try (by intros [=]);
    intros _; eexists; (split; [vm_compute; reflexivity|simpl; lia]).
Qed.

Lemma annotate_graph_total_witness :
  ∃ fuel st',
    annotate_graph (λ _, false) concat_example [] fuel (concat_example_shapes 8 8)
    = Some (ret st')
    ∧ ∀ n, reachable (graph concat_example) n →
           is_Some (features_calculator (meta st' (name n)))
           ∧ is_Some (input_features_set_by (meta st' (name n))).
Proof.
  apply (annotate_graph_total (λ _, false) concat_example [] (concat_example_shapes 8 8)).
  - apply (bool_decide_unpack _); vm_compute; exact I.
  - apply closed_Forall, (bool_decide_unpack _); vm_compute; exact I.
  - apply rooted_Forall, (bool_decide_unpack _); vm_compute; exact I.
  - apply inputs_used_Forall, (bool_decide_unpack _); vm_compute; exact I.
  - apply (acyclic_Forall _ id), (bool_decide_unpack _); vm_compute; exact I.
  - apply concat_example_supported.
Defined.

(** C2, as stated, fails: every node of [x.flatten(0)] is of an allow-listed
    kind and the graph is acyclic, and no run of the three passes ends without
    an exception: [add_features_calculator] refuses to flatten the batch
    dimension. *)
Lemma flatten_of_batch_rejected :
  (∀ n, n ∈ graph (flatten_example 0) → true ∈ classifiers n (flatten_example 0))
  ∧ acyclic (graph (flatten_example 0))
  ∧ ∀ fuel st',
      annotate_graph (λ _, false) (flatten_example 0) [] fuel flatten_example_shapes
      ≠ Some (ret st').
Proof.
  split; [|split].
  - intros n Hn. simpl in Hn.
    repeat (apply elem_of_cons in Hn as [->|Hn]); [..|by apply elem_of_nil in Hn];
      apply (bool_decide_unpack _); vm_compute; exact I.
  - apply (acyclic_Forall _ id), (bool_decide_unpack _); vm_compute; exact I.
  - intros fuel st' Hrun.
    assert (annotate_graph (λ _, false) (flatten_example 0) [] 3 flatten_example_shapes
            = Some (raise (AssertionError "Flattening the batch not supported"))) as Hfail
      by (vm_compute; reflexivity).
    by pose proof (annotate_graph_deterministic _ _ _ _ _ _ _ _ Hrun Hfail).
Qed.

(** ** Additions with a single input node (C10) *)





(** * Further properties *)

(** ** The successors of a node *)

Lemma nx_has_node_false g n : nx_has_node g (name n) = false ↔ isolated g n.
Proof.
  unfold nx_has_node, isolated. rewrite <-not_true_iff_false, existsb_exists. split.
  - intros H s Hs. split.
    + intros Hedge. apply H. exists (name n, name s). split.
      * apply list_elem_of_In, elem_of_fx_to_nx_graph. by exists s.
      * simpl. by rewrite bool_decide_eq_true_2.
    + intros Hname. destruct (all_input_nodes s) as [|i rest] eqn:Hin; [done|].
      destruct H. exists (i, name s). split.
      * apply list_elem_of_In, elem_of_fx_to_nx_graph. exists s. rewrite Hin.
        split; [done|]. split; [done|left].
      * simpl. rewrite (bool_decide_eq_true_2 (name s = name n)) by done.
        apply orb_true_r.
  - intros H ([i j] & Hedge%list_elem_of_In & Hends).
    apply elem_of_fx_to_nx_graph in Hedge as (s & Hs & <- & Hi).
    destruct (H s Hs) as [Hnot Hnil]. simpl in Hends.
    apply orb_true_iff in Hends as [->%bool_decide_eq_true|Hname%bool_decide_eq_true].
    + done.
    + rewrite (Hnil Hname) in Hi. by apply elem_of_nil in Hi.
Qed.

(** X1: [nx_graph.successors(n)] on the graph of [fx_to_nx_graph] raises
    [NetworkXError] exactly when [n] is the end of no edge: no node lists [n]
    among its inputs and [n] lists no input.  Otherwise it returns, in the
    order of the graph, exactly the nodes that list [n] among their
    inputs. *)
Theorem successors_spec g n :
  (successors g n = raise NetworkXError ↔ isolated g n)
  ∧ ∀ succs, successors g n = ret succs →
      succs `sublist_of` g
      ∧ ∀ s, s ∈ succs ↔ s ∈ g ∧ name n ∈ all_input_nodes s.
Proof.
  split.
  - rewrite <-nx_has_node_false. unfold successors.
    destruct (nx_has_node g (name n)); split; done.
  - intros succs ->%successors_succs. split; [apply sublist_filter|].
    intros s. apply elem_of_succs.
Qed.

Lemma add_node_properties_isolated u mod_ n before after fuel st :
  isolated (graph mod_) n →
  (length before < fuel)%nat →
  while_queue (graph mod_) (add_node_properties_body u mod_) fuel
              (before ++ n :: after) st
  = Some (raise NetworkXError).
Proof.
  intros Hiso%nx_has_node_false. revert fuel after st.
  induction before as [|h before IH]; intros [|fuel] after st Hfuel;
    simpl in Hfuel; try lia.
  - cbn [while_queue app]. unfold add_node_properties_body, ret, successors.
    by rewrite Hiso.
  - cbn [while_queue app]. unfold add_node_properties_body, ret.
    destruct (successors (graph mod_) h) as [e|ss] eqn:Hss.
    + unfold successors, ret, raise in Hss. by destruct (nx_has_node _ (name h)); simplify_eq.
    + rewrite <-app_assoc. apply IH. lia.
Qed.

(** X2: a placeholder that no node uses makes [add_node_properties], and with it
    the sequence of the three passes, raise [NetworkXError] as soon as the
    fuel covers the queue of the inputs: networkx does not know a node that
    is in no edge. *)
Theorem unused_input_raises is_untouchable_op mod_ rules n fuel st :
  n ∈ get_input_nodes (graph mod_) →
  isolated (graph mod_) n →
  (length (get_input_nodes (graph mod_)) ≤ fuel)%nat →
  add_node_properties is_untouchable_op mod_ fuel st = Some (raise NetworkXError)
  ∧ annotate_graph is_untouchable_op mod_ rules fuel st = Some (raise NetworkXError).
Proof.
  intros Hn Hiso Hfuel.
  assert (add_node_properties is_untouchable_op mod_ fuel st = Some (raise NetworkXError))
    as Hfirst.
  { unfold add_node_properties.
    apply list_elem_of_split in Hn as (before & after & Heq). rewrite Heq in *.
    apply add_node_properties_isolated; [done|].
    rewrite length_app in Hfuel. simpl in Hfuel. lia. }
  split; [done|]. unfold annotate_graph. by rewrite Hfirst.
Qed.

Lemma unused_input_raises_witness :
  add_node_properties (λ _, false) unused_input_example 2 ∅ = Some (raise NetworkXError)
  ∧ annotate_graph (λ _, false) unused_input_example [] 2 ∅ = Some (raise NetworkXError).
Proof.
  apply (unused_input_raises (λ _, false) unused_input_example [] 
           (node 1 placeholder (TStr "y") [] []) 2 ∅).
  - simpl. apply list_elem_of_further, list_elem_of_here.
  - apply nx_has_node_false. reflexivity.
  - simpl. lia.
Defined.

(** Where every [call_module] node names a submodule, the lookup raises
    nothing: the pass is [add_node_properties]. *)
Lemma add_node_properties_checked_named u named mod_ fuel st :
  (∀ n, n ∈ graph mod_ → op n = call_module → named (target_str (target n)) = true) →
  add_node_properties_checked u named mod_ fuel st = add_node_properties u mod_ fuel st.
Proof.
  intros Hnamed. unfold add_node_properties_checked, add_node_properties. cbv zeta.
  assert (∀ n, n ∈ get_input_nodes (graph mod_) → n ∈ graph mod_) as Hqueue
    by apply get_input_nodes_elem_of.
  revert Hqueue. generalize (get_input_nodes (graph mod_)). intros queue. revert queue st.
  induction fuel as [|fuel IH]; intros [|n queue] st Hqueue; try done.
  cbn [while_queue].
  assert (add_node_properties_body_checked u named mod_ n st
          = add_node_properties_body u mod_ n st) as ->.
  { unfold add_node_properties_body_checked, get_submodule_checked.
    destruct (bool_decide_reflect (op n = call_module)) as [Hop|]; [|done].
    rewrite Hnamed; [done| |done]. apply Hqueue. left. }
  unfold add_node_properties_body, ret.
  destruct (successors (graph mod_) n) as [e|ss] eqn:Hss; [done|].
  apply IH. intros m [Hm|Hm]%elem_of_app; [apply Hqueue; by right|].
  apply successors_succs in Hss as ->. by apply elem_of_succs in Hm as [? _].
Qed.

(** X3: the exceptions of [add_node_properties].  It raises the
    [AttributeError] of [get_submodule], at a [call_module] node that the walk
    reaches and whose target names no submodule, or the [NetworkXError] of
    [successors], when an input node of the graph is the end of no edge, and
    nothing else. *)
Theorem add_node_properties_error is_untouchable_op named mod_ fuel st e :
  add_node_properties_checked is_untouchable_op named mod_ fuel st = Some (raise e) →
  (e = AttributeError
   ∧ ∃ n, reachable (graph mod_) n ∧ op n = call_module
          ∧ named (target_str (target n)) = false)
  ∨ (e = NetworkXError
     ∧ ∃ n, n ∈ get_input_nodes (graph mod_) ∧ isolated (graph mod_) n).
Proof.
  intros Hrun.
  refine (while_queue_invariant (graph mod_)
            (add_node_properties_body_checked is_untouchable_op named mod_)
            (λ queue _, ∀ n, n ∈ queue →
               reachable (graph mod_) n
               ∧ (n ∈ get_input_nodes (graph mod_)
                  ∨ nx_has_node (graph mod_) (name n) = true))
            (λ e, (e = AttributeError
                   ∧ ∃ n, reachable (graph mod_) n ∧ op n = call_module
                          ∧ named (target_str (target n)) = false)
                  ∨ (e = NetworkXError
                     ∧ ∃ n, n ∈ get_input_nodes (graph mod_) ∧ isolated (graph mod_) n))
            _ fuel _ st (raise e) _ Hrun).
  - intros n queue st0 Hqueue.
    destruct (Hqueue n) as [Hreach Hknown]; [left|].
    assert (match successors (graph mod_) n with
            | inl e =>
                e = NetworkXError
                ∧ ∃ n, n ∈ get_input_nodes (graph mod_) ∧ isolated (graph mod_) n
            | inr ss =>
                ∀ s, s ∈ queue ++ ss →
                  reachable (graph mod_) s
                  ∧ (s ∈ get_input_nodes (graph mod_)
                     ∨ nx_has_node (graph mod_) (name s) = true)
            end) as Hsucc.
    { unfold successors. destruct (nx_has_node (graph mod_) (name n)) eqn:Hhas.
      - intros s [Hs|[Hs Hedge]%elem_of_succs]%elem_of_app.
        + apply Hqueue. by right.
        + split; [by apply reachable_succ with n|].
          right. destruct (nx_has_node (graph mod_) (name s)) eqn:Hhas'; [done|].
          apply nx_has_node_false in Hhas'. destruct (Hhas' s Hs) as [_ Hnil].
          rewrite (Hnil eq_refl) in Hedge. by apply elem_of_nil in Hedge.
      - split; [done|]. exists n. split; [|by apply nx_has_node_false].
        destruct Hknown as [?|?]; [done|congruence]. }
    unfold add_node_properties_body_checked, get_submodule_checked.
    destruct (bool_decide_reflect (op n = call_module)) as [Hop|_].
    + destruct (named (target_str (target n))) eqn:Hnamed.
      * cbn [bind ret]. unfold add_node_properties_body, ret.
        destruct (successors (graph mod_) n); [by right|done].
      * left. split; [done|]. by exists n.
    + unfold add_node_properties_body, ret.
      destruct (successors (graph mod_) n); [by right|done].
  - intros n Hn. split; [by apply reachable_input|by left].
Qed.

Lemma add_node_properties_error_witness :
  (AttributeError = AttributeError
   ∧ ∃ n, reachable (graph concat_example) n ∧ op n = call_module
          ∧ no_submodule (target_str (target n)) = false)
  ∨ (AttributeError = NetworkXError
     ∧ ∃ n, n ∈ get_input_nodes (graph concat_example)
            ∧ isolated (graph concat_example) n).
Proof.
  apply (add_node_properties_error (λ _, false) no_submodule concat_example 2
           (concat_example_shapes 8 8) AttributeError).
  vm_compute. reflexivity.
Defined.

(** ** What a pass leaves as it found it *)

(** An invariant of the store that the body keeps on the nodes that the walk
    reaches holds after the loop. *)
Lemma while_queue_reachable g body (J : Store → Prop) fuel st st' :
  (∀ n st0 st1, reachable g n → J st0 → body n st0 = ret (Some st1) → J st1) →
  J st →
  while_queue g body fuel (get_input_nodes g) st = Some (ret st') →
  J st'.
Proof.
  intros Hbody HJ Hrun.
  refine (proj2 (while_queue_invariant g body
            (λ queue st0, (∀ n, n ∈ queue → reachable g n) ∧ J st0) (λ _, True) _
            fuel _ st (ret st') _ Hrun)).
  - intros n queue st0 [Hqueue HJ0].
    destruct (body n st0) as [e|[st1|]] eqn:Hn; [done| |].
    + destruct (successors g n) as [e|ss] eqn:Hss; [done|].
      apply successors_succs in Hss as ->. split.
      * intros s [Hs|[Hs Hedge]%elem_of_succs]%elem_of_app.
        -- apply Hqueue. by right.
        -- apply reachable_succ with n; [apply Hqueue; left|done..].
      * apply (Hbody n st0); [apply Hqueue; left|done..].
    + split; [|done]. intros s Hs. apply Hqueue. by right.
  - split; [|done]. intros n Hn. by apply reachable_input.
Qed.

Lemma lookup_set_meta_ne (st : Store) n m i :
  i ≠ name n → set_meta st n m !! i = st !! i.
Proof. intros. unfold set_meta. by rewrite lookup_insert_ne. Qed.

(** A step of the propagation or of the association writes the [meta] of its
    node only, and there neither a flag nor the shape. *)
Lemma add_features_calculator_body_writes mod_ rules n st st' i :
  add_features_calculator_body mod_ rules n st = ret (Some st') →
  static (meta st' i) = static (meta st i)
  ∧ input_features_set_by (meta st' i) = input_features_set_by (meta st i)
  ∧ (i ≠ name n → st' !! i = st !! i).
Proof.
  intros (_ & fc & _ & ->)%add_features_calculator_body_Some.
  destruct (decide (i = name n)) as [->|Hne].
  - by rewrite meta_set_meta.
  - by rewrite meta_set_meta_ne, lookup_set_meta_ne.
Qed.

Lemma associate_input_features_body_writes mod_ n st st' i :
  associate_input_features_body mod_ n st = ret (Some st') →
  static (meta st' i) = static (meta st i)
  ∧ features_calculator (meta st' i) = features_calculator (meta st i)
  ∧ (i ≠ name n → st' !! i = st !! i).
Proof.
  intros ([set_by|] & _ & ->)%associate_input_features_body_Some; [|done].
  destruct (decide (i = name n)) as [->|Hne].
  - by rewrite meta_set_meta.
  - by rewrite meta_set_meta_ne, lookup_set_meta_ne.
Qed.

Lemma add_features_calculator_static mod_ rules fuel st st' :
  add_features_calculator mod_ rules fuel st = Some (ret st') →
  same_static st st'
  ∧ ∀ i, input_features_set_by (meta st' i) = input_features_set_by (meta st i).
Proof.
  intros Hrun.
  refine (while_queue_reachable _ _
            (λ st0, same_static st st0
                    ∧ ∀ i, input_features_set_by (meta st0 i)
                           = input_features_set_by (meta st i))
            _ _ _ _ _ Hrun); [|done].
  intros n st0 st1 _ [Hstatic Hby] Hbody. split.
  - intros i. destruct (add_features_calculator_body_writes _ _ _ _ _ i Hbody) as (-> & _).
    apply Hstatic.
  - intros i. destruct (add_features_calculator_body_writes _ _ _ _ _ i Hbody)
      as (_ & -> & _). apply Hby.
Qed.

Lemma associate_input_features_static mod_ fuel st st' :
  associate_input_features mod_ fuel st = Some (ret st') →
  same_static st st'
  ∧ ∀ i, features_calculator (meta st' i) = features_calculator (meta st i).
Proof.
  intros Hrun.
  refine (while_queue_reachable _ _
            (λ st0, same_static st st0
                    ∧ ∀ i, features_calculator (meta st0 i)
                           = features_calculator (meta st i))
            _ _ _ _ _ Hrun); [|done].
  intros n st0 st1 _ [Hstatic Hby] Hbody. split.
  - intros i. destruct (associate_input_features_body_writes _ _ _ _ i Hbody) as (-> & _).
    apply Hstatic.
  - intros i. destruct (associate_input_features_body_writes _ _ _ _ i Hbody)
      as (_ & -> & _). apply Hby.
Qed.

(** After the annotation pass, the nodes that the walk reaches carry the
    values of the predicates. *)
Lemma add_node_properties_settles u mod_ fuel st st' n :
  distinct_nodes (graph mod_) →
  add_node_properties u mod_ fuel st = Some (ret st') →
  reachable (graph mod_) n →
  st' !! name n = Some (with_node_properties u mod_ n (meta st' (name n))).
Proof.
  intros Hdistinct Hrun Hn.
  assert (visited (graph mod_) (add_node_properties_body u mod_) [] st') as Hvisited.
  { eapply (visited_final _ _ Hdistinct); [| |exact Hrun].
    - apply add_node_properties_body_frame.
    - apply add_node_properties_body_idem. }
  pose proof (visited_reachable _ _ _ n (add_node_properties_body_not_None _ _)
                Hvisited Hn) as Hsettled.
  by apply add_node_properties_body_settled in Hsettled.
Qed.

(** X4: the store after [add_node_properties] on a graph of distinct nodes.  The
    [meta] of a node that the walk from the inputs reaches is its initial
    [meta] with the eight flags set to the values of the predicates; its
    calculator, back-reference and shape are as before.  The [meta] of an
    identity that names no reached node is as before. *)
Theorem add_node_properties_result is_untouchable_op mod_ fuel st st' i :
  distinct_nodes (graph mod_) →
  add_node_properties is_untouchable_op mod_ fuel st = Some (ret st') →
  (∀ n, reachable (graph mod_) n → name n = i →
        st' !! i = Some (with_node_properties is_untouchable_op mod_ n (meta st i)))
  ∧ ((∀ n, reachable (graph mod_) n → name n ≠ i) → st' !! i = st !! i).
Proof.
  intros Hdistinct Hrun.
  assert (st' !! i = st !! i
          ∨ ∃ n, reachable (graph mod_) n ∧ name n = i
                 ∧ st' !! i = Some (with_node_properties is_untouchable_op mod_ n (meta st i)))
    as Hinv.
  { refine (while_queue_reachable _ _
              (λ st0, st0 !! i = st !! i
                      ∨ ∃ n, reachable (graph mod_) n ∧ name n = i
                             ∧ st0 !! i = Some (with_node_properties is_untouchable_op
                                                  mod_ n (meta st i)))
              _ _ _ _ _ Hrun); [|by left].
    intros n st0 st1 Hn Hst0 [= <-].
    destruct (decide (i = name n)) as [->|Hne];
      [|by rewrite lookup_set_meta_ne].
    right. exists n. split; [done|]. split; [done|].
    unfold set_meta. rewrite lookup_insert_eq. f_equal.
    destruct Hst0 as [Hst0|(n' & Hn' & Hname & Hst0)].
    - unfold meta. by rewrite Hst0.
    - assert (n' = n) as ->.
      { apply (distinct_nodes_eq (graph mod_)); auto using reachable_elem_of. }
      by rewrite (meta_lookup _ _ _ Hst0). }
  split.
  - intros n Hn <-. destruct Hinv as [Heq|(n' & Hn' & Hname & Hst')].
    + rewrite (add_node_properties_settles _ _ _ _ _ n Hdistinct Hrun Hn).
      unfold meta. by rewrite Heq.
    + assert (n' = n) as ->; [|done].
      apply (distinct_nodes_eq (graph mod_)); auto using reachable_elem_of.
  - intros Hout. destruct Hinv as [?|(n & Hn & Hname & _)]; [done|].
    by destruct (Hout n Hn).
Qed.

Lemma add_node_properties_result_witness :
  ∃ st',
    add_node_properties (λ _, false) concat_example 9 (concat_example_shapes 8 8)
    = Some (ret st')
    ∧ (∀ n, reachable (graph concat_example) n → name n = 3%nat →
            st' !! 3%nat
            = Some (with_node_properties (λ _, false) concat_example n
                      (meta (concat_example_shapes 8 8) 3)))
    ∧ ((∀ n, reachable (graph concat_example) n → name n ≠ 3%nat) →
       st' !! 3%nat = concat_example_shapes 8 8 !! 3%nat).
Proof.
  eexists. split; [vm_compute; reflexivity|].
  apply (add_node_properties_result (λ _, false) concat_example 9
           (concat_example_shapes 8 8)).
  - apply (bool_decide_unpack _). vm_compute. exact I.
  - vm_compute. reflexivity.
Defined.

(** X5: [add_features_calculator] writes calculators only: in the store that it
    ends with, every flag, shape and back-reference is as before, and so is
    the [meta] of every identity that names no node that the walk reaches. *)
Theorem add_features_calculator_frame mod_ rules fuel st st' i :
  add_features_calculator mod_ rules fuel st = Some (ret st') →
  static (meta st' i) = static (meta st i)
  ∧ input_features_set_by (meta st' i) = input_features_set_by (meta st i)
  ∧ ((∀ n, reachable (graph mod_) n → name n ≠ i) → st' !! i = st !! i).
Proof.
  intros Hrun.
  refine (while_queue_reachable _ _
            (λ st0, static (meta st0 i) = static (meta st i)
                    ∧ input_features_set_by (meta st0 i) = input_features_set_by (meta st i)
                    ∧ ((∀ n, reachable (graph mod_) n → name n ≠ i) → st0 !! i = st !! i))
            _ _ _ _ _ Hrun); [|done].
  intros n st0 st1 Hn (Hstatic & Hby & Hout) Hbody.
  destruct (add_features_calculator_body_writes _ _ _ _ _ i Hbody) as (-> & -> & Hne).
  split; [done|]. split; [done|]. intros Hnone. rewrite Hne; [by apply Hout|].
  intros ->. by destruct (Hnone n Hn).
Qed.

Lemma add_features_calculator_frame_witness :
  ∃ st st',
    add_node_properties (λ _, false) concat_example 9 (concat_example_shapes 8 8)
    = Some (ret st)
    ∧ add_features_calculator concat_example [] 9 st = Some (ret st')
    ∧ static (meta st' 3) = static (meta st 3)
    ∧ input_features_set_by (meta st' 3) = input_features_set_by (meta st 3)
    ∧ ((∀ n, reachable (graph concat_example) n → name n ≠ 3%nat) →
       st' !! 3%nat = st !! 3%nat).
Proof.
  eexists. eexists. split; [vm_compute; reflexivity|].
  split; [vm_compute; reflexivity|].
  apply (add_features_calculator_frame concat_example [] 9).
  vm_compute. reflexivity.
Defined.

(** X6: [associate_input_features] writes back-references only: in the store
    that it ends with, every flag, shape and calculator is as before, and so
    is the [meta] of every identity that names no node that the walk
    reaches. *)
Theorem associate_input_features_frame mod_ fuel st st' i :
  associate_input_features mod_ fuel st = Some (ret st') →
  static (meta st' i) = static (meta st i)
  ∧ features_calculator (meta st' i) = features_calculator (meta st i)
  ∧ ((∀ n, reachable (graph mod_) n → name n ≠ i) → st' !! i = st !! i).
Proof.
  intros Hrun.
  refine (while_queue_reachable _ _
            (λ st0, static (meta st0 i) = static (meta st i)
                    ∧ features_calculator (meta st0 i) = features_calculator (meta st i)
                    ∧ ((∀ n, reachable (graph mod_) n → name n ≠ i) → st0 !! i = st !! i))
            _ _ _ _ _ Hrun); [|done].
  intros n st0 st1 Hn (Hstatic & Hby & Hout) Hbody.
  destruct (associate_input_features_body_writes _ _ _ _ i Hbody) as (-> & -> & Hne).
  split; [done|]. split; [done|]. intros Hnone. rewrite Hne; [by apply Hout|].
  intros ->. by destruct (Hnone n Hn).
Qed.

Lemma associate_input_features_frame_witness :
  ∃ st st',
    add_node_properties (λ _, false) concat_example 9 (concat_example_shapes 8 8)
    = Some (ret st)
    ∧ associate_input_features concat_example 9 st = Some (ret st')
    ∧ static (meta st' 3) = static (meta st 3)
    ∧ features_calculator (meta st' 3) = features_calculator (meta st 3)
    ∧ ((∀ n, reachable (graph concat_example) n → name n ≠ 3%nat) →
       st' !! 3%nat = st !! 3%nat).
Proof.
  eexists. eexists. split; [vm_compute; reflexivity|].
  split; [vm_compute; reflexivity|].
  apply (associate_input_features_frame concat_example 9).
  vm_compute. reflexivity.
Defined.

(** ** The stores that the passes end with *)

Lemma annotate_graph_passes u mod_ rules fuel st st' :
  annotate_graph u mod_ rules fuel st = Some (ret st') →
  ∃ st1 st2,
    add_node_properties u mod_ fuel st = Some (ret st1)
    ∧ add_features_calculator mod_ rules fuel st1 = Some (ret st2)
    ∧ associate_input_features mod_ fuel st2 = Some (ret st').
Proof.
  unfold annotate_graph. intros H.
  destruct (add_node_properties u mod_ fuel st) as [[e|st1]|]; [done| |done].
  destruct (add_features_calculator mod_ rules fuel st1) as [[e|st2]|] eqn:H2;
    [done| |done].
  by exists st1, st2.
Qed.

Lemma add_features_calculator_settles mod_ rules fuel st st' n :
  distinct_nodes (graph mod_) → closed (graph mod_) → rooted (graph mod_) →
  acyclic (graph mod_) →
  add_features_calculator mod_ rules fuel st = Some (ret st') →
  n ∈ graph mod_ →
  ∃ fc, new_features_calculator mod_ rules n st' = ret fc
        ∧ features_calculator (meta st' (name n)) = Some fc.
Proof.
  intros Hdistinct Hclosed Hrooted Hacyclic Hrun Hn.
  assert (add_features_calculator_body mod_ rules n st' = ret (Some st')) as Hsettled.
  { apply add_features_calculator_complete; try done.
    eapply (visited_final _ _ Hdistinct); [| |exact Hrun].
    - apply add_features_calculator_body_frame.
    - apply add_features_calculator_body_idem. }
  apply add_features_calculator_body_Some in Hsettled as (_ & fc & Hfc & Hst').
  exists fc. split; [done|]. rewrite Hst', meta_set_meta. done.
Qed.

Lemma associate_input_features_settles mod_ fuel st st' n :
  distinct_nodes (graph mod_) → closed (graph mod_) → rooted (graph mod_) →
  acyclic (graph mod_) →
  associate_input_features mod_ fuel st = Some (ret st') →
  n ∈ graph mod_ →
  ∃ set_by, new_input_features_set_by mod_ n st' = ret (Some set_by)
            ∧ input_features_set_by (meta st' (name n)) = Some set_by.
Proof.
  intros Hdistinct Hclosed Hrooted Hacyclic Hrun Hn.
  assert (visited (graph mod_) (associate_input_features_body mod_) [] st') as Hvisited.
  { eapply (visited_final _ _ Hdistinct); [| |exact Hrun].
    - apply associate_input_features_body_frame.
    - apply associate_input_features_body_idem. }
  pose proof (visited_reachable _ _ _ n (associate_input_features_body_not_None mod_)
                Hvisited (all_reachable _ _ Hclosed Hrooted Hacyclic Hn)) as Hsettled.
  apply associate_input_features_body_Some in Hsettled as ([set_by|] & Hnew & Hst').
  - exists set_by. split; [done|]. rewrite Hst', meta_set_meta. done.
  - exfalso. revert Hnew. apply new_input_features_set_by_not_None.
    intros i Hi. destruct (Hclosed _ _ Hn Hi) as (p & Hp & <-).
    by apply (associate_input_features_complete mod_).
Qed.

(** After the three passes, every node of the graph carries the values of
    the six predicates. *)
Lemma annotate_graph_static u mod_ rules fuel st st' n :
  distinct_nodes (graph mod_) → closed (graph mod_) → rooted (graph mod_) →
  acyclic (graph mod_) →
  annotate_graph u mod_ rules fuel st = Some (ret st') →
  n ∈ graph mod_ →
  classification_flags (meta st' (name n)) = Some <$> classifiers n mod_.
Proof.
  intros Hdistinct Hclosed Hrooted Hacyclic
    (st1 & st2 & H1 & H2 & H3)%annotate_graph_passes Hn.
  destruct (associate_input_features_static _ _ _ _ H3) as [Hs3 _].
  destruct (add_features_calculator_static _ _ _ _ _ H2) as [Hs2 _].
  pose proof (add_node_properties_settles _ _ _ _ _ n Hdistinct H1
                (all_reachable _ _ Hclosed Hrooted Hacyclic Hn)) as Hs1.
  apply meta_lookup in Hs1.
  rewrite <-(static_classification_flags _ _ (Hs3 (name n))),
    <-(static_classification_flags _ _ (Hs2 (name n))).
  by rewrite Hs1.
Qed.

Lemma bind_ret_inv {A B} (r : Result A) (k : A → Result B) b :
  bind r k = ret b → ∃ a, r = ret a ∧ k a = ret b.
Proof. destruct r as [e|a]; [done|]. intros H. by exists a. Qed.

Lemma getitem_ret_inv {A} key (o : option A) a : getitem key o = ret a → o = Some a.
Proof. destruct o; [|done]. by intros [= ->]. Qed.

Lemma index_ret_inv {A} (l : list A) i a : index l i = ret a → l !! i = Some a.
Proof. unfold index. destruct (l !! i); [|done]. by intros [= ->]. Qed.

(** The predicates exclude one another. *)
Lemma classifiers_exclusive n mod_ i j :
  classifiers n mod_ !! i = Some true → classifiers n mod_ !! j = Some true → i = j.
Proof.
  pose proof (count_true_classifiers n mod_) as Hcount. revert Hcount.
  unfold classifiers.
  destruct (is_features_propagating_op n mod_), (is_features_defining_op n mod_),
    (is_shared_input_features_op n mod_), (is_flatten n mod_), (is_squeeze n mod_),
    (is_features_concatenate n mod_);
    vm_compute; try lia; intros _;
    destruct i as [|[|[|[|[|[|i]]]]]]; try done;
    destruct j as [|[|[|[|[|[|j]]]]]]; done.
Qed.

Lemma concat_calculators_inv st (l : list nat) fcs :
  foldr (λ prev acc,
           let! fc := getitem "features_calculator" (features_calculator (meta st prev)) in
           let! fcs := acc in ret (fc :: fcs))
        (ret []) l = ret fcs →
  Forall2 (λ i fc, features_calculator (meta st i) = Some fc) l fcs.
Proof.
  revert fcs. induction l as [|i l IH]; intros fcs; simpl.
  - intros [= <-]. constructor.
  - intros (fc & Hfc%getitem_ret_inv & (fcs' & Hfcs & [= <-])%bind_ret_inv)%bind_ret_inv.
    constructor; [done|by apply IH].
Qed.

Lemma features_concat fcs :
  features (ConcatFeaturesCalculator fcs) = foldr Z.add 0 (features <$> fcs).
Proof. induction fcs as [|fc fcs IH]; [done|]. simpl in *. by rewrite IH. Qed.

(** X7: the calculators after the three passes on an acyclic graph of distinct
    nodes whose inputs are its placeholders, for a node that no extra rule
    handles.  A channel concatenation carries the concatenation of the final
    calculators of its inputs, in input order, whose value is the sum of
    theirs; a features-defining node carries the constant [shape[1]] of its
    own shape; a features-propagating or shared-input node carries the final
    calculator of its first input. *)
Theorem calculators_after_annotation is_untouchable_op mod_ rules fuel st st' n :
  distinct_nodes (graph mod_) → closed (graph mod_) → rooted (graph mod_) →
  acyclic (graph mod_) →
  annotate_graph is_untouchable_op mod_ rules fuel st = Some (ret st') →
  n ∈ graph mod_ →
  first_rule rules n mod_ = None →
  (is_features_concatenate n mod_ = true →
   ∃ fcs, Forall2 (λ i fc, features_calculator (meta st' i) = Some fc)
                  (all_input_nodes n) fcs
          ∧ features_calculator (meta st' (name n)) = Some (ConcatFeaturesCalculator fcs)
          ∧ features (ConcatFeaturesCalculator fcs) = foldr Z.add 0 (features <$> fcs))
  ∧ (is_features_defining_op n mod_ = true →
     ∃ shape c, tensor_meta (meta st' (name n)) = Some shape
                ∧ shape !! 1%nat = Some c
                ∧ features_calculator (meta st' (name n))
                  = Some (ConstFeaturesCalculator c))
  ∧ (is_features_propagating_op n mod_ = true
     ∨ is_shared_input_features_op n mod_ = true →
     ∃ i0 fc, head (all_input_nodes n) = Some i0
              ∧ features_calculator (meta st' i0) = Some fc
              ∧ features_calculator (meta st' (name n)) = Some fc).
Proof.
  intros Hdistinct Hclosed Hrooted Hacyclic Hrun Hn Hrule.
  pose proof (annotate_graph_static _ _ _ _ _ _ n Hdistinct Hclosed Hrooted Hacyclic
                Hrun Hn) as Hflags.
  destruct (annotate_graph_passes _ _ _ _ _ _ Hrun) as (st1 & st2 & H1 & H2 & H3).
  destruct (associate_input_features_static _ _ _ _ H3) as [Hstatic Hcalc].
  destruct (add_features_calculator_settles _ _ _ _ _ n Hdistinct Hclosed Hrooted
              Hacyclic H2 Hn) as (fc & Hnew & Hfc).
  rewrite (new_features_calculator_ext _ _ _ _ st' Hstatic) in Hnew
    by (intros; symmetry; apply Hcalc).
  rewrite <-Hcalc in Hfc. clear H1 H2 H3 Hstatic Hcalc Hrun st1 st2.
  injection Hflags as Hp Hd Hs Hf Hq Hc.
  unfold new_features_calculator in Hnew. cbv zeta in Hnew.
  rewrite Hrule, Hf, Hq, Hc, Hs, Hd, Hp in Hnew.
  pose proof (classifiers_exclusive n mod_) as Hex. unfold classifiers in Hex.
  split; [|split].
  - intros Hconcat. rewrite Hconcat in *.
    assert (is_flatten n mod_ = false) as Eflat.
    { apply not_true_is_false. intros E. rewrite E in Hex. by specialize (Hex 3%nat 5%nat eq_refl eq_refl). }
    assert (is_squeeze n mod_ = false) as Esq.
    { apply not_true_is_false. intros E. rewrite E in Hex. by specialize (Hex 4%nat 5%nat eq_refl eq_refl). }
    rewrite Eflat, Esq in Hnew. simpl in Hnew.
    apply bind_ret_inv in Hnew as (fcs & Hfcs%concat_calculators_inv & [= <-]).
    exists fcs. auto using features_concat.
  - intros Hdef. rewrite Hdef in *.
    assert (is_flatten n mod_ = false) as Eflat.
    { apply not_true_is_false. intros E. rewrite E in Hex. by specialize (Hex 3%nat 1%nat eq_refl eq_refl). }
    assert (is_squeeze n mod_ = false) as Esq.
    { apply not_true_is_false. intros E. rewrite E in Hex. by specialize (Hex 4%nat 1%nat eq_refl eq_refl). }
    assert (is_features_concatenate n mod_ = false) as Econcat.
    { apply not_true_is_false. intros E. rewrite E in Hex. by specialize (Hex 5%nat 1%nat eq_refl eq_refl). }
    assert (is_shared_input_features_op n mod_ = false) as Eshared.
    { apply not_true_is_false. intros E. rewrite E in Hex. by specialize (Hex 2%nat 1%nat eq_refl eq_refl). }
    rewrite Eflat, Esq, Econcat, Eshared in Hnew. simpl in Hnew.
    apply bind_ret_inv in Hnew
      as (shape & Hshape%getitem_ret_inv & (c & Hc1%index_ret_inv & [= <-])%bind_ret_inv).
    by exists shape, c.
  - intros Hkind.
    assert (is_flatten n mod_ = false) as Eflat.
    { apply not_true_is_false. intros E. rewrite E in Hex.
      destruct Hkind as [E'|E']; rewrite E' in Hex;
        [by specialize (Hex 3%nat 0%nat eq_refl eq_refl)|by specialize (Hex 3%nat 2%nat eq_refl eq_refl)]. }
    assert (is_squeeze n mod_ = false) as Esq.
    { apply not_true_is_false. intros E. rewrite E in Hex.
      destruct Hkind as [E'|E']; rewrite E' in Hex;
        [by specialize (Hex 4%nat 0%nat eq_refl eq_refl)|by specialize (Hex 4%nat 2%nat eq_refl eq_refl)]. }
    assert (is_features_concatenate n mod_ = false) as Econcat.
    { apply not_true_is_false. intros E. rewrite E in Hex.
      destruct Hkind as [E'|E']; rewrite E' in Hex;
        [by specialize (Hex 5%nat 0%nat eq_refl eq_refl)|by specialize (Hex 5%nat 2%nat eq_refl eq_refl)]. }
    rewrite Eflat, Esq, Econcat in Hnew. simpl in Hnew.
    assert (∃ i0, index (all_input_nodes n) 0 = ret i0
                  ∧ getitem "features_calculator" (features_calculator (meta st' i0))
                    = ret fc) as (i0 & Hi0%index_ret_inv & Hfc0%getitem_ret_inv).
    { destruct (is_shared_input_features_op n mod_) eqn:Eshared.
      - by apply bind_ret_inv in Hnew.
      - destruct Hkind as [Eprop|]; [|done].
        assert (is_features_defining_op n mod_ = false) as Edef.
        { apply not_true_is_false. intros E. rewrite E, Eprop in Hex.
          by specialize (Hex 1%nat 0%nat eq_refl eq_refl). }
        rewrite Edef, Eprop in Hnew. by apply bind_ret_inv in Hnew. }
    exists i0, fc. split; [|done]. by destruct (all_input_nodes n).
Qed.

Lemma calculators_after_annotation_witness :
  let n := node 3 call_function (TFunc torch_cat) [ANodes [1%nat; 2%nat]; AInt 1]
             [1%nat; 2%nat] in
  ∃ st',
    annotate_graph (λ _, false) concat_example [] 9 (concat_example_shapes 8 8)
    = Some (ret st')
    ∧ (is_features_concatenate n concat_example = true →
       ∃ fcs, Forall2 (λ i fc, features_calculator (meta st' i) = Some fc)
                      (all_input_nodes n) fcs
              ∧ features_calculator (meta st' (name n)) = Some (ConcatFeaturesCalculator fcs)
              ∧ features (ConcatFeaturesCalculator fcs) = foldr Z.add 0 (features <$> fcs))
    ∧ (is_features_defining_op n concat_example = true →
       ∃ shape c, tensor_meta (meta st' (name n)) = Some shape
                  ∧ shape !! 1%nat = Some c
                  ∧ features_calculator (meta st' (name n))
                    = Some (ConstFeaturesCalculator c))
    ∧ (is_features_propagating_op n concat_example = true
       ∨ is_shared_input_features_op n concat_example = true →
       ∃ i0 fc, head (all_input_nodes n) = Some i0
                ∧ features_calculator (meta st' i0) = Some fc
                ∧ features_calculator (meta st' (name n)) = Some fc).
Proof.
  intros n. eexists. split; [vm_compute; reflexivity|].
  apply (calculators_after_annotation (λ _, false) concat_example [] 9
           (concat_example_shapes 8 8) _ n).
  - apply (bool_decide_unpack _); vm_compute; exact I.
  - apply closed_Forall, (bool_decide_unpack _); vm_compute; exact I.
  - apply rooted_Forall, (bool_decide_unpack _); vm_compute; exact I.
  - apply (acyclic_Forall _ id), (bool_decide_unpack _); vm_compute; exact I.
  - vm_compute. reflexivity.
  - simpl. do 3 apply list_elem_of_further. apply list_elem_of_here.
  - reflexivity.
Defined.

(** The back-reference that the association stores in a node with a
    predecessor that is no concatenation: the first predecessor, if that is a
    concatenation, a features-defining node or a reshape of the channels, and
    else the back-reference of the first predecessor, which is then a
    reshape or a features-propagating node. *)
Lemma new_input_features_set_by_inv mod_ n st set_by prev rest :
  new_input_features_set_by mod_ n st = ret (Some set_by) →
  features_concatenate (meta st (name n)) = Some false →
  all_input_nodes n = prev :: rest →
  (set_by = ByNode prev
   ∧ (flatten (meta st prev) = Some true ∨ squeeze (meta st prev) = Some true
      ∨ features_concatenate (meta st prev) = Some true
      ∨ features_defining (meta st prev) = Some true))
  ∨ (input_features_set_by (meta st prev) = Some set_by
     ∧ (flatten (meta st prev) = Some true ∨ squeeze (meta st prev) = Some true
        ∨ features_propagating (meta st prev) = Some true)).
Proof.
  unfold new_input_features_set_by. cbv zeta. intros H Hconcat Hin.
  rewrite Hin, Hconcat in H.
  rewrite bool_decide_eq_true_2 in H by (simpl; lia).
  apply bind_ret_inv in H as (is_concat & [= <-] & H).
  apply bind_ret_inv in H as (prev' & [= <-] & H).
  destruct (input_features_set_by (meta st prev)) as [prev_set_by|]; [|done].
  apply bind_ret_inv in H as ([] & Hflat%getitem_ret_inv & H).
  { apply bind_ret_inv in H as (prev_node & _ & H).
    apply bind_ret_inv in H as (p0 & _ & H).
    apply bind_ret_inv in H as (input_shape & _ & H).
    apply bind_ret_inv in H as ([] & _ & H).
    apply bind_ret_inv in H as ([] & _ & H); injection H as <-; auto. }
  apply bind_ret_inv in H as ([] & Hsq%getitem_ret_inv & H).
  { apply bind_ret_inv in H as (prev_node & _ & H).
    apply bind_ret_inv in H as (p0 & _ & H).
    apply bind_ret_inv in H as (input_shape & _ & H).
    destruct (bool_decide _); [done|].
    apply bind_ret_inv in H as ([] & _ & H).
    apply bind_ret_inv in H as ([] & _ & H); injection H as <-; auto. }
  apply bind_ret_inv in H as ([] & Hcat%getitem_ret_inv & H).
  { injection H as <-. auto 6. }
  apply bind_ret_inv in H as ([] & Hdef%getitem_ret_inv & H).
  { injection H as <-. auto 6. }
  apply bind_ret_inv in H as ([] & Hprop%getitem_ret_inv & H); [|done].
  injection H as <-. auto 6.
Qed.

Lemma flags_classifiers m n mod_ :
  classification_flags m = Some <$> classifiers n mod_ →
  features_propagating m = Some (is_features_propagating_op n mod_)
  ∧ features_defining m = Some (is_features_defining_op n mod_)
  ∧ shared_input_features m = Some (is_shared_input_features_op n mod_)
  ∧ flatten m = Some (is_flatten n mod_)
  ∧ squeeze m = Some (is_squeeze n mod_)
  ∧ features_concatenate m = Some (is_features_concatenate n mod_).
Proof. by intros [= -> -> -> -> -> ->]. Qed.

Lemma rooted_defining g mod_ n :
  rooted g → n ∈ g → all_input_nodes n = [] → is_features_defining_op n mod_ = true.
Proof.
  intros Hrooted Hn Hin. unfold is_features_defining_op.
  rewrite Hin. apply Hrooted in Hin; [|done]. by rewrite Hin.
Qed.

Lemma sets_features_exclusive n mod_ :
  sets_features n mod_ = true →
  is_features_propagating_op n mod_ = false ∧ is_shared_input_features_op n mod_ = false.
Proof.
  pose proof (classifiers_exclusive n mod_) as Hex. unfold classifiers in Hex.
  unfold sets_features. intros H.
  split; apply not_true_is_false; intros E; rewrite E in Hex.
  - destruct (is_features_defining_op n mod_);
      [by specialize (Hex 0%nat 1%nat eq_refl eq_refl)|].
    destruct (is_features_concatenate n mod_);
      [by specialize (Hex 0%nat 5%nat eq_refl eq_refl)|].
    destruct (is_flatten n mod_); [by specialize (Hex 0%nat 3%nat eq_refl eq_refl)|].
    destruct (is_squeeze n mod_); [by specialize (Hex 0%nat 4%nat eq_refl eq_refl)|done].
  - destruct (is_features_defining_op n mod_);
      [by specialize (Hex 2%nat 1%nat eq_refl eq_refl)|].
    destruct (is_features_concatenate n mod_);
      [by specialize (Hex 2%nat 5%nat eq_refl eq_refl)|].
    destruct (is_flatten n mod_); [by specialize (Hex 2%nat 3%nat eq_refl eq_refl)|].
    destruct (is_squeeze n mod_); [by specialize (Hex 2%nat 4%nat eq_refl eq_refl)|done].
Qed.

(** X8: the back-references after the three passes on an acyclic graph of
    distinct nodes whose inputs are its placeholders.  A channel
    concatenation refers to the list of its inputs; every other node refers
    to one node of the graph, which is features-defining, a concatenation, a
    flatten or a squeeze, and never a features-propagating or shared-input
    node. *)
Theorem back_references_after_annotation is_untouchable_op mod_ rules fuel st st' n :
  distinct_nodes (graph mod_) → closed (graph mod_) → rooted (graph mod_) →
  acyclic (graph mod_) →
  annotate_graph is_untouchable_op mod_ rules fuel st = Some (ret st') →
  n ∈ graph mod_ →
  if is_features_concatenate n mod_
  then input_features_set_by (meta st' (name n)) = Some (ByList (all_input_nodes n))
  else ∃ p, p ∈ graph mod_
            ∧ input_features_set_by (meta st' (name n)) = Some (ByNode (name p))
            ∧ sets_features p mod_ = true
            ∧ is_features_propagating_op p mod_ = false
            ∧ is_shared_input_features_op p mod_ = false.
Proof.
  intros Hdistinct Hclosed Hrooted Hacyclic Hrun.
  pose proof (λ n, annotate_graph_static _ _ _ _ _ _ n Hdistinct Hclosed Hrooted Hacyclic
                     Hrun) as Hflags.
  destruct (annotate_graph_passes _ _ _ _ _ _ Hrun) as (st1 & st2 & _ & _ & H3).
  pose proof (λ n, associate_input_features_settles _ _ _ _ n Hdistinct Hclosed Hrooted
                     Hacyclic H3) as Hsettles.
  clear Hrun H3 st1 st2. pose proof Hacyclic as [rank Hrank].
  cut (∀ k n, (rank (name n) < k)%nat → n ∈ graph mod_ →
         if is_features_concatenate n mod_
         then input_features_set_by (meta st' (name n)) = Some (ByList (all_input_nodes n))
         else ∃ p, p ∈ graph mod_
                   ∧ input_features_set_by (meta st' (name n)) = Some (ByNode (name p))
                   ∧ sets_features p mod_ = true).
  { intros H Hn. specialize (H (S (rank (name n))) n (Nat.lt_succ_diag_r _) Hn).
    destruct (is_features_concatenate n mod_); [done|].
    destruct H as (p & Hp & Hby & Hkind). exists p.
    destruct (sets_features_exclusive _ _ Hkind). auto. }
  clear n. intros k. induction k as [|k IH]; intros n Hk Hn; [lia|].
  destruct (Hsettles n Hn) as (set_by & Hnew & ->).
  destruct (flags_classifiers _ _ _ (Hflags n Hn)) as (_ & _ & _ & _ & _ & Hconcat).
  destruct (all_input_nodes n) as [|prev rest] eqn:Hin.
  - assert (is_features_defining_op n mod_ = true) as Hdef by by eapply rooted_defining.
    assert (is_features_concatenate n mod_ = false) as ->.
    { apply not_true_is_false. intros E.
      pose proof (classifiers_exclusive n mod_ 1 5) as Hex. unfold classifiers in Hex.
      rewrite Hdef, E in Hex. by specialize (Hex eq_refl eq_refl). }
    unfold new_input_features_set_by in Hnew. rewrite Hin in Hnew.
    injection Hnew as <-. exists n. unfold sets_features. by rewrite Hdef.
  - destruct (is_features_concatenate n mod_) eqn:Econcat.
    + unfold new_input_features_set_by in Hnew. cbv zeta in Hnew.
      rewrite Hin, Hconcat in Hnew.
      rewrite bool_decide_eq_true_2 in Hnew by (simpl; lia).
      apply bind_ret_inv in Hnew as (is_concat & [= <-] & Hnew).
      unfold ret in Hnew. by destruct (negb _); simplify_eq.
    + destruct (Hclosed n prev Hn) as (p & Hp & Hprev); [rewrite Hin; left|].
      subst prev.
      assert (rank (name p) < k)%nat as Hrank_p.
      { assert (rank (name p) < rank (name n))%nat; [|lia].
        apply Hrank; [done|]. rewrite Hin. left. }
      destruct (flags_classifiers _ _ _ (Hflags p Hp)) as (Hp_prop & Hp_def & _ & Hp_flat
        & Hp_sq & Hp_cat).
      destruct (new_input_features_set_by_inv _ _ _ _ _ _ Hnew Hconcat Hin)
        as [[-> Hkind]|[Hby Hkind]].
      * exists p. split; [done|]. split; [done|].
        unfold sets_features.
        rewrite Hp_flat, Hp_sq, Hp_cat, Hp_def in Hkind.
        destruct Hkind as [[= ->]|[[= ->]|[[= ->]|[= ->]]]];
          by rewrite ?orb_true_r.
      * specialize (IH p Hrank_p Hp).
        assert (is_features_concatenate p mod_ = false) as Ecat.
        { apply not_true_is_false. intros E.
          pose proof (classifiers_exclusive p mod_) as Hex. unfold classifiers in Hex.
          rewrite E in Hex. rewrite Hp_flat, Hp_sq, Hp_prop in Hkind.
          destruct Hkind as [[= E']|[[= E']|[= E']]]; rewrite E' in Hex.
          - by specialize (Hex 3%nat 5%nat eq_refl eq_refl).
          - by specialize (Hex 4%nat 5%nat eq_refl eq_refl).
          - by specialize (Hex 0%nat 5%nat eq_refl eq_refl). }
        rewrite Ecat in IH. destruct IH as (q & Hq & Hby' & Hkind').
        exists q. split; [done|]. split; [|done]. congruence.
Qed.

Lemma back_references_after_annotation_witness :
  ∃ st',
    annotate_graph (λ _, false) concat_example [] 9 (concat_example_shapes 8 8)
    = Some (ret st')
    ∧ ∃ p, p ∈ graph concat_example
           ∧ input_features_set_by (meta st' 4) = Some (ByNode (name p))
           ∧ sets_features p concat_example = true
           ∧ is_features_propagating_op p concat_example = false
           ∧ is_shared_input_features_op p concat_example = false.
Proof.
  eexists. split; [vm_compute; reflexivity|].
  apply (back_references_after_annotation (λ _, false) concat_example [] 9
           (concat_example_shapes 8 8) _
           (node 4 call_module (TStr "conv3") [ANode 3] [3%nat])).
  - apply (bool_decide_unpack _); vm_compute; exact I.
  - apply closed_Forall, (bool_decide_unpack _); vm_compute; exact I.
  - apply rooted_Forall, (bool_decide_unpack _); vm_compute; exact I.
  - apply (acyclic_Forall _ id), (bool_decide_unpack _); vm_compute; exact I.
  - vm_compute. reflexivity.
  - simpl. do 4 apply list_elem_of_further. apply list_elem_of_here.
Defined.

(** X9: [associate_input_features] has no branch for a shared-input predecessor
    (lines 202-205 are commented out): on an acyclic graph of distinct nodes
    whose predecessors are nodes of the graph and whose nodes without
    predecessors are the placeholders, so that the walk reaches every node,
    and in which a node that is no channel concatenation has an addition or
    subtraction of several inputs as first input, no run of the three passes
    ends without an exception. *)
Theorem shared_input_successor_rejected is_untouchable_op mod_ rules fuel st st' n p :
  distinct_nodes (graph mod_) → closed (graph mod_) → rooted (graph mod_) →
  acyclic (graph mod_) →
  n ∈ graph mod_ → p ∈ graph mod_ →
  head (all_input_nodes n) = Some (name p) →
  is_shared_input_features_op p mod_ = true →
  is_features_concatenate n mod_ = false →
  annotate_graph is_untouchable_op mod_ rules fuel st ≠ Some (ret st').
Proof.
  intros Hdistinct Hclosed Hrooted Hacyclic Hn Hp Hhead Hshared Hconcat Hrun.
  pose proof (λ n, annotate_graph_static _ _ _ _ _ _ n Hdistinct Hclosed Hrooted Hacyclic
                     Hrun) as Hflags.
  destruct (annotate_graph_passes _ _ _ _ _ _ Hrun) as (st1 & st2 & _ & _ & H3).
  destruct (associate_input_features_settles _ _ _ _ n Hdistinct Hclosed Hrooted
              Hacyclic H3 Hn) as (set_by & Hnew & _).
  destruct (all_input_nodes n) as [|prev rest] eqn:Hin; [done|].
  injection Hhead as ->.
  destruct (flags_classifiers _ _ _ (Hflags n Hn)) as (_ & _ & _ & _ & _ & Hn_cat).
  rewrite Hconcat in Hn_cat.
  destruct (flags_classifiers _ _ _ (Hflags p Hp)) as (Hp_prop & Hp_def & _ & Hp_flat
    & Hp_sq & Hp_cat).
  pose proof (classifiers_exclusive p mod_) as Hex. unfold classifiers in Hex.
  rewrite Hshared in Hex.
  destruct (new_input_features_set_by_inv _ _ _ _ _ _ Hnew Hn_cat Hin)
    as [[_ Hkind]|[_ Hkind]];
    rewrite Hp_flat, Hp_sq, ?Hp_cat, ?Hp_def, ?Hp_prop in Hkind.
  - destruct Hkind as [[= E]|[[= E]|[[= E]|[= E]]]]; rewrite E in Hex.
    + by specialize (Hex 2%nat 3%nat eq_refl eq_refl).
    + by specialize (Hex 2%nat 4%nat eq_refl eq_refl).
    + by specialize (Hex 2%nat 5%nat eq_refl eq_refl).
    + by specialize (Hex 2%nat 1%nat eq_refl eq_refl).
  - destruct Hkind as [[= E]|[[= E]|[= E]]]; rewrite E in Hex.
    + by specialize (Hex 2%nat 3%nat eq_refl eq_refl).
    + by specialize (Hex 2%nat 4%nat eq_refl eq_refl).
    + by specialize (Hex 2%nat 0%nat eq_refl eq_refl).
Qed.

Lemma shared_input_successor_rejected_witness :
  is_shared_input_features_op
    (node 2 call_function (TFunc operator_add) [ANode 1; ANode 0] [1%nat; 0%nat])
    residual_example = true
  ∧ ∀ fuel st st',
      annotate_graph (λ _, false) residual_example [] fuel st ≠ Some (ret st').
Proof.
  split; [reflexivity|]. intros fuel st st'.
  apply (shared_input_successor_rejected (λ _, false) residual_example [] fuel st st'
           (node 3 call_function (TFunc F_relu) [ANode 2] [2%nat])
           (node 2 call_function (TFunc operator_add) [ANode 1; ANode 0] [1%nat; 0%nat])).
  - apply (bool_decide_unpack _); vm_compute; exact I.
  - apply closed_Forall, (bool_decide_unpack _); vm_compute; exact I.
  - apply rooted_Forall, (bool_decide_unpack _); vm_compute; exact I.
  - apply (acyclic_Forall _ id), (bool_decide_unpack _); vm_compute; exact I.
  - simpl. do 3 apply list_elem_of_further. apply list_elem_of_here.
  - simpl. do 2 apply list_elem_of_further. apply list_elem_of_here.
  - reflexivity.
  - reflexivity.
  - reflexivity.
Defined.

(** X10: the back-reference of a node that is no channel concatenation, after the
    three passes on an acyclic graph of distinct nodes whose inputs are its
    placeholders, by the kind of its first input [p].  It is [p] for a
    features-defining node or a concatenation, the back-reference of [p] for
    a features-propagating node, and for a flatten or a squeeze it is [p]
    when the reshape includes the channels and the back-reference of [p]
    otherwise. *)
Theorem back_reference_of_predecessor is_untouchable_op mod_ rules fuel st st' n p :
  distinct_nodes (graph mod_) → closed (graph mod_) → rooted (graph mod_) →
  acyclic (graph mod_) →
  annotate_graph is_untouchable_op mod_ rules fuel st = Some (ret st') →
  n ∈ graph mod_ → p ∈ graph mod_ →
  head (all_input_nodes n) = Some (name p) →
  is_features_concatenate n mod_ = false →
  (is_features_defining_op p mod_ = true ∨ is_features_concatenate p mod_ = true →
   input_features_set_by (meta st' (name n)) = Some (ByNode (name p)))
  ∧ (is_features_propagating_op p mod_ = true →
     input_features_set_by (meta st' (name n)) = input_features_set_by (meta st' (name p)))
  ∧ (is_flatten p mod_ = true →
     ∃ input_shape channels,
       first_input_shape st' p = Some input_shape
       ∧ includes_channels input_shape (try_get_args p 1 "start_dim" (AInt 0)) = ret channels
       ∧ input_features_set_by (meta st' (name n))
         = if channels then Some (ByNode (name p))
           else input_features_set_by (meta st' (name p)))
  ∧ (is_squeeze p mod_ = true →
     ∃ input_shape channels,
       first_input_shape st' p = Some input_shape
       ∧ includes_channels input_shape (try_get_args p 1 "dim" ANone) = ret channels
       ∧ input_features_set_by (meta st' (name n))
         = if channels then Some (ByNode (name p))
           else input_features_set_by (meta st' (name p))).
Proof.
  intros Hdistinct Hclosed Hrooted Hacyclic Hrun Hn Hp Hhead Hconcat.
  pose proof (λ n, annotate_graph_static _ _ _ _ _ _ n Hdistinct Hclosed Hrooted Hacyclic
                     Hrun) as Hflags.
  destruct (annotate_graph_passes _ _ _ _ _ _ Hrun) as (st1 & st2 & _ & _ & H3).
  destruct (associate_input_features_settles _ _ _ _ n Hdistinct Hclosed Hrooted
              Hacyclic H3 Hn) as (set_by & Hnew & ->).
  clear Hrun H3 st1 st2.
  destruct (all_input_nodes n) as [|prev rest] eqn:Hin; [done|].
  injection Hhead as ->.
  destruct (flags_classifiers _ _ _ (Hflags n Hn)) as (_ & _ & _ & _ & _ & Hn_cat).
  rewrite Hconcat in Hn_cat.
  destruct (flags_classifiers _ _ _ (Hflags p Hp)) as (Hp_prop & Hp_def & _ & Hp_flat
    & Hp_sq & Hp_cat).
  pose proof (classifiers_exclusive p mod_) as Hex. unfold classifiers in Hex.
  unfold new_input_features_set_by in Hnew. cbv zeta in Hnew.
  rewrite Hin, Hn_cat in Hnew.
  rewrite bool_decide_eq_true_2 in Hnew by (simpl; lia).
  apply bind_ret_inv in Hnew as (is_concat & [= <-] & Hnew).
  apply bind_ret_inv in Hnew as (prev' & [= <-] & Hnew).
  destruct (input_features_set_by (meta st' (name p))) as [prev_set_by|]; [|done].
  rewrite Hp_flat, Hp_sq, Hp_cat, Hp_def, Hp_prop in Hnew.
  rewrite (get_node_elem_of _ _ Hdistinct Hp) in Hnew.
  unfold first_input_shape.
  split; [|split; [|split]].
  - intros Hkind.
    assert (is_flatten p mod_ = false) as Eflat.
    { apply not_true_is_false. intros E. rewrite E in Hex.
      destruct Hkind as [E'|E']; rewrite E' in Hex;
        [by specialize (Hex 3%nat 1%nat eq_refl eq_refl)
        |by specialize (Hex 3%nat 5%nat eq_refl eq_refl)]. }
    assert (is_squeeze p mod_ = false) as Esq.
    { apply not_true_is_false. intros E. rewrite E in Hex.
      destruct Hkind as [E'|E']; rewrite E' in Hex;
        [by specialize (Hex 4%nat 1%nat eq_refl eq_refl)
        |by specialize (Hex 4%nat 5%nat eq_refl eq_refl)]. }
    rewrite Eflat, Esq in Hnew. cbn [getitem bind ret] in Hnew.
    destruct (is_features_concatenate p mod_); [by injection Hnew as <-|].
    destruct Hkind as [E|E]; [|done]. rewrite E in Hnew. by injection Hnew as <-.
  - intros Hprop.
    assert (is_flatten p mod_ = false) as Eflat.
    { apply not_true_is_false. intros E. rewrite E, Hprop in Hex.
      by specialize (Hex 3%nat 0%nat eq_refl eq_refl). }
    assert (is_squeeze p mod_ = false) as Esq.
    { apply not_true_is_false. intros E. rewrite E, Hprop in Hex.
      by specialize (Hex 4%nat 0%nat eq_refl eq_refl). }
    assert (is_features_concatenate p mod_ = false) as Ecat.
    { apply not_true_is_false. intros E. rewrite E, Hprop in Hex.
      by specialize (Hex 5%nat 0%nat eq_refl eq_refl). }
    assert (is_features_defining_op p mod_ = false) as Edef.
    { apply not_true_is_false. intros E. rewrite E, Hprop in Hex.
      by specialize (Hex 1%nat 0%nat eq_refl eq_refl). }
    rewrite Eflat, Esq, Ecat, Edef, Hprop in Hnew. cbn [getitem bind ret] in Hnew.
    by injection Hnew as <-.
  - intros Hflat. rewrite Hflat in Hnew. cbn [getitem bind ret] in Hnew.
    apply bind_ret_inv in Hnew as (p0 & Hp0%index_ret_inv & Hnew).
    apply bind_ret_inv in Hnew as (input_shape & Hshape%getitem_ret_inv & Hnew).
    apply bind_ret_inv in Hnew as ([] & _ & Hnew).
    apply bind_ret_inv in Hnew as (channels & Hchannels & Hnew).
    exists input_shape, channels.
    destruct (all_input_nodes p) as [|p0' rest']; [done|]. injection Hp0 as ->.
    split; [done|]. split; [done|]. by destruct channels; injection Hnew as <-.
  - intros Hsq.
    assert (is_flatten p mod_ = false) as Eflat.
    { apply not_true_is_false. intros E. rewrite E, Hsq in Hex.
      by specialize (Hex 3%nat 4%nat eq_refl eq_refl). }
    rewrite Eflat, Hsq in Hnew. cbn [getitem bind ret] in Hnew.
    apply bind_ret_inv in Hnew as (p0 & Hp0%index_ret_inv & Hnew).
    apply bind_ret_inv in Hnew as (input_shape & Hshape%getitem_ret_inv & Hnew).
    destruct (bool_decide _); [done|].
    apply bind_ret_inv in Hnew as ([] & _ & Hnew).
    apply bind_ret_inv in Hnew as (channels & Hchannels & Hnew).
    exists input_shape, channels.
    destruct (all_input_nodes p) as [|p0' rest']; [done|]. injection Hp0 as ->.
    split; [done|]. split; [done|]. by destruct channels; injection Hnew as <-.
Qed.

Lemma back_reference_of_predecessor_witness :
  ∃ st',
    annotate_graph (λ _, false) concat_example [] 9 (concat_example_shapes 8 8)
    = Some (ret st')
    ∧ (is_features_defining_op (node 0 placeholder (TStr "x") [] []) concat_example = true
       ∨ is_features_concatenate (node 0 placeholder (TStr "x") [] []) concat_example = true
       → input_features_set_by (meta st' 1) = Some (ByNode 0)).
Proof.
  eexists. split; [vm_compute; reflexivity|].
  apply (back_reference_of_predecessor (λ _, false) concat_example [] 9
           (concat_example_shapes 8 8) _
           (node 1 call_module (TStr "conv1") [ANode 0] [0%nat])
           (node 0 placeholder (TStr "x") [] [])).
  - apply (bool_decide_unpack _); vm_compute; exact I.
  - apply closed_Forall, (bool_decide_unpack _); vm_compute; exact I.
  - apply rooted_Forall, (bool_decide_unpack _); vm_compute; exact I.
  - apply (acyclic_Forall _ id), (bool_decide_unpack _); vm_compute; exact I.
  - vm_compute. reflexivity.
  - simpl. apply list_elem_of_further, list_elem_of_here.
  - simpl. apply list_elem_of_here.
  - reflexivity.
  - reflexivity.
Defined.

(** ** The classifier and the lookup of arguments *)

Lemma is_layer_existsb n parent layers :
  existsb (is_layer n parent) layers
  = bool_decide (op n = call_module) && bool_decide (submodule_type n parent ∈ layers).
Proof.
  unfold is_layer. destruct (bool_decide_reflect (op n = call_module)) as [Hop|Hop].
  - rewrite bool_decide_eq_false_2 by (by intros []). simpl.
    induction layers as [|l layers IH]; simpl; [done|]. rewrite IH.
    destruct (bool_decide_reflect (submodule_type n parent = l)) as [->|Hne]; simpl.
    + symmetry. apply bool_decide_eq_true_2. left.
    + apply bool_decide_ext. rewrite elem_of_cons. split; [by right|by intros [?|?]].
  - rewrite bool_decide_eq_true_2 by done. simpl. by induction layers.
Qed.

(** X11: on [call_module] nodes the two classifiers decide as [is_layer] does on
    their allow-lists.  [is_features_defining_op] holds of the placeholders
    without input and of the layers [Conv1d], [Conv2d], [Linear];
    [is_features_propagating_op] holds of the output, of ten layer classes
    ([MaxPool1d] among them, no [MaxPool2d]) and of the calls of [F.relu],
    [F.relu6] and [F.log_softmax]. *)
Theorem classifiers_by_layer n parent :
  is_features_defining_op n parent
  = bool_decide (op n = placeholder) && bool_decide (length (all_input_nodes n) = 0%nat)
    || existsb (is_layer n parent) features_defining_layers
  ∧ is_features_propagating_op n parent
    = bool_decide (op n = output)
      || existsb (is_layer n parent) features_propagating_layers
      || bool_decide (op n = call_function)
         && bool_decide (target n ∈ TFunc <$> features_propagating_functions).
Proof.
  rewrite !is_layer_existsb. split.
  - unfold is_features_defining_op, features_defining_layers. cbv zeta.
    destruct (bool_decide (op n = placeholder) && _); [done|]. simpl.
    destruct (bool_decide (op n = call_module)); [|done]. simpl.
    generalize (submodule_type n parent). intros l.
    by destruct l.
  - unfold is_features_propagating_op, features_propagating_layers,
      features_propagating_functions. cbv zeta.
    destruct (bool_decide_reflect (op n = output)) as [Hop|Hop]; [done|]. simpl.
    destruct (bool_decide_reflect (op n = call_module)) as [Hop'|Hop'].
    + rewrite (bool_decide_eq_false_2 (op n = call_function)) by congruence.
      simpl. rewrite orb_false_r.
      generalize (submodule_type n parent). intros l. by destruct l.
    + simpl. destruct (bool_decide (op n = call_function)); [|done]. simpl.
      destruct (target n) as [f|s].
      * destruct f; try done.
      * done.
Qed.

(** X12: [try_get_args] returns [None] only for a positional [None], or without
    positional argument for a default [None] and a keyword that is missing or
    [None]: a keyword passed as [None] counts as missing. *)
Theorem try_get_args_None n args_idx kwargs_str dflt :
  try_get_args n args_idx kwargs_str dflt = ANone
  ↔ args n !! args_idx = Some ANone
    ∨ (args n !! args_idx = None ∧ dflt = ANone
       ∧ (kwargs n !! kwargs_str = None ∨ kwargs n !! kwargs_str = Some ANone)).
Proof.
  unfold try_get_args. destruct (args n !! args_idx) as [arg|].
  - split; [by intros ->; left|]. by intros [[= ->]|[? _]].
  - destruct (kwargs n !! kwargs_str) as [arg|].
    + destruct (bool_decide_reflect (arg ≠ ANone)) as [Hne|Heq].
      * split; [done|]. by intros [?|(_ & _ & [?|[= ?]])].
      * apply dec_stable in Heq as ->. split; [by right; auto|].
        by intros [?|(_ & -> & _)].
    + split; [by right; auto|]. by intros [?|(_ & -> & _)].
Qed.

(** X13: the squeeze branch of [add_features_calculator], for a first input with
    calculator [ifc] and shape [input_shape].  Without [dim] it raises
    [ValueError]; for an integer [dim] it raises [AssertionError] when [dim]
    is 0 or [len(input_shape)], multiplies [ifc] by [input_shape[2]] when
    [dim] is 1 or [len(input_shape) - 1] (an [IndexError] on a shape of fewer
    than three dimensions), and passes [ifc] on otherwise, as for every
    negative [dim] on a shape of at least one dimension. *)
Theorem squeeze_calculator mod_ rules n st i0 rest ifc input_shape :
  first_rule rules n mod_ = None →
  flatten (meta st (name n)) = Some false →
  squeeze (meta st (name n)) = Some true →
  all_input_nodes n = i0 :: rest →
  features_calculator (meta st i0) = Some ifc →
  tensor_meta (meta st i0) = Some input_shape →
  new_features_calculator mod_ rules n st
  = match try_get_args n 1 "dim" ANone with
    | ANone => raise (ValueError "Squeeze without dim not supported")
    | AInt d =>
        if bool_decide (d = 0 ∨ d = Z.of_nat (length input_shape))
        then raise (AssertionError "Squeezing the batch is not supported")
        else if bool_decide (d = 1 ∨ d = Z.of_nat (length input_shape) - 1)
        then match input_shape !! 2%nat with
             | Some size => ret (FlattenFeaturesCalculator ifc size)
             | None => raise IndexError
             end
        else ret ifc
    | _ => raise TypeError
    end.
Proof.
  intros Hrule Hflat Hsq Hin Hifc Hshape.
  unfold new_features_calculator. cbv zeta.
  rewrite Hrule, Hflat, Hsq, Hin. 
  change (index (i0 :: rest) 0) with (ret i0 : Result nat).
  cbn [getitem bind ret]. rewrite Hifc, Hshape. cbn [getitem bind ret].
  destruct (try_get_args n 1 "dim" ANone) as [d| | | |]; try done.
  unfold assert_not_batch, includes_channels, len_minus, index.
  rewrite (bool_decide_eq_false_2 (AInt d = ANone)) by done.
  destruct (bool_decide_reflect (d = 0)) as [->|Hd0].
  { rewrite (bool_decide_eq_false_2 (AInt 0 ≠ AInt 0)) by (by intros []).
    by rewrite (bool_decide_eq_true_2 (0 = 0 ∨ _)) by (by left). }
  rewrite (bool_decide_eq_true_2 (AInt d ≠ AInt 0)) by congruence.
  cbn [bind ret].
  destruct (bool_decide_reflect (d = Z.of_nat (length input_shape))) as [Hlen|Hlen].
  { rewrite (bool_decide_eq_false_2 (_ - d ≠ 0)) by lia.
    by rewrite (bool_decide_eq_true_2 (d = 0 ∨ _)) by (by right). }
  rewrite (bool_decide_eq_true_2 (_ - d ≠ 0)) by lia.
  rewrite (bool_decide_eq_false_2 (d = 0 ∨ _)) by (by intros [?|?]).
  cbn [bind].
  destruct (bool_decide_reflect (d = 1)) as [->|Hd1].
  { rewrite (bool_decide_eq_true_2 (AInt 1 = AInt 1)) by done.
    rewrite (bool_decide_eq_true_2 (1 = 1 ∨ _)) by (by left). cbn [bind ret].
    by destruct (input_shape !! 2%nat). }
  rewrite (bool_decide_eq_false_2 (AInt d = AInt 1)) by congruence.
  cbn [bind ret].
  destruct (bool_decide_reflect (Z.of_nat (length input_shape) - d = 1)) as [Hc|Hc].
  - rewrite (bool_decide_eq_true_2 (d = 1 ∨ _)) by (right; lia).
    by destruct (input_shape !! 2%nat).
  - by rewrite (bool_decide_eq_false_2 (d = 1 ∨ _)) by (intros [?|?]; lia).
Qed.

Lemma squeeze_calculator_witness :
  new_features_calculator (squeeze_example (AInt 2)) [] (squeeze_node (AInt 2))
    (squeeze_example_store (AInt 2))
  = ret (FlattenFeaturesCalculator (ConstFeaturesCalculator 16) 1).
Proof.
  apply (squeeze_calculator (squeeze_example (AInt 2)) [] (squeeze_node (AInt 2))
           (squeeze_example_store (AInt 2)) 0%nat [] (ConstFeaturesCalculator 16)
           [1; 16; 1]); reflexivity.
Defined.

(** X14: the nodes of [get_input_nodes] and [get_output_nodes] are nodes of the
    graph; of the six predicates, an input node satisfies
    [is_features_defining_op] alone, and that when it has no input, and an
    output node satisfies [is_features_propagating_op] alone. *)
Theorem input_output_nodes_classified g mod_ n :
  (n ∈ get_input_nodes g →
   n ∈ g
   ∧ classifiers n mod_
     = [false; bool_decide (length (all_input_nodes n) = 0%nat); false; false; false; false])
  ∧ (n ∈ get_output_nodes g →
     n ∈ g ∧ classifiers n mod_ = [true; false; false; false; false; false]).
Proof.
  unfold get_input_nodes, get_output_nodes, classifiers, is_features_propagating_op,
    is_features_defining_op, is_shared_input_features_op, is_flatten, is_squeeze,
    is_features_concatenate, is_concatenate.
  split; intros [Hop Hn]%list_elem_of_filter; (split; [done|]); rewrite Hop; simpl.
  - by destruct (bool_decide (length (all_input_nodes n) = 0%nat)),
      (is_zero_or_one_input_op n).
  - by destruct (is_zero_or_one_input_op n).
Qed.

(** ** The order of the passes *)

(** X15: the propagation reads the flags of [add_node_properties].  Where the first
    input node has no ['flatten'] entry and no extra rule gives it a
    calculator, [add_features_calculator] raises [KeyError('flatten')] at that
    node. *)
Theorem add_features_calculator_before_annotation mod_ rules fuel st n queue :
  get_input_nodes (graph mod_) = n :: queue →
  all_input_nodes n = [] →
  first_rule rules n mod_ = None →
  flatten (meta st (name n)) = None →
  add_features_calculator mod_ rules (S fuel) st = Some (raise (KeyError "flatten")).
Proof.
  intros Hqueue Hin Hrule Hflat. unfold add_features_calculator. cbv zeta.
  rewrite Hqueue. cbn [while_queue].
  unfold add_features_calculator_body, skip_flag, new_features_calculator.
  by rewrite Hin, Hrule, Hflat.
Qed.

Lemma add_features_calculator_before_annotation_witness :
  add_features_calculator concat_example [] 1 (concat_example_shapes 8 8)
  = Some (raise (KeyError "flatten")).
Proof.
  apply (add_features_calculator_before_annotation concat_example [] 0
           (concat_example_shapes 8 8) (node 0 placeholder (TStr "x") [] []) []);
    reflexivity.
Defined.

(** ** Termination *)

(** X16: on an acyclic graph the three loops end: some fuel gives, for every
    initial store, a store or an exception. *)
Theorem annotate_graph_terminates is_untouchable_op mod_ rules :
  acyclic (graph mod_) →
  ∃ fuel, ∀ st, is_Some (annotate_graph is_untouchable_op mod_ rules fuel st).
Proof.
  intros Hacyclic.
  destruct (acyclic_walk _ (get_input_nodes (graph mod_)) Hacyclic) as [fuel Hwalk].
  exists fuel. intros st.
  unfold annotate_graph, add_node_properties, add_features_calculator,
    associate_input_features. cbv zeta.
  destruct (walk_terminates _ (add_node_properties_body is_untouchable_op mod_) _ _ _ st
              Hwalk (reflexivity _)) as [[e|st1] ->]; [by eexists|].
  destruct (walk_terminates _ (add_features_calculator_body mod_ rules) _ _ _ st1
              Hwalk (reflexivity _)) as [[e|st2] ->]; [by eexists|].
  apply (walk_terminates _ _ _ _ _ _ Hwalk (reflexivity _)).
Qed.

Lemma annotate_graph_terminates_witness :
  ∃ fuel, ∀ st, is_Some (annotate_graph (λ _, false) residual_example [] fuel st).
Proof.
  apply (annotate_graph_terminates (λ _, false) residual_example []).
  apply (acyclic_Forall _ id), (bool_decide_unpack _); vm_compute; exact I.
Defined.

(** ** Module trees *)

Lemma nn_Module_induction (P : nn_Module → Prop) :
  (∀ c ms, Forall (λ e, P e.2) ms → P (mkModule c ms)) → ∀ m, P m.
Proof.
  intros H. fix IH 1. intros [c ms]. apply H.
  induction ms as [|[name child] ms IHms]; constructor; [apply IH|apply IHms].
Qed.

Lemma named_modules_eq c ms prefix :
  named_modules (mkModule c ms) prefix
  = (prefix, mkModule c ms)
    :: (e ← ms; named_modules e.2 (submodule_prefix prefix e.1)).
Proof.
  simpl. f_equal. induction ms as [|[name child] ms IH]; [done|].
  by rewrite IH.
Qed.

Lemma height_eq c ms : height (mkModule c ms) = S (max_list (height ∘ snd <$> ms)).
Proof.
  simpl. f_equal. induction ms as [|[name child] ms IH]; [done|].
  by rewrite IH.
Qed.

Lemma height_children m child : child ∈ children m → (height child < height m)%nat.
Proof.
  destruct m as [c ms]. rewrite height_eq. unfold children. simpl.
  intros ([name child'] & -> & Hin)%list_elem_of_fmap. simpl.
  assert (height child' ∈ height ∘ snd <$> ms) as Hh.
  { apply list_elem_of_fmap. by exists (name, child'). }
  apply max_list_elem_of_le in Hh. lia.
Qed.

Lemma height_named_modules m prefix e :
  e ∈ named_modules m prefix → (height e.2 ≤ height m)%nat.
Proof.
  revert prefix. induction m as [c ms IH] using nn_Module_induction. intros prefix.
  rewrite named_modules_eq. intros [->|Hin]%elem_of_cons; [done|].
  apply list_elem_of_bind in Hin as ([name child] & Hin & Hchild). simpl in Hin.
  rewrite Forall_forall in IH. specialize (IH _ Hchild _ Hin). simpl in IH.
  assert (height child < height (mkModule c ms))%nat; [|lia].
  apply height_children. apply list_elem_of_fmap. by exists (name, child).
Qed.

(** The modules below [m] do not depend on the prefix of their names. *)
Lemma named_modules_prefix m prefix prefix' :
  snd <$> named_modules m prefix = snd <$> named_modules m prefix'.
Proof.
  revert prefix prefix'. induction m as [c ms IH] using nn_Module_induction.
  intros prefix prefix'. rewrite !named_modules_eq, !fmap_cons. f_equal. simpl.
  induction ms as [|[name child] ms IHms]; [done|].
  apply Forall_cons in IH as [Hchild Hms]. simpl.
  rewrite !fmap_app. f_equal; [apply Hchild|by apply IHms].
Qed.

Lemma named_modules_trans m d child x prefix :
  d ∈ snd <$> named_modules m prefix →
  child ∈ children d →
  x ∈ snd <$> named_modules child prefix →
  x ∈ snd <$> named_modules m prefix.
Proof.
  revert prefix. induction m as [c ms IH] using nn_Module_induction. intros prefix.
  rewrite named_modules_eq, fmap_cons. simpl.
  intros [->|Hd]%elem_of_cons Hchild Hx.
  - right. unfold children in Hchild. simpl in Hchild.
    apply list_elem_of_fmap in Hchild as ([name child'] & -> & Hin).
    apply list_elem_of_fmap.
    rewrite (named_modules_prefix _ _ (submodule_prefix prefix name)) in Hx.
    apply list_elem_of_fmap in Hx as (e & -> & He). exists e. split; [done|].
    apply list_elem_of_bind. by exists (name, child').
  - right. apply list_elem_of_fmap in Hd as (e & -> & He).
    apply list_elem_of_bind in He as ([name child'] & He & Hin). simpl in He.
    rewrite Forall_forall in IH.
    assert (x ∈ snd <$> named_modules child' (submodule_prefix prefix name)) as Hx'.
    { apply (IH _ Hin).
      - apply list_elem_of_fmap. by exists e.
      - done.
      - by rewrite (named_modules_prefix _ _ prefix). }
    apply list_elem_of_fmap in Hx' as (e' & -> & He'). apply list_elem_of_fmap.
    exists e'. split; [done|]. apply list_elem_of_bind. by exists (name, child').
Qed.

(** ** Loops over a list *)

(** A loop whose body appends to the list that it is given appends to it. *)
Lemma for_each_appends {A B} (body : A → list B → option (list B)) l :
  (∀ a, a ∈ l → ∃ found, ∀ s, body a s = Some (s ++ found)) →
  ∃ found, ∀ s, for_each body l s = Some (s ++ found).
Proof.
  induction l as [|a l IH]; intros Hbody.
  - exists []. intros s. by rewrite app_nil_r.
  - destruct (Hbody a) as [found1 H1]; [left|].
    destruct IH as [found2 H2]; [intros b Hb; apply Hbody; by right|].
    exists (found1 ++ found2). intros s. simpl. by rewrite H1, H2, app_assoc.
Qed.

Lemma for_each_found {A B} (body : A → list B → option (list B)) l s s' :
  (∀ a s s', a ∈ l → body a s = Some s' →
     ∃ found, s' = s ++ found ∧ ∀ t, body a t = Some (t ++ found)) →
  for_each body l s = Some s' →
  ∃ found, s' = s ++ found ∧ ∀ t, for_each body l t = Some (t ++ found).
Proof.
  revert s. induction l as [|a l IH]; intros s Hbody; simpl.
  - intros [= <-]. exists []. split; [by rewrite app_nil_r|].
    intros t. by rewrite app_nil_r.
  - destruct (body a s) as [s1|] eqn:Ha; [|done]. intros Hrest.
    destruct (Hbody a s s1) as (found1 & -> & H1); [left|done|].
    destruct (IH (s ++ found1)) as (found2 & -> & H2); [|done|].
    { intros b t t' Hb. apply Hbody. by right. }
    exists (found1 ++ found2). split; [by rewrite app_assoc|].
    intros t. by rewrite H1, H2, app_assoc.
Qed.

Lemma for_each_mono {A B} (body : A → list B → option (list B)) l s s' :
  (∀ a s s', a ∈ l → body a s = Some s' → s ⊆ s') →
  for_each body l s = Some s' → s ⊆ s'.
Proof.
  revert s. induction l as [|b l IH]; intros s Hbody; simpl; [by intros [= <-]|].
  destruct (body b s) as [s1|] eqn:Hb; [|done]. intros Hrest.
  transitivity s1.
  - apply (Hbody b); [left|done].
  - apply IH; [|done]. intros a t t' Ha. apply Hbody. by right.
Qed.

(** The steps of a finished loop *)
Lemma for_each_step {A B} (body : A → list B → option (list B)) l s s' a :
  (∀ a s s', a ∈ l → body a s = Some s' → s ⊆ s') →
  for_each body l s = Some s' →
  a ∈ l →
  ∃ s1 s2, body a s1 = Some s2 ∧ s ⊆ s1 ∧ s2 ⊆ s'.
Proof.
  revert s. induction l as [|b l IH]; intros s Hbody; simpl; [by intros _ ?%elem_of_nil|].
  destruct (body b s) as [s1|] eqn:Hb; [|done]. intros Hrest Ha.
  assert (s ⊆ s1) as Hs1 by (apply (Hbody b); [left|done]).
  assert (∀ a s s', a ∈ l → body a s = Some s' → s ⊆ s') as Hbody'.
  { intros c t t' Hc. apply Hbody. by right. }
  apply elem_of_cons in Ha as [->|Ha].
  - exists s, s1. split; [done|]. split; [done|]. by apply (for_each_mono body l).
  - destruct (IH s1 Hbody' Hrest Ha) as (t1 & t2 & H1 & H2 & H3).
    exists t1, t2. split; [done|]. split; [|done]. by transitivity s1.
Qed.

Lemma for_each_invariant {A S} (body : A → S → option S) (I : S → Prop) l s s' :
  (∀ a s s', a ∈ l → I s → body a s = Some s' → I s') →
  I s → for_each body l s = Some s' → I s'.
Proof.
  revert s. induction l as [|a l IH]; intros s Hbody Hs; simpl; [by intros [= <-]|].
  destruct (body a s) as [s1|] eqn:Ha; [|done]. apply IH.
  - intros b t t' Hb. apply Hbody. by right.
  - apply (Hbody a s); [left|done..].
Qed.

Lemma for_each_ext {A S} (body body' : A → S → option S) l s s' :
  (∀ a s s', a ∈ l → body a s = Some s' → body' a s = Some s') →
  for_each body l s = Some s' → for_each body' l s = Some s'.
Proof.
  revert s. induction l as [|a l IH]; intros s Hbody; simpl; [done|].
  destruct (body a s) as [s1|] eqn:Ha; [|done].
  rewrite (Hbody a s s1) by (done || left). apply IH.
  intros b t t' Hb. apply Hbody. by right.
Qed.

(** ** The modules that [get_supernetModules] collects *)

Lemma get_supernetModules_found fuel target model exclude_names l :
  get_supernetModules fuel target model exclude_names = Some l →
  ∃ found, l = target ++ found
           ∧ ∀ t, get_supernetModules fuel t model exclude_names = Some (t ++ found).
Proof.
  assert (∀ s s' : list (string * nn_Module),
            Some s = Some s' →
            ∃ found, s' = s ++ found ∧ ∀ t, Some t = Some (t ++ found)) as Hskip.
  { intros s s' [= <-]. exists []. split; [by rewrite app_nil_r|].
    intros t. by rewrite app_nil_r. }
  revert target model l. induction fuel as [|fuel IH]; [done|]. intros target model l.
  cbn [get_supernetModules]. apply for_each_found. intros [q m] s s' _. cbn [fst snd].
  destruct (bool_decide (q ≠ "")); [|apply Hskip].
  destruct (bool_decide (class_name m = "SuperNetModule")).
  { destruct (bool_decide (q ∉ exclude_names)); [|apply Hskip].
    intros [= <-]. by exists [(q, m)]. }
  destruct (bool_decide (children m ≠ [])); [|apply Hskip].
  apply for_each_found. intros child t t' _. apply IH.
Qed.

Lemma get_supernetModules_fuel_mono fuel fuel' target model exclude_names l :
  get_supernetModules fuel target model exclude_names = Some l →
  (fuel ≤ fuel')%nat →
  get_supernetModules fuel' target model exclude_names = Some l.
Proof.
  revert fuel' target model l. induction fuel as [|fuel IH]; [done|].
  intros [|fuel'] target model l H Hle; [lia|]. revert H.
  cbn [get_supernetModules]. apply for_each_ext. intros [q m] s s' _. cbn [fst snd].
  destruct (bool_decide (q ≠ "")); [|done].
  destruct (bool_decide (class_name m = "SuperNetModule")); [done|].
  destruct (bool_decide (children m ≠ [])); [|done].
  apply for_each_ext. intros child t t' _ H. apply IH; [done|lia].
Qed.

(** X17: [get_supernetModules] ends, with fuel above the height of the tree of
    modules, and only appends to [target_modules]: what it appends does not
    depend on the list that it is given. *)
Theorem get_supernetModules_appends fuel model exclude_names :
  (height model < fuel)%nat →
  ∃ found, ∀ target_modules,
    get_supernetModules fuel target_modules model exclude_names
    = Some (target_modules ++ found).
Proof.
  revert model. induction fuel as [|fuel IH]; intros model Hfuel; [lia|].
  cbn [get_supernetModules]. apply for_each_appends. intros [q m] Hin. cbn [fst snd].
  destruct (bool_decide (q ≠ "")); [|exists []; intros s; by rewrite app_nil_r].
  destruct (bool_decide (class_name m = "SuperNetModule")).
  { destruct (bool_decide (q ∉ exclude_names)).
    - by exists [(q, m)].
    - exists []. intros s. by rewrite app_nil_r. }
  destruct (bool_decide (children m ≠ [])); [|exists []; intros s; by rewrite app_nil_r].
  apply for_each_appends. intros child Hchild. apply IH.
  apply height_children in Hchild. apply height_named_modules in Hin. simpl in Hin. lia.
Qed.

Lemma get_supernetModules_appends_witness :
  ∃ found, ∀ target_modules,
    get_supernetModules 7 target_modules nested_example []
    = Some (target_modules ++ found).
Proof. apply (get_supernetModules_appends 7 nested_example []). vm_compute. lia. Defined.

Lemma get_supernetModules_mono fuel target model exclude_names l :
  get_supernetModules fuel target model exclude_names = Some l → target ⊆ l.
Proof.
  intros (found & -> & _)%get_supernetModules_found. intros e He.
  apply elem_of_app. by left.
Qed.

Lemma get_supernetModules_body_mono fuel exclude_names (named_module : string * nn_Module)
    s s' :
  (if bool_decide (named_module.1 ≠ "") then
     let submodules := children named_module.2 in
     if bool_decide (class_name named_module.2 = "SuperNetModule") then
       if bool_decide (named_module.1 ∉ exclude_names)
       then Some (s ++ [named_module])
       else Some s
     else if bool_decide (submodules ≠ []) then
       for_each
         (λ child target_modules,
            get_supernetModules fuel target_modules child exclude_names)
         submodules s
     else Some s
   else Some s) = Some s' →
  s ⊆ s'.
Proof.
  cbv zeta. destruct (bool_decide (named_module.1 ≠ "")); [|by intros [= <-]].
  destruct (bool_decide (class_name named_module.2 = "SuperNetModule")).
  { destruct (bool_decide (named_module.1 ∉ exclude_names)); intros [= <-]; [|done].
    intros e He. apply elem_of_app. by left. }
  destruct (bool_decide (children named_module.2 ≠ [])); [|by intros [= <-]].
  apply for_each_mono. intros child t t' _. apply get_supernetModules_mono.
Qed.

(** X18: what [get_supernetModules] collects.  Every [SuperNetModule] below
    [model] whose qualified name is not excluded is in the result under that
    name; every entry that the call adds is a [SuperNetModule] below [model]
    under a non-empty name that is not excluded. *)
Theorem get_supernetModules_collects fuel target_modules model exclude_names l :
  get_supernetModules fuel target_modules model exclude_names = Some l →
  (∀ name m, (name, m) ∈ named_modules model "" →
             name ≠ "" → class_name m = "SuperNetModule" → name ∉ exclude_names →
             (name, m) ∈ l)
  ∧ (∀ e, e ∈ l →
          e ∈ target_modules
          ∨ (class_name e.2 = "SuperNetModule" ∧ e.1 ≠ "" ∧ (e.1 ∉ exclude_names)
             ∧ e.2 ∈ snd <$> named_modules model "")).
Proof.
  intros Hrun. split.
  - destruct fuel as [|fuel]; [done|]. cbn [get_supernetModules] in Hrun.
    intros q m Hin Hq Hclass Hex.
    destruct (for_each_step _ _ _ _ (q, m)
                (λ a s s' _, get_supernetModules_body_mono fuel exclude_names a s s')
                Hrun Hin) as (s1 & s2 & Hbody & _ & Hsub).
    cbn [fst snd] in Hbody. rewrite !bool_decide_eq_true_2 in Hbody by done.
    injection Hbody as <-. apply Hsub, elem_of_app. right. left.
  - revert target_modules model l Hrun.
    induction fuel as [|fuel IH]; [done|]. intros target model l.
    cbn [get_supernetModules].
    apply (for_each_invariant _
             (λ l, ∀ e, e ∈ l →
                e ∈ target
                ∨ (class_name e.2 = "SuperNetModule" ∧ e.1 ≠ "" ∧ (e.1 ∉ exclude_names)
                   ∧ e.2 ∈ snd <$> named_modules model ""))); [|by left].
    intros [q m] s s' Hin Hs. cbn [fst snd].
    destruct (bool_decide_reflect (q ≠ "")) as [Hq|]; [|by intros [= <-]].
    destruct (bool_decide_reflect (class_name m = "SuperNetModule")) as [Hclass|_].
    { destruct (bool_decide_reflect (q ∉ exclude_names)) as [Hex|]; intros [= <-]; [|done].
      intros e [He|He]%elem_of_app; [by apply Hs|].
      apply list_elem_of_singleton in He as ->.
      right. split; [done|]. split; [done|]. split; [done|].
      apply list_elem_of_fmap. by exists (q, m). }
    destruct (bool_decide (children m ≠ [])); [|by intros [= <-]].
    apply (for_each_invariant _
             (λ l, ∀ e, e ∈ l →
                e ∈ target
                ∨ (class_name e.2 = "SuperNetModule" ∧ e.1 ≠ "" ∧ (e.1 ∉ exclude_names)
                   ∧ e.2 ∈ snd <$> named_modules model ""))); [|done].
    intros child t t' Hchild Ht Hrun e He.
    destruct (IH _ _ _ Hrun e He) as [He'|(Hclass & Hname & Hex & Hbelow)];
      [by apply Ht|].
    right. split; [done|]. split; [done|]. split; [done|].
    apply (named_modules_trans model m child); [|done..].
    apply list_elem_of_fmap. by exists (q, m).
Qed.

Lemma get_supernetModules_collects_witness :
  ∃ l,
    get_supernetModules 7 [] nested_example ["a.b.s"] = Some l
    ∧ (∀ name m, (name, m) ∈ named_modules nested_example "" →
                 name ≠ "" → class_name m = "SuperNetModule" → name ∉ ["a.b.s"] →
                 (name, m) ∈ l)
    ∧ (∀ e, e ∈ l →
            e ∈ []
            ∨ (class_name e.2 = "SuperNetModule" ∧ e.1 ≠ "" ∧ (e.1 ∉ ["a.b.s"])
               ∧ e.2 ∈ snd <$> named_modules nested_example "")).
Proof.
  eexists. split; [vm_compute; reflexivity|].
  apply (get_supernetModules_collects 7 [] nested_example ["a.b.s"]).
  vm_compute. reflexivity.
Defined.

(** X19: [get_supernetModules] calls itself on the children of every module below
    [model] that is no [SuperNetModule], although [named_modules] lists all
    the modules below [model] already: whatever a call on such a child
    collects, under names relative to that child, is in the result as well.
    A [SuperNetModule] at depth three is collected twice, under its qualified
    name and under a relative one. *)
Theorem get_supernetModules_nested fuel target_modules model exclude_names l
    name m child fuel' l' :
  get_supernetModules fuel target_modules model exclude_names = Some l →
  (name, m) ∈ named_modules model "" →
  name ≠ "" → class_name m ≠ "SuperNetModule" →
  child ∈ children m →
  get_supernetModules fuel' [] child exclude_names = Some l' →
  l' ⊆ l.
Proof.
  intros Hrun Hin Hname Hclass Hchild Hrun'.
  destruct fuel as [|fuel]; [done|]. cbn [get_supernetModules] in Hrun.
  destruct (for_each_step _ _ _ _ (name, m)
              (λ a s s' _, get_supernetModules_body_mono fuel exclude_names a s s')
              Hrun Hin) as (s1 & s2 & Hbody & _ & Hsub).
  cbn [fst snd] in Hbody. rewrite bool_decide_eq_true_2 in Hbody by done.
  rewrite bool_decide_eq_false_2 in Hbody by done.
  rewrite bool_decide_eq_true_2 in Hbody by (intros E; rewrite E in Hchild;
                                             by apply elem_of_nil in Hchild).
  destruct (for_each_step _ _ _ _ child
              (λ a s s' _, get_supernetModules_mono fuel s a exclude_names s')
              Hbody Hchild) as (t1 & t2 & Hstep & _ & Hsub').
  apply get_supernetModules_found in Hstep as (found & -> & Hfound).
  specialize (Hfound []). simpl in Hfound.
  pose proof (get_supernetModules_fuel_mono _ (fuel `max` fuel') _ _ _ _ Hfound
                (Nat.le_max_l _ _)) as H1.
  pose proof (get_supernetModules_fuel_mono _ (fuel `max` fuel') _ _ _ _ Hrun'
                (Nat.le_max_r _ _)) as H2.
  rewrite H1 in H2. injection H2 as <-.
  intros e He. apply Hsub, Hsub', elem_of_app. by right.
Qed.

Lemma get_supernetModules_nested_witness :
  ∃ l,
    get_supernetModules 7 [] nested_example [] = Some l
    ∧ [("s", nested_supernet_module)] ⊆ l
    ∧ ("a.b.s", nested_supernet_module) ∈ l.
Proof.
  eexists. split; [vm_compute; reflexivity|]. split.
  - apply (get_supernetModules_nested 7 [] nested_example [] _ "a"
             (mkModule "Sequential"
                [ ("b", mkModule "Sequential" [ ("s", nested_supernet_module) ]) ])
             (mkModule "Sequential" [ ("s", nested_supernet_module) ])
             7).
    + vm_compute. reflexivity.
    + simpl. apply list_elem_of_further, list_elem_of_here.
    + done.
    + done.
    + apply list_elem_of_here.
    + vm_compute. reflexivity.
  - vm_compute. apply list_elem_of_further, list_elem_of_here.
Defined.

(** X20: the setter of [regularizer] accepts exactly the names that
    [supported_regularizers] lists.  When it accepts, the getter returns the
    new name, a cost function is bound and the modules of the search are as
    before; otherwise it raises [ValueError] with the rejected name. *)
Theorem set_regularizer_supported self value :
  (value ∈ supported_regularizers ↔ ∃ self', set_regularizer self value = ret self')
  ∧ (∀ self', set_regularizer self value = ret self' →
       regularizer self' = value
       ∧ is_Some (get_regularization_loss self')
       ∧ _target_modules self' = _target_modules self)
  ∧ (value ∉ supported_regularizers →
     set_regularizer self value = raise (ValueError ("Invalid regularizer " +:+ value))).
Proof.
  unfold set_regularizer, supported_regularizers.
  destruct (bool_decide_reflect (value = "size")) as [->|Hsize].
  { split; [split; [by eexists|intros _; left]|]. split; [by intros ? [= <-]|].
    intros []. left. }
  destruct (bool_decide_reflect (value = "macs")) as [->|Hmacs].
  { split; [split; [by eexists|intros _; right; left]|]. split; [by intros ? [= <-]|].
    intros []. right. left. }
  split; [|done]. split; [|by intros [? ?]].
  intros [?|[?|?%elem_of_nil]%elem_of_cons]%elem_of_cons; done.
Qed.
